(** * Circle-Lendo: lending circles, credit registry and reserve pool

    A shallow embedding of the Solidity contracts of the repository
    ([CreditRegistry], [ReservePool], [LendingCircle] and the
    [LendingCircleFactory] that creates the circles) and the properties of
    the circle life cycle, the payout selection, the credit ledger, the
    reserve accounting and the books of the factory.

    Conventions of the embedding.
    - [uint256] is [N]; Solidity 0.8 arithmetic is checked, so [+], [-], [*]
      and [++] are the monadic [add256], [sub256], [mul256], which revert
      outside [0, 2^256).
    - [address] is [N], [address(0)] is [0].
    - a [mapping(K => V)] is a [gmap K V] read with the total lookup [!!!]:
      an absent key reads as the zero value of [V], as in Solidity.  A
      [mapping(K => bool)] is the [gset] of the keys mapped to [true].
    - a transaction either returns [Ok] with the new state or [Revert]s with
      the message of the failing [require]; a reverted call leaves no trace.
    - [emit] statements are left out: the event log is write-only, no
      contract reads it back.
    - [block.timestamp] is the argument [now] of the functions that read it. *)

From stdpp Require Import base numbers option list gmap strings.
From Stdlib Require Import NArith Lia.

Local Open Scope string_scope.
Local Open Scope N_scope.

(** ** Transactions that may revert *)

Inductive result (A : Type) : Type :=
| Ok (a : A)
| Revert (reason : string).
Arguments Ok {A} a.
Arguments Revert {A} reason.

Definition address := N.

Definition MAX_UINT256 : N := 2 ^ 256 - 1.

(** Panic(0x11) of checked arithmetic. *)
Definition PANIC_ARITH : string := "Panic: arithmetic overflow or underflow".
(** Panic(0x12). *)
Definition PANIC_DIV : string := "Panic: division by zero".

Definition add256 (a b : N) : result N :=
  if a + b <=? MAX_UINT256 then Ok (a + b) else Revert PANIC_ARITH.

Definition sub256 (a b : N) : result N :=
  if b <=? a then Ok (a - b) else Revert PANIC_ARITH.

Definition mul256 (a b : N) : result N :=
  if a * b <=? MAX_UINT256 then Ok (a * b) else Revert PANIC_ARITH.

Definition div256 (a b : N) : result N :=
  if b =? 0 then Revert PANIC_DIV else Ok (a / b).

(** The error monad of a single contract whose functions make no call. *)
Definition rbind {A B} (m : result A) (f : A -> result B) : result B :=
  match m with
  | Ok a => f a
  | Revert r => Revert r
  end.

Definition rrequire (b : bool) (msg : string) : result unit :=
  if b then Ok tt else Revert msg.

Declare Scope result_scope.
Delimit Scope result_scope with res.
Notation "'let!' x ':=' m 'in' k" := (rbind m (fun x => k))
  (at level 10, x name, m at level 100, k at level 200) : result_scope.
Notation "'do!' m 'in' k" := (rbind m (fun _ => k))
  (at level 10, m at level 100, k at level 200) : result_scope.

(** ** CreditRegistry *)

Module CreditRegistry.

Definition BASE_CREDIT_SCORE : N := 300.
Definition MAX_CREDIT_SCORE : N := 1000.
Definition MIN_CREDIT_SCORE : N := 0.

Definition ON_TIME_PAYMENT_BONUS : N := 10.
Definition LATE_PAYMENT_PENALTY : N := 20.
Definition DEFAULT_PENALTY : N := 100.
Definition CIRCLE_COMPLETION_BONUS : N := 15.

Record CreditProfile : Type := mkProfile {
  creditScore : N;
  circlesJoined : N;
  circlesCompleted : N;
  onTimePayments : N;
  latePayments : N;
  defaults : N;
  hasDefaulted : bool
}.

(** The zero value of the struct: what an unwritten slot reads as. *)
Definition zeroProfile : CreditProfile := mkProfile 0 0 0 0 0 0 false.

#[export] Instance CreditProfile_inhabited : Inhabited CreditProfile :=
  populate zeroProfile.

Record State : Type := mkState {
  creditProfiles : gmap address CreditProfile;
  hasProfile : gset address
}.

(** The registry as deployed: both mappings empty. *)
Definition initial : State := mkState ∅ ∅.

Definition profileOf (st : State) (a : address) : CreditProfile :=
  creditProfiles st !!! a.

Definition setProfile (st : State) (a : address) (p : CreditProfile) : State :=
  mkState (<[a := p]> (creditProfiles st)) (hasProfile st).

Definition getCreditScore (st : State) (participant : address) : N :=
  if bool_decide (participant ∈ hasProfile st)
  then creditScore (profileOf st participant)
  else BASE_CREDIT_SCORE.

Definition getCreditProfile (st : State) (participant : address) : CreditProfile :=
  if bool_decide (participant ∈ hasProfile st)
  then profileOf st participant
  else mkProfile BASE_CREDIT_SCORE 0 0 0 0 0 false.

Definition _ensureProfile (participant : address) (st : State) : State :=
  if bool_decide (participant ∈ hasProfile st) then st
  else mkState
         (<[participant := mkProfile BASE_CREDIT_SCORE 0 0 0 0 0 false]>
            (creditProfiles st))
         ({[participant]} ∪ hasProfile st).

Local Open Scope result_scope.

Definition recordOnTimePayment (participant : address) (st0 : State) : result State :=
  let st := _ensureProfile participant st0 in
  let p := profileOf st participant in
  let previousScore := creditScore p in
  let! n := add256 (onTimePayments p) 1 in
  let! sum := add256 previousScore ON_TIME_PAYMENT_BONUS in
  let newScore := if MAX_CREDIT_SCORE <? sum then MAX_CREDIT_SCORE else sum in
  Ok (setProfile st participant
        (mkProfile newScore (circlesJoined p) (circlesCompleted p) n
           (latePayments p) (defaults p) (hasDefaulted p))).

Definition recordLatePayment (participant : address) (st0 : State) : result State :=
  let st := _ensureProfile participant st0 in
  let p := profileOf st participant in
  let previousScore := creditScore p in
  let! n := add256 (latePayments p) 1 in
  let! newScore := (if LATE_PAYMENT_PENALTY <=? previousScore
               then sub256 previousScore LATE_PAYMENT_PENALTY
               else Ok MIN_CREDIT_SCORE) in
  Ok (setProfile st participant
        (mkProfile newScore (circlesJoined p) (circlesCompleted p)
           (onTimePayments p) n (defaults p) (hasDefaulted p))).

Definition recordDefault (participant : address) (st0 : State) : result State :=
  let st := _ensureProfile participant st0 in
  let p := profileOf st participant in
  let previousScore := creditScore p in
  let! n := add256 (defaults p) 1 in
  let! newScore := (if DEFAULT_PENALTY <=? previousScore
               then sub256 previousScore DEFAULT_PENALTY
               else Ok MIN_CREDIT_SCORE) in
  Ok (setProfile st participant
        (mkProfile newScore (circlesJoined p) (circlesCompleted p)
           (onTimePayments p) (latePayments p) n true)).

Definition recordCircleCompletion (participant : address) (st0 : State) : result State :=
  let st := _ensureProfile participant st0 in
  let p := profileOf st participant in
  let previousScore := creditScore p in
  let! n := add256 (circlesCompleted p) 1 in
  let! sum := add256 previousScore CIRCLE_COMPLETION_BONUS in
  let newScore := if MAX_CREDIT_SCORE <? sum then MAX_CREDIT_SCORE else sum in
  Ok (setProfile st participant
        (mkProfile newScore (circlesJoined p) n (onTimePayments p)
           (latePayments p) (defaults p) (hasDefaulted p))).

Definition recordCircleJoin (participant : address) (st0 : State) : result State :=
  let st := _ensureProfile participant st0 in
  let p := profileOf st participant in
  let! n := add256 (circlesJoined p) 1 in
  Ok (setProfile st participant
        (mkProfile (creditScore p) n (circlesCompleted p) (onTimePayments p)
           (latePayments p) (defaults p) (hasDefaulted p))).

(** The five ledger-mutating entry points, as data. *)
Inductive Op : Type :=
| OnTimePayment (participant : address)
| LatePayment (participant : address)
| Default (participant : address)
| CircleCompletion (participant : address)
| CircleJoin (participant : address).

Definition call (op : Op) : State -> result State :=
  match op with
  | OnTimePayment a => recordOnTimePayment a
  | LatePayment a => recordLatePayment a
  | Default a => recordDefault a
  | CircleCompletion a => recordCircleCompletion a
  | CircleJoin a => recordCircleJoin a
  end.

(** A transaction: the new state, or the old one when the call reverts. *)
Definition transact (op : Op) (st : State) : State :=
  match call op st with
  | Ok st' => st'
  | Revert _ => st
  end.

Definition run (ops : list Op) (st : State) : State :=
  foldl (fun s op => transact op s) st ops.

End CreditRegistry.

(** ** ReservePool

    The functions of the pool touch only its own storage, except for the
    value transfer at the end of [withdraw].  They are functions of the pool
    state, [msg.sender] and [msg.value]; [withdraw] returns, next to the new
    state, the transfer [(recipient, amount)] that the caller of the model
    performs ([recipient.call{value: amount}("")]), the whole call
    reverting when the transfer fails (see [withdrawFromReserve] below). *)

Module ReservePool.

Record State : Type := mkState {
  factory : address;
  verifiedCircles : gset address;
  totalDeposited : N;
  totalWithdrawn : N;
  currentBalance : N
}.

Local Open Scope result_scope.

Definition constructor (sender : address) : State :=
  mkState sender ∅ 0 0 0.

Definition onlyFactory (sender : address) (st : State) : result unit :=
  rrequire (bool_decide (sender = factory st)) "ReservePool: Only factory can call".

Definition onlyVerifiedCircle (sender : address) (st : State) : result unit :=
  rrequire (bool_decide (sender ∈ verifiedCircles st))
    "ReservePool: Only verified circles can withdraw".

Definition verifyCircle (sender circle : address) (st : State) : result State :=
  do! onlyFactory sender st in
  do! rrequire (negb (circle =? 0)) "ReservePool: Invalid circle address" in
  Ok (mkState (factory st) ({[circle]} ∪ verifiedCircles st)
        (totalDeposited st) (totalWithdrawn st) (currentBalance st)).

Definition revokeCircle (sender circle : address) (st : State) : result State :=
  do! onlyFactory sender st in
  Ok (mkState (factory st) (verifiedCircles st ∖ {[circle]})
        (totalDeposited st) (totalWithdrawn st) (currentBalance st)).

Definition deposit (sender : address) (value : N) (st : State) : result State :=
  do! onlyVerifiedCircle sender st in
  do! rrequire (0 <? value) "ReservePool: Deposit amount must be greater than 0" in
  let! td := add256 (totalDeposited st) value in
  let! cb := add256 (currentBalance st) value in
  Ok (mkState (factory st) (verifiedCircles st) td (totalWithdrawn st) cb).

Definition withdraw (sender : address) (amount : N) (recipient : address)
    (st : State) : result (State * (address * N)) :=
  do! onlyVerifiedCircle sender st in
  do! rrequire (0 <? amount) "ReservePool: Withdrawal amount must be greater than 0" in
  do! rrequire (negb (recipient =? 0)) "ReservePool: Invalid recipient address" in
  do! rrequire (amount <=? currentBalance st) "ReservePool: Insufficient balance" in
  let! cb := sub256 (currentBalance st) amount in
  let! tw := add256 (totalWithdrawn st) amount in
  Ok (mkState (factory st) (verifiedCircles st) (totalDeposited st) tw cb,
      (recipient, amount)).

Definition getUtilizationRate (st : State) : result N :=
  if totalDeposited st =? 0 then Ok 0
  else
    let! x := mul256 (totalWithdrawn st) 10000 in
    div256 x (totalDeposited st).

Definition receive (sender : address) (value : N) (st : State) : result State :=
  do! rrequire (bool_decide (sender ∈ verifiedCircles st))
        "ReservePool: Only verified circles can deposit" in
  let! td := add256 (totalDeposited st) value in
  let! cb := add256 (currentBalance st) value in
  Ok (mkState (factory st) (verifiedCircles st) td (totalWithdrawn st) cb).

End ReservePool.

(** ** LendingCircle: storage *)

Module Circle.

Inductive CircleStatus : Type := PENDING | ACTIVE | COMPLETED | CANCELLED.

Inductive ExcessDistributionMethod : Type := WITHDRAWABLE | AUTO_DEDUCT.

#[export] Instance CircleStatus_eq_dec : EqDecision CircleStatus.
Proof. solve_decision. Defined.

#[export] Instance ExcessDistributionMethod_eq_dec :
  EqDecision ExcessDistributionMethod.
Proof. solve_decision. Defined.

Definition ether : N := 10 ^ 18.
Definition MAX_CONTRIBUTION_PER_CREDIT : N := 1 * ether.
Definition MAX_PARTICIPANTS_PER_CREDIT : N := 1.
Definition MAX_EXPOSURE_PER_CREDIT : N := 10 * ether.
Definition days : N := 86400.

Record Participant : Type := mkParticipant {
  participant : address;
  isActive : bool;
  hasReceivedPayout : bool;
  isInDefault : bool;
  withdrawableBalance : N;
  monthlyPayments : gset N;
  paymentTimestamp : gmap N N
}.

#[export] Instance Participant_inhabited : Inhabited Participant :=
  populate (mkParticipant 0 false false false 0 ∅ ∅).

Record Vote : Type := mkVote {
  voter : address;
  voteCandidate : address;
  weight : N;
  hasVoted : bool
}.

#[export] Instance Vote_inhabited : Inhabited Vote :=
  populate (mkVote 0 0 0 false).

Record Candidate : Type := mkCandidate {
  candidate : address;
  proposer : address;
  totalVotes : N;
  candidateIsActive : bool
}.

#[export] Instance Candidate_inhabited : Inhabited Candidate :=
  populate (mkCandidate 0 0 0 false).

Record PayoutProposal : Type := mkProposal {
  endTime : N;
  executed : bool;
  winner : address;
  candidates : gmap address Candidate;
  candidateList : list address;
  votes : gmap address Vote;
  voters : list address
}.

#[export] Instance PayoutProposal_inhabited : Inhabited PayoutProposal :=
  populate (mkProposal 0 false 0 ∅ [] ∅ []).

Record State : Type := mkState {
  creator : address;
  coordinator : address;
  monthlyContribution : N;
  durationInMonths : N;
  minParticipants : N;
  maxParticipants : N;
  reservePercentage : N;
  excessDistributionMethod : ExcessDistributionMethod;
  status : CircleStatus;
  currentMonth : N;
  totalParticipants : N;
  poolBalance : N;
  totalReserveDeposited : N;
  participants : gmap address Participant;
  participantList : list address;
  payoutProposals : gmap N PayoutProposal;
  votingPeriod : N;
  _locked : bool
}.

(** Storage writes, one per field that the contract assigns. *)
Definition set_status (v : CircleStatus) (c : State) : State :=
  mkState (creator c) (coordinator c) (monthlyContribution c) (durationInMonths c)
    (minParticipants c) (maxParticipants c) (reservePercentage c)
    (excessDistributionMethod c) v (currentMonth c) (totalParticipants c)
    (poolBalance c) (totalReserveDeposited c) (participants c) (participantList c)
    (payoutProposals c) (votingPeriod c) (_locked c).

Definition set_currentMonth (v : N) (c : State) : State :=
  mkState (creator c) (coordinator c) (monthlyContribution c) (durationInMonths c)
    (minParticipants c) (maxParticipants c) (reservePercentage c)
    (excessDistributionMethod c) (status c) v (totalParticipants c)
    (poolBalance c) (totalReserveDeposited c) (participants c) (participantList c)
    (payoutProposals c) (votingPeriod c) (_locked c).

Definition set_totalParticipants (v : N) (c : State) : State :=
  mkState (creator c) (coordinator c) (monthlyContribution c) (durationInMonths c)
    (minParticipants c) (maxParticipants c) (reservePercentage c)
    (excessDistributionMethod c) (status c) (currentMonth c) v
    (poolBalance c) (totalReserveDeposited c) (participants c) (participantList c)
    (payoutProposals c) (votingPeriod c) (_locked c).

Definition set_poolBalance (v : N) (c : State) : State :=
  mkState (creator c) (coordinator c) (monthlyContribution c) (durationInMonths c)
    (minParticipants c) (maxParticipants c) (reservePercentage c)
    (excessDistributionMethod c) (status c) (currentMonth c) (totalParticipants c)
    v (totalReserveDeposited c) (participants c) (participantList c)
    (payoutProposals c) (votingPeriod c) (_locked c).

Definition set_totalReserveDeposited (v : N) (c : State) : State :=
  mkState (creator c) (coordinator c) (monthlyContribution c) (durationInMonths c)
    (minParticipants c) (maxParticipants c) (reservePercentage c)
    (excessDistributionMethod c) (status c) (currentMonth c) (totalParticipants c)
    (poolBalance c) v (participants c) (participantList c)
    (payoutProposals c) (votingPeriod c) (_locked c).

Definition set_participants (v : gmap address Participant) (c : State) : State :=
  mkState (creator c) (coordinator c) (monthlyContribution c) (durationInMonths c)
    (minParticipants c) (maxParticipants c) (reservePercentage c)
    (excessDistributionMethod c) (status c) (currentMonth c) (totalParticipants c)
    (poolBalance c) (totalReserveDeposited c) v (participantList c)
    (payoutProposals c) (votingPeriod c) (_locked c).

Definition set_participantList (v : list address) (c : State) : State :=
  mkState (creator c) (coordinator c) (monthlyContribution c) (durationInMonths c)
    (minParticipants c) (maxParticipants c) (reservePercentage c)
    (excessDistributionMethod c) (status c) (currentMonth c) (totalParticipants c)
    (poolBalance c) (totalReserveDeposited c) (participants c) v
    (payoutProposals c) (votingPeriod c) (_locked c).

Definition set_payoutProposals (v : gmap N PayoutProposal) (c : State) : State :=
  mkState (creator c) (coordinator c) (monthlyContribution c) (durationInMonths c)
    (minParticipants c) (maxParticipants c) (reservePercentage c)
    (excessDistributionMethod c) (status c) (currentMonth c) (totalParticipants c)
    (poolBalance c) (totalReserveDeposited c) (participants c) (participantList c)
    v (votingPeriod c) (_locked c).

Definition set_locked (v : bool) (c : State) : State :=
  mkState (creator c) (coordinator c) (monthlyContribution c) (durationInMonths c)
    (minParticipants c) (maxParticipants c) (reservePercentage c)
    (excessDistributionMethod c) (status c) (currentMonth c) (totalParticipants c)
    (poolBalance c) (totalReserveDeposited c) (participants c) (participantList c)
    (payoutProposals c) (votingPeriod c) v.

(** Writes to the members of the structs.  [Candidate.isActive] and
    [Vote.candidate] are [candidateIsActive] and [voteCandidate] here:
    the field names [isActive] and [candidate] are taken. *)
Definition set_participant_addr (v : address) (p : Participant) : Participant :=
  mkParticipant v (isActive p) (hasReceivedPayout p) (isInDefault p)
    (withdrawableBalance p) (monthlyPayments p) (paymentTimestamp p).

Definition set_isActive (v : bool) (p : Participant) : Participant :=
  mkParticipant (participant p) v (hasReceivedPayout p) (isInDefault p)
    (withdrawableBalance p) (monthlyPayments p) (paymentTimestamp p).

Definition set_hasReceivedPayout (v : bool) (p : Participant) : Participant :=
  mkParticipant (participant p) (isActive p) v (isInDefault p)
    (withdrawableBalance p) (monthlyPayments p) (paymentTimestamp p).

Definition set_isInDefault (v : bool) (p : Participant) : Participant :=
  mkParticipant (participant p) (isActive p) (hasReceivedPayout p) v
    (withdrawableBalance p) (monthlyPayments p) (paymentTimestamp p).

Definition set_withdrawableBalance (v : N) (p : Participant) : Participant :=
  mkParticipant (participant p) (isActive p) (hasReceivedPayout p) (isInDefault p)
    v (monthlyPayments p) (paymentTimestamp p).

Definition set_paid (month : N) (p : Participant) : Participant :=
  mkParticipant (participant p) (isActive p) (hasReceivedPayout p) (isInDefault p)
    (withdrawableBalance p) ({[month]} ∪ monthlyPayments p) (paymentTimestamp p).

Definition set_paymentTimestamp (month t : N) (p : Participant) : Participant :=
  mkParticipant (participant p) (isActive p) (hasReceivedPayout p) (isInDefault p)
    (withdrawableBalance p) (monthlyPayments p) (<[month := t]> (paymentTimestamp p)).

(** [delete participants[a]]: every member is zeroed except the nested
    mappings, which [delete] does not reach. *)
Definition deleted (p : Participant) : Participant :=
  mkParticipant 0 false false false 0 (monthlyPayments p) (paymentTimestamp p).

Definition set_endTime (v : N) (p : PayoutProposal) : PayoutProposal :=
  mkProposal v (executed p) (winner p) (candidates p) (candidateList p)
    (votes p) (voters p).

Definition set_executed (v : bool) (p : PayoutProposal) : PayoutProposal :=
  mkProposal (endTime p) v (winner p) (candidates p) (candidateList p)
    (votes p) (voters p).

Definition set_winner (v : address) (p : PayoutProposal) : PayoutProposal :=
  mkProposal (endTime p) (executed p) v (candidates p) (candidateList p)
    (votes p) (voters p).

Definition set_candidate (a : address) (v : Candidate) (p : PayoutProposal)
    : PayoutProposal :=
  mkProposal (endTime p) (executed p) (winner p) (<[a := v]> (candidates p))
    (candidateList p) (votes p) (voters p).

Definition push_candidate (a : address) (p : PayoutProposal) : PayoutProposal :=
  mkProposal (endTime p) (executed p) (winner p) (candidates p)
    (candidateList p ++ [a]) (votes p) (voters p).

Definition set_vote (a : address) (v : Vote) (p : PayoutProposal) : PayoutProposal :=
  mkProposal (endTime p) (executed p) (winner p) (candidates p) (candidateList p)
    (<[a := v]> (votes p)) (voters p).

Definition push_voter (a : address) (p : PayoutProposal) : PayoutProposal :=
  mkProposal (endTime p) (executed p) (winner p) (candidates p) (candidateList p)
    (votes p) (voters p ++ [a]).

Definition set_totalVotes (v : N) (c : Candidate) : Candidate :=
  mkCandidate (candidate c) (proposer c) v (candidateIsActive c).

(** [participants[a]] and [payoutProposals[m]]. *)
Definition participantOf (c : State) (a : address) : Participant :=
  participants c !!! a.

Definition proposalOf (c : State) (month : N) : PayoutProposal :=
  payoutProposals c !!! month.

Definition candidateOf (p : PayoutProposal) (a : address) : Candidate :=
  candidates p !!! a.

Definition voteOf (p : PayoutProposal) (a : address) : Vote :=
  votes p !!! a.

Definition set_participant (a : address) (p : Participant) (c : State) : State :=
  set_participants (<[a := p]> (participants c)) c.

Definition set_proposal (month : N) (p : PayoutProposal) (c : State) : State :=
  set_payoutProposals (<[month := p]> (payoutProposals c)) c.

(** [receive() external payable { poolBalance += msg.value; }] *)
Definition receive (value : N) (c : State) : result State :=
  rbind (add256 (poolBalance c) value) (fun pb => Ok (set_poolBalance pb c)).

End Circle.

(** ** The world: the three contracts and the balances of the chain

    One registry, one pool and one circle, the accounts' balances in wei, and
    the set of accounts whose code refuses a plain value transfer (the
    recipient side of [call{value: v}("")] is outside the repository; an
    account in [refusing] makes the call return [false]).  [creditRegistry]
    and [reservePool] of the circle denote the registry and the pool of the
    world. *)

Record World : Type := mkWorld {
  registry : CreditRegistry.State;
  reserve : ReservePool.State;
  circle : Circle.State;
  reserveAddress : address;
  circleAddress : address;
  balances : gmap address N;
  refusing : gset address
}.

Definition set_registry (v : CreditRegistry.State) (w : World) : World :=
  mkWorld v (reserve w) (circle w) (reserveAddress w) (circleAddress w)
    (balances w) (refusing w).

Definition set_reserve (v : ReservePool.State) (w : World) : World :=
  mkWorld (registry w) v (circle w) (reserveAddress w) (circleAddress w)
    (balances w) (refusing w).

Definition set_circle (v : Circle.State) (w : World) : World :=
  mkWorld (registry w) (reserve w) v (reserveAddress w) (circleAddress w)
    (balances w) (refusing w).

Definition set_balances (v : gmap address N) (w : World) : World :=
  mkWorld (registry w) (reserve w) (circle w) (reserveAddress w) (circleAddress w)
    v (refusing w).

Definition balanceOf (w : World) (a : address) : N := default 0 (balances w !! a).

(** Moving [value] wei from [from] to [to]. *)
Definition moveValue (from to : address) (value : N) (w : World) : World :=
  let b1 := <[from := balanceOf w from - value]> (balances w) in
  let b2 := <[to := default 0 (b1 !! to) + value]> b1 in
  set_balances b2 w.

(** The state-and-revert monad of a transaction. *)
Definition M (A : Type) : Type := World -> result (A * World).

Definition ret {A} (a : A) : M A := fun w => Ok (a, w).

Definition bind {A B} (m : M A) (f : A -> M B) : M B :=
  fun w => match m w with
           | Ok (a, w') => f a w'
           | Revert r => Revert r
           end.

Definition require (b : bool) (msg : string) : M unit :=
  fun w => if b then Ok (tt, w) else Revert msg.

Definition gets {A} (f : World -> A) : M A := fun w => Ok (f w, w).

Definition modify (f : World -> World) : M unit := fun w => Ok (tt, f w).

Definition lift {A} (r : result A) : M A :=
  fun w => match r with
           | Ok a => Ok (a, w)
           | Revert s => Revert s
           end.

Declare Scope world_scope.
Delimit Scope world_scope with world.
Notation "'let!' x ':=' m 'in' k" := (bind m (fun x => k))
  (at level 10, x name, m at level 100, k at level 200) : world_scope.
Notation "'do!' m 'in' k" := (bind m (fun _ => k))
  (at level 10, m at level 100, k at level 200) : world_scope.

Definition getCircle : M Circle.State := gets circle.

Definition putCircle (c : Circle.State) : M unit := modify (set_circle c).

(** A call into the registry, whose functions touch only its own storage. *)
Definition callRegistry (f : CreditRegistry.State -> result CreditRegistry.State)
    : M unit :=
  fun w => match f (registry w) with
           | Ok r => Ok (tt, set_registry r w)
           | Revert s => Revert s
           end.

(** The code run at the recipient of a plain value transfer: the [receive]
    function of the circle or of the pool, nothing for another account
    unless it refuses. *)
Definition receiveHook (from to : address) (value : N) (w : World) : result World :=
  if bool_decide (to = circleAddress w) then
    rbind (Circle.receive value (circle w)) (fun c => Ok (set_circle c w))
  else if bool_decide (to = reserveAddress w) then
    rbind (ReservePool.receive from value (reserve w)) (fun r => Ok (set_reserve r w))
  else if bool_decide (to ∈ refusing w) then Revert "refused"
  else Ok w.

(** [to.call{value: value}("")] made by [from]: [false] when [from] cannot
    pay or the recipient reverts, and then nothing has changed. *)
Definition call_value (from to : address) (value : N) : M bool :=
  fun w =>
    if balanceOf w from <? value then Ok (false, w)
    else match receiveHook from to value (moveValue from to value w) with
         | Ok w' => Ok (true, w')
         | Revert _ => Ok (false, w)
         end.

(** Entering a [payable] function: [msg.value] arrives with the call. *)
Definition payable (sender to : address) (value : N) : M unit :=
  fun w =>
    if balanceOf w sender <? value then Revert "insufficient funds for value"
    else Ok (tt, moveValue sender to value w).

Local Open Scope world_scope.

(** [ReservePool.withdraw] with its transfer carried out. *)
Definition withdrawFromReserve (sender : address) (amount : N) (recipient : address)
    : M unit :=
  let! r := gets reserve in
  let! out := lift (ReservePool.withdraw sender amount recipient r) in
  do! modify (set_reserve (fst out)) in
  let! pool := gets reserveAddress in
  let! success := call_value pool (fst (snd out)) (snd (snd out)) in
  require success "ReservePool: Transfer failed".

(** [ReservePool.deposit{value: value}()]. *)
Definition depositToReserve (sender : address) (value : N) : M unit :=
  let! pool := gets reserveAddress in
  do! payable sender pool value in
  let! r := gets reserve in
  let! r' := lift (ReservePool.deposit sender value r) in
  modify (set_reserve r').

(** ** LendingCircle: functions

    [sender] is [msg.sender], [value] is [msg.value], [now] is
    [block.timestamp]. *)

Module LendingCircle.
Import Circle.

Fixpoint forEach {A} (l : list A) (body : A -> M unit) : M unit :=
  match l with
  | [] => ret tt
  | x :: l' => do! body x in forEach l' body
  end.

(** *** Modifiers *)

Definition onlyCoordinator (sender : address) : M unit :=
  let! c := getCircle in
  require (bool_decide (sender = coordinator c))
    "LendingCircle: Only coordinator can call".

Definition onlyActiveParticipant (sender : address) : M unit :=
  let! c := getCircle in
  require (isActive (participantOf c sender)
           && negb (isInDefault (participantOf c sender)))
    "LendingCircle: Only active participants can call".

Definition onlyActiveCircle : M unit :=
  let! c := getCircle in
  require (bool_decide (status c = ACTIVE)) "LendingCircle: Circle must be active".

Definition nonReentrant (body : M unit) : M unit :=
  let! c := getCircle in
  do! require (negb (_locked c)) "LendingCircle: Reentrant call" in
  do! putCircle (set_locked true c) in
  do! body in
  let! c' := getCircle in
  putCircle (set_locked false c').

(** *** Constructor *)

Record Params : Type := mkParams {
  _creator : address;
  _monthlyContribution : N;
  _durationInMonths : N;
  _minParticipants : N;
  _maxParticipants : N;
  _reservePercentage : N;
  _excessDistributionMethod : ExcessDistributionMethod;
  _creditRegistry : address;
  _reservePool : address
}.

Definition constructor (a : Params) : M unit :=
  do! require (negb (_creator a =? 0)) "LendingCircle: Invalid creator" in
  do! require (0 <? _monthlyContribution a)
        "LendingCircle: Contribution must be greater than 0" in
  do! require (0 <? _durationInMonths a)
        "LendingCircle: Duration must be greater than 0" in
  do! require (2 <=? _minParticipants a)
        "LendingCircle: Minimum 2 participants required" in
  do! require (_minParticipants a <=? _maxParticipants a)
        "LendingCircle: Max must be >= min" in
  do! require (_reservePercentage a <=? 100)
        "LendingCircle: Reserve percentage must be <= 100" in
  do! require (negb (_creditRegistry a =? 0))
        "LendingCircle: Invalid credit registry" in
  do! require (negb (_reservePool a =? 0)) "LendingCircle: Invalid reserve pool" in
  let! creatorCredit :=
    gets (fun w => CreditRegistry.getCreditScore (registry w) (_creator a)) in
  let! limit1 := lift (mul256 creatorCredit MAX_CONTRIBUTION_PER_CREDIT) in
  do! require (_monthlyContribution a <=? limit1)
        "LendingCircle: Contribution exceeds credit limit" in
  let! limit2 := lift (mul256 creatorCredit MAX_PARTICIPANTS_PER_CREDIT) in
  do! require (_maxParticipants a <=? limit2)
        "LendingCircle: Max participants exceeds credit limit" in
  let! e1 := lift (mul256 (_monthlyContribution a) (_maxParticipants a)) in
  let! exposure := lift (mul256 e1 (_durationInMonths a)) in
  let! limit3 := lift (mul256 creatorCredit MAX_EXPOSURE_PER_CREDIT) in
  do! require (exposure <=? limit3)
        "LendingCircle: Total exposure exceeds credit limit" in
  do! putCircle
        (mkState (_creator a) (_creator a) (_monthlyContribution a)
           (_durationInMonths a) (_minParticipants a) (_maxParticipants a)
           (_reservePercentage a) (_excessDistributionMethod a)
           PENDING 0 1 0 0
           {[ _creator a := mkParticipant (_creator a) true false false 0 ∅ ∅ ]}
           [_creator a] ∅ (7 * days) false) in
  callRegistry (CreditRegistry.recordCircleJoin (_creator a)).

(** *** Internal functions *)

Definition eligible (c : State) (a : address) : bool :=
  isActive (participantOf c a) && negb (isInDefault (participantOf c a)).

(** The loop of [_getActiveParticipantCount]; [count++] cannot overflow,
    the list being shorter than [2^256]. *)
Definition _getActiveParticipantCount (w : World) : N :=
  foldl (fun count a => if eligible (circle w) a then count + 1 else count)
    0 (participantList (circle w)).

Definition _activateCircle : M unit :=
  let! c := getCircle in
  do! require (minParticipants c <=? totalParticipants c)
        "LendingCircle: Not enough participants" in
  putCircle (set_status ACTIVE c).

Definition _completeCircle : M unit :=
  let! c := getCircle in
  do! putCircle (set_status COMPLETED c) in
  forEach (participantList c) (fun a =>
    let! c' := getCircle in
    if eligible c' a
    then callRegistry (CreditRegistry.recordCircleCompletion a)
    else ret tt).

Definition _distributeExcess (month : N) : M unit :=
  let! activeCount := gets _getActiveParticipantCount in
  if activeCount =? 0 then ret tt
  else
    let! c := getCircle in
    let! pct := lift (sub256 100 (reservePercentage c)) in
    let! x := lift (mul256 (monthlyContribution c) pct) in
    let expectedPoolPerParticipant := x / 100 in
    let! expectedTotalPool := lift (mul256 expectedPoolPerParticipant activeCount) in
    if expectedTotalPool <? poolBalance c then
      let! excess := lift (sub256 (poolBalance c) expectedTotalPool) in
      let perParticipant := excess / activeCount in
      do! forEach (participantList c) (fun a =>
            let! c' := getCircle in
            if eligible c' a then
              let! wb := lift (add256 (withdrawableBalance (participantOf c' a))
                                 perParticipant) in
              putCircle (set_participant a
                           (set_withdrawableBalance wb (participantOf c' a)) c')
            else ret tt) in
      let! c'' := getCircle in
      let! pb := lift (sub256 (poolBalance c'') excess) in
      putCircle (set_poolBalance pb c'')
    else ret tt.

(** The running best of the scan of [_selectWinner]. *)
Record Best : Type := mkBest {
  bestCandidate : address;
  bestVotes : N;
  bestCredit : N
}.

Definition scanCandidate (w : World) (proposal : PayoutProposal)
    (best : Best) (a : address) : Best :=
  let cand := candidateOf proposal a in
  if negb (candidateIsActive cand) then best
  else if hasReceivedPayout (participantOf (circle w) a) then best
  else if isInDefault (participantOf (circle w) a) then best
  else
    let candidateVotes := totalVotes cand in
    let candidateCredit := CreditRegistry.getCreditScore (registry w) a in
    if (bestVotes best <? candidateVotes)
       || ((candidateVotes =? bestVotes best) && (bestCredit best <? candidateCredit))
    then mkBest a candidateVotes candidateCredit
    else best.

Definition _selectWinner (month : N) (w : World) : address :=
  let proposal := proposalOf (circle w) month in
  match candidateList proposal with
  | [] => 0
  | l => bestCandidate (foldl (scanCandidate w proposal) (mkBest 0 0 0) l)
  end.

(** *** External functions *)

Definition requestToJoin (sender : address) : M unit :=
  let! c := getCircle in
  do! require (bool_decide (status c = PENDING))
        "LendingCircle: Circle not accepting new members" in
  do! require (totalParticipants c <? maxParticipants c)
        "LendingCircle: Circle is full" in
  do! require (negb (isActive (participantOf c sender)))
        "LendingCircle: Already a participant" in
  do! require (negb (bool_decide (sender = creator c)))
        "LendingCircle: Creator is already a participant" in
  let! n := lift (add256 (totalParticipants c) 1) in
  do! putCircle
        (set_totalParticipants n
           (set_participantList (participantList c ++ [sender])
              (set_participant sender
                 (set_participant_addr sender (participantOf c sender)) c))) in
  callRegistry (CreditRegistry.recordCircleJoin sender).

Definition approveParticipant (sender participant : address) : M unit :=
  do! onlyCoordinator sender in
  let! c := getCircle in
  do! require (bool_decide (status c = PENDING))
        "LendingCircle: Circle not in pending status" in
  do! require (Circle.participant (participantOf c participant) =? participant)
        "LendingCircle: Participant not found" in
  do! require (negb (isActive (participantOf c participant)))
        "LendingCircle: Already approved" in
  do! putCircle (set_participant participant
                   (set_isActive true (participantOf c participant)) c) in
  let! c' := getCircle in
  if minParticipants c' <=? totalParticipants c' then _activateCircle else ret tt.

(** The loop of [rejectParticipant]: the first occurrence is overwritten
    with the last element, and the last element is popped. *)
Definition swapRemove (a : address) (l : list address) : list address :=
  match list_find (fun x => x = a) l, last l with
  | Some (i, _), Some z => take (length l - 1) (<[i := z]> l)
  | _, _ => l
  end.

Definition rejectParticipant (sender participant : address) : M unit :=
  do! onlyCoordinator sender in
  let! c := getCircle in
  do! require (bool_decide (status c = PENDING))
        "LendingCircle: Circle not in pending status" in
  do! require (Circle.participant (participantOf c participant) =? participant)
        "LendingCircle: Participant not found" in
  do! require (negb (isActive (participantOf c participant)))
        "LendingCircle: Cannot reject active participant" in
  let! n := lift (sub256 (totalParticipants c) 1) in
  putCircle
    (set_participant participant (deleted (participantOf c participant))
       (set_totalParticipants n
          (set_participantList (swapRemove participant (participantList c)) c))).

Definition makeContribution (sender : address) (value month now : N) : M unit :=
  let! this := gets circleAddress in
  do! payable sender this value in
  do! onlyActiveParticipant sender in
  do! onlyActiveCircle in
  let! c := getCircle in
  do! require (month =? currentMonth c) "LendingCircle: Invalid month" in
  do! require (negb (bool_decide (month ∈ monthlyPayments (participantOf c sender))))
        "LendingCircle: Already paid for this month" in
  let p := participantOf c sender in
  let excessBalance := withdrawableBalance p in
  let! due :=
    (if bool_decide (excessDistributionMethod c = AUTO_DEDUCT) && (0 <? excessBalance)
     then
       if monthlyContribution c <=? excessBalance then
         let! rest := lift (sub256 excessBalance (monthlyContribution c)) in
         ret (0, set_withdrawableBalance rest p)
       else
         let! rest := lift (sub256 (monthlyContribution c) excessBalance) in
         ret (rest, set_withdrawableBalance 0 p)
     else ret (monthlyContribution c, p)) in
  let contributionAmount := fst due in
  do! require (value =? contributionAmount)
        "LendingCircle: Incorrect contribution amount" in
  let p' := set_paymentTimestamp month now (set_paid month (snd due)) in
  let! scaled := lift (mul256 value (reservePercentage c)) in
  let reserveAmount := scaled / 100 in
  let! poolAmount := lift (sub256 value reserveAmount) in
  let! pb := lift (add256 (poolBalance c) poolAmount) in
  let! trd := lift (add256 (totalReserveDeposited c) reserveAmount) in
  do! putCircle (set_totalReserveDeposited trd
                   (set_poolBalance pb (set_participant sender p' c))) in
  do! (if 0 <? reserveAmount then
         let! pool := gets reserveAddress in
         let! success := call_value this pool reserveAmount in
         require success "LendingCircle: Reserve deposit failed"
       else ret tt) in
  callRegistry (CreditRegistry.recordOnTimePayment sender).

Definition proposePayout (sender candidate : address) (month now : N) : M unit :=
  do! onlyActiveParticipant sender in
  do! onlyActiveCircle in
  let! c := getCircle in
  do! require (month =? currentMonth c)
        "LendingCircle: Can only propose for current month" in
  do! require (isActive (participantOf c candidate))
        "LendingCircle: Candidate must be active" in
  do! require (negb (hasReceivedPayout (participantOf c candidate)))
        "LendingCircle: Candidate already received payout" in
  do! require (negb (isInDefault (participantOf c candidate)))
        "LendingCircle: Candidate is in default" in
  let proposal := proposalOf c month in
  let! deadline :=
    (if endTime proposal =? 0
     then lift (add256 now (votingPeriod c))
     else ret (endTime proposal)) in
  let proposal1 :=
    if endTime proposal =? 0
    then set_executed false (set_endTime deadline proposal)
    else proposal in
  do! require (now <? endTime proposal1) "LendingCircle: Voting period ended" in
  do! require (negb (candidateIsActive (candidateOf proposal1 candidate)))
        "LendingCircle: Candidate already proposed" in
  putCircle
    (set_proposal month
       (push_candidate candidate
          (set_candidate candidate (mkCandidate candidate sender 0 true) proposal1))
       c).

Definition vote (sender : address) (month : N) (candidate : address) (now : N)
    : M unit :=
  do! onlyActiveParticipant sender in
  do! onlyActiveCircle in
  let! c := getCircle in
  let proposal := proposalOf c month in
  do! require (0 <? endTime proposal)
        "LendingCircle: No proposal exists for this month" in
  do! require (now <? endTime proposal) "LendingCircle: Voting period ended" in
  do! require (negb (hasVoted (voteOf proposal sender)))
        "LendingCircle: Already voted" in
  do! require (candidateIsActive (candidateOf proposal candidate))
        "LendingCircle: Invalid candidate" in
  let! voteWeight :=
    gets (fun w => CreditRegistry.getCreditScore (registry w) sender) in
  do! require (0 <? voteWeight) "LendingCircle: Invalid vote weight" in
  let! tally := lift (add256 (totalVotes (candidateOf proposal candidate)) voteWeight) in
  putCircle
    (set_proposal month
       (set_candidate candidate
          (set_totalVotes tally (candidateOf proposal candidate))
          (push_voter sender
             (set_vote sender (mkVote sender candidate voteWeight true) proposal)))
       c).

Definition executePayout (month now : N) : M unit :=
  nonReentrant (
    do! onlyActiveCircle in
    let! c := getCircle in
    let proposal := proposalOf c month in
    do! require (0 <? endTime proposal) "LendingCircle: No proposal exists" in
    do! require (endTime proposal <=? now)
          "LendingCircle: Voting period not ended" in
    do! require (negb (executed proposal))
          "LendingCircle: Payout already executed" in
    do! require (month =? currentMonth c)
          "LendingCircle: Can only execute for current month" in
    let! recipient := gets (_selectWinner month) in
    do! require (negb (recipient =? 0)) "LendingCircle: No valid winner" in
    do! require (isActive (participantOf c recipient))
          "LendingCircle: Recipient must be active" in
    do! require (negb (hasReceivedPayout (participantOf c recipient)))
          "LendingCircle: Recipient already received payout" in
    do! require (negb (isInDefault (participantOf c recipient)))
          "LendingCircle: Recipient is in default" in
    let! activeCount := gets _getActiveParticipantCount in
    let! pct := lift (sub256 100 (reservePercentage c)) in
    let! x := lift (mul256 (monthlyContribution c) pct) in
    let expectedPoolPerParticipant := x / 100 in
    let! expectedPool := lift (mul256 expectedPoolPerParticipant activeCount) in
    let payoutAmount := expectedPool in
    let! this := gets circleAddress in
    do! (if poolBalance c <? payoutAmount then
           let! shortfall := lift (sub256 payoutAmount (poolBalance c)) in
           do! withdrawFromReserve this shortfall this in
           let! c1 := getCircle in
           let! pb := lift (add256 (poolBalance c1) shortfall) in
           putCircle (set_poolBalance pb c1)
         else ret tt) in
    let! c2 := getCircle in
    do! require (payoutAmount <=? poolBalance c2)
          "LendingCircle: Insufficient funds for payout" in
    let! pb := lift (sub256 (poolBalance c2) payoutAmount) in
    do! putCircle
          (set_proposal month
             (set_winner recipient (set_executed true (proposalOf c2 month)))
             (set_poolBalance pb
                (set_participant recipient
                   (set_hasReceivedPayout true (participantOf c2 recipient)) c2))) in
    let! success := call_value this recipient payoutAmount in
    do! require success "LendingCircle: Payout transfer failed" in
    do! callRegistry (CreditRegistry.recordOnTimePayment recipient) in
    do! _distributeExcess month in
    let! c3 := getCircle in
    let! cm := lift (add256 (currentMonth c3) 1) in
    do! putCircle (set_currentMonth cm c3) in
    if durationInMonths c3 <=? cm then _completeCircle else ret tt).

Definition recordLatePayment (sender participant : address) (month : N) : M unit :=
  do! onlyCoordinator sender in
  do! onlyActiveCircle in
  let! c := getCircle in
  do! require (isActive (participantOf c participant))
        "LendingCircle: Participant not found" in
  do! require (negb (bool_decide
                       (month ∈ monthlyPayments (participantOf c participant))))
        "LendingCircle: Payment already recorded" in
  do! putCircle (set_participant participant
                   (set_paid month (participantOf c participant)) c) in
  callRegistry (CreditRegistry.recordLatePayment participant).

Definition recordDefault (sender participant : address) (month : N) : M unit :=
  do! onlyCoordinator sender in
  do! onlyActiveCircle in
  let! c := getCircle in
  do! require (isActive (participantOf c participant))
        "LendingCircle: Participant not found" in
  do! putCircle (set_participant participant
                   (set_isInDefault true (participantOf c participant)) c) in
  callRegistry (CreditRegistry.recordDefault participant).

Definition withdrawExcess (sender : address) : M unit :=
  do! onlyActiveParticipant sender in
  let! c := getCircle in
  do! require (bool_decide (excessDistributionMethod c = WITHDRAWABLE))
        "LendingCircle: Excess not withdrawable" in
  do! require (0 <? withdrawableBalance (participantOf c sender))
        "LendingCircle: No balance to withdraw" in
  let amount := withdrawableBalance (participantOf c sender) in
  do! putCircle (set_participant sender
                   (set_withdrawableBalance 0 (participantOf c sender)) c) in
  let! this := gets circleAddress in
  let! success := call_value this sender amount in
  require success "LendingCircle: Withdrawal failed".

(** *** Views *)

Definition getActiveParticipantCount (w : World) : N := _getActiveParticipantCount w.

Definition hasPaidForMonth (participant : address) (month : N) (w : World) : bool :=
  bool_decide (month ∈ monthlyPayments (participantOf (circle w) participant)).

Definition getCandidateVotes (month : N) (candidate : address) (w : World) : N :=
  totalVotes (candidateOf (proposalOf (circle w) month) candidate).

Definition getCandidates (month : N) (w : World) : list address :=
  candidateList (proposalOf (circle w) month).

Definition getWinner (month : N) (w : World) : address :=
  winner (proposalOf (circle w) month).

Definition isVotingPeriodEnded (month now : N) (w : World) : bool :=
  (endTime (proposalOf (circle w) month) <=? now)
  && (0 <? endTime (proposalOf (circle w) month)).

End LendingCircle.

(** ** Transactions

    Every external entry point of the three contracts, and the plain value
    transfers to the circle and to the pool, as sent by an account. *)

Inductive Tx : Type :=
| RequestToJoin (sender : address)
| ApproveParticipant (sender participant : address)
| RejectParticipant (sender participant : address)
| MakeContribution (sender : address) (value month : N)
| ProposePayout (sender candidate : address) (month : N)
| CastVote (sender : address) (month : N) (candidate : address)
| ExecutePayout (sender : address) (month : N)
| RecordLatePayment (sender participant : address) (month : N)
| RecordDefault (sender participant : address) (month : N)
| WithdrawExcess (sender : address)
| SendToCircle (sender : address) (value : N)
| Ledger (sender : address) (op : CreditRegistry.Op)
| VerifyCircle (sender circle : address)
| RevokeCircle (sender circle : address)
| Deposit (sender : address) (value : N)
| Withdraw (sender : address) (amount : N) (recipient : address)
| SendToReserve (sender : address) (value : N).

Definition txSender (tx : Tx) : address :=
  match tx with
  | RequestToJoin s | ApproveParticipant s _ | RejectParticipant s _
  | MakeContribution s _ _ | ProposePayout s _ _ | CastVote s _ _
  | ExecutePayout s _ | RecordLatePayment s _ _ | RecordDefault s _ _
  | WithdrawExcess s | SendToCircle s _ | Ledger s _ | VerifyCircle s _
  | RevokeCircle s _ | Deposit s _ | Withdraw s _ _ | SendToReserve s _ => s
  end.

(** A plain transfer sent by an account: the transaction fails when the
    recipient's [receive] reverts. *)
Definition send (sender to : address) (value : N) : M unit :=
  let! success := call_value sender to value in
  require success "transfer failed".

Definition liftReserve (f : ReservePool.State -> result ReservePool.State) : M unit :=
  let! r := gets reserve in
  let! r' := lift (f r) in
  modify (set_reserve r').

Definition exec (now : N) (tx : Tx) : M unit :=
  match tx with
  | RequestToJoin s => LendingCircle.requestToJoin s
  | ApproveParticipant s p => LendingCircle.approveParticipant s p
  | RejectParticipant s p => LendingCircle.rejectParticipant s p
  | MakeContribution s v m => LendingCircle.makeContribution s v m now
  | ProposePayout s c m => LendingCircle.proposePayout s c m now
  | CastVote s m c => LendingCircle.vote s m c now
  | ExecutePayout _ m => LendingCircle.executePayout m now
  | RecordLatePayment s p m => LendingCircle.recordLatePayment s p m
  | RecordDefault s p m => LendingCircle.recordDefault s p m
  | WithdrawExcess s => LendingCircle.withdrawExcess s
  | SendToCircle s v => let! this := gets circleAddress in send s this v
  | Ledger _ op => callRegistry (CreditRegistry.call op)
  | VerifyCircle s c => liftReserve (ReservePool.verifyCircle s c)
  | RevokeCircle s c => liftReserve (ReservePool.revokeCircle s c)
  | Deposit s v => depositToReserve s v
  | Withdraw s a r => withdrawFromReserve s a r
  | SendToReserve s v => let! pool := gets reserveAddress in send s pool v
  end.

(** The outcome of a computation as a transaction: all or nothing. *)
Definition commit (m : M unit) (w : World) : World :=
  match m w with
  | Ok (_, w') => w'
  | Revert _ => w
  end.

Definition transact (now : N) (tx : Tx) (w : World) : World := commit (exec now tx) w.

(** A history: transactions with the timestamps of their blocks. *)
Definition runTrace (tr : list (N * Tx)) (w : World) : World :=
  foldl (fun s e => transact (fst e) (snd e) s) w tr.

(** Senders are accounts: neither of the two contracts nor the null
    address; block timestamps do not decrease. *)
Definition accountOf (w : World) (a : address) : bool :=
  negb (a =? 0) && negb (a =? circleAddress w) && negb (a =? reserveAddress w).

Fixpoint chronological (t : N) (tr : list (N * Tx)) : bool :=
  match tr with
  | [] => true
  | e :: tr' => (t <=? fst e) && chronological (fst e) tr'
  end.

Definition admissible (w : World) (tr : list (N * Tx)) : bool :=
  forallb (fun e => accountOf w (txSender (snd e))) tr && chronological 0 tr.

(** A world is reachable when it is the outcome of an admissible history
    that starts with the deployment of the circle. *)
Definition reachable (w : World) : Prop :=
  exists (a : LendingCircle.Params) (w0 w1 : World) (tr : list (N * Tx)),
    LendingCircle.constructor a w0 = Ok (tt, w1)
    /\ admissible w1 tr = true
    /\ w = runTrace tr w1.

(** ** Concrete scenarios *)

Module Scenario.
Import Circle LendingCircle.

Definition alice : address := 101.
Definition bob : address := 102.
Definition carol : address := 103.
Definition deployer : address := 100.
Definition thisCircle : address := 500.
Definition thePool : address := 600.
Definition theRegistry : address := 700.

(** The chain before the circle is deployed: a fresh registry, a pool
    deployed by [deployer] that already trusts the address of the circle,
    and funded accounts. *)
Definition genesis : World :=
  mkWorld CreditRegistry.initial
    (ReservePool.mkState deployer {[thisCircle]} 0 0 0)
    (mkState 0 0 0 0 0 0 0 WITHDRAWABLE PENDING 0 0 0 0 ∅ [] ∅ 0 false)
    thePool thisCircle
    {[alice := 1000; bob := 1000; carol := 1000; deployer := 1000]} ∅.

(** [monthlyContribution] of 10 wei, 6 months, 3 to 6 participants. *)
Definition params (reservePct : N) : Params :=
  mkParams alice 10 6 3 6 reservePct WITHDRAWABLE theRegistry thePool.

Definition deployed (reservePct : N) : World :=
  commit (constructor (params reservePct)) genesis.

End Scenario.

(** ** Statements *)

(** [m] run from [w] reverts. *)
Definition reverts {A} (m : M A) (w : World) : Prop :=
  exists msg, m w = Revert msg.

(** Weakest precondition for partial correctness: if [m] returns from [w],
    the result and the new world satisfy [Q]. *)
Definition wp {A} (m : M A) (Q : A -> World -> Prop) (w : World) : Prop :=
  match m w with
  | Ok (a, w') => Q a w'
  | Revert _ => True
  end.

(** The adjustment of the score in the words of the specification, on the
    integers: [min(score + 10, 1000)], [max(score - 20, 0)],
    [max(score - 100, 0)], [min(score + 15, 1000)], and no change on a
    join. *)
Definition saturatingAdjustment (op : CreditRegistry.Op) (score : Z) : Z :=
  match op with
  | CreditRegistry.OnTimePayment _ => Z.min (score + 10) 1000
  | CreditRegistry.LatePayment _ => Z.max (score - 20) 0
  | CreditRegistry.Default _ => Z.max (score - 100) 0
  | CreditRegistry.CircleCompletion _ => Z.min (score + 15) 1000
  | CreditRegistry.CircleJoin _ => score
  end.

Definition subject (op : CreditRegistry.Op) : address :=
  match op with
  | CreditRegistry.OnTimePayment a | CreditRegistry.LatePayment a
  | CreditRegistry.Default a | CreditRegistry.CircleCompletion a
  | CreditRegistry.CircleJoin a => a
  end.

(** Every stored score, and every score read, is at most 1000. *)
Definition scoresBounded (st : CreditRegistry.State) : Prop :=
  forall a, CreditRegistry.creditScore (CreditRegistry.profileOf st a) <= 1000.

(** [currentBalance = totalDeposited - totalWithdrawn], without borrowing
    below zero. *)
Definition reserveBalanced (st : ReservePool.State) : Prop :=
  ReservePool.totalWithdrawn st <= ReservePool.totalDeposited st
  /\ ReservePool.currentBalance st
     = ReservePool.totalDeposited st - ReservePool.totalWithdrawn st.

Definition marksDefault (op : CreditRegistry.Op) : bool :=
  match op with
  | CreditRegistry.Default _ => true
  | _ => false
  end.

(** The counter that the operation increments. *)
Definition counterOf (op : CreditRegistry.Op) (p : CreditRegistry.CreditProfile) : N :=
  match op with
  | CreditRegistry.OnTimePayment _ => CreditRegistry.onTimePayments p
  | CreditRegistry.LatePayment _ => CreditRegistry.latePayments p
  | CreditRegistry.Default _ => CreditRegistry.defaults p
  | CreditRegistry.CircleCompletion _ => CreditRegistry.circlesCompleted p
  | CreditRegistry.CircleJoin _ => CreditRegistry.circlesJoined p
  end.

(** [m] keeps the property [P] of worlds whenever it returns. *)
Definition preserves {A} (P : World -> Prop) (m : M A) : Prop :=
  forall w, P w -> wp m (fun _ w' => P w') w.

Definition reserveOK (w : World) : Prop := reserveBalanced (reserve w).

(** The history used to exercise the pool: a verified circle collects three
    contributions at a reserve share of 10 per cent. *)
Definition reserveHistory : list (N * Tx) :=
  [(1, RequestToJoin Scenario.bob); (2, RequestToJoin Scenario.carol);
   (3, ApproveParticipant Scenario.alice Scenario.bob);
   (4, MakeContribution Scenario.alice 10 0);
   (5, MakeContribution Scenario.bob 10 0)].

(** Within the circle, a participant in default is an active one. *)
Definition defaultsAreActive (w : World) : Prop :=
  forall a,
    Circle.isInDefault (Circle.participantOf (circle w) a) = true ->
    Circle.isActive (Circle.participantOf (circle w) a) = true.

Definition inDefault (p : address) (w : World) : Prop :=
  Circle.isInDefault (Circle.participantOf (circle w) p) = true.

(** The invariant, together with the default flag of the participants in
    [ps]. *)
Definition defaultKept (ps : list address) (w : World) : Prop :=
  defaultsAreActive w /\ Forall (fun p => inDefault p w) ps.

(** The flag [hasDefaulted] of the ledger, as read by [getCreditProfile]. *)
Definition ledgerDefaulted (p : address) (w : World) : Prop :=
  CreditRegistry.hasDefaulted (CreditRegistry.getCreditProfile (registry w) p) = true.

(** The loop of [_distributeExcess] as a function of the circle state:
    every entry of the member list that is active and not in default is
    credited [per], in list order. *)
Definition creditEntry (per : N) (c : Circle.State) (a : address) : Circle.State :=
  if LendingCircle.eligible c a
  then Circle.set_participant a
         (Circle.set_withdrawableBalance
            (Circle.withdrawableBalance (Circle.participantOf c a) + per)
            (Circle.participantOf c a)) c
  else c.

Definition creditAll (per : N) (l : list address) (c : Circle.State) : Circle.State :=
  foldl (creditEntry per) c l.

(** The expected contribution of one participant to the pool, and of the
    whole circle: [monthlyContribution * (100 - reservePercentage) / 100]
    times the number of active participants not in default. *)
Definition expectedShare (c : Circle.State) : N :=
  Circle.monthlyContribution c * (100 - Circle.reservePercentage c) / 100.

Definition expectedPool (w : World) : N :=
  expectedShare (circle w) * LendingCircle._getActiveParticipantCount w.

(** The circle state written by [executePayout] before the transfer: the
    recipient is marked as paid, the amount leaves [poolBalance], the
    proposal is closed with its winner. *)
Definition markPaid (recipient : address) (amount month : N) (c : Circle.State)
    : Circle.State :=
  Circle.set_proposal month
    (Circle.set_winner recipient
       (Circle.set_executed true (Circle.proposalOf c month)))
    (Circle.set_poolBalance (Circle.poolBalance c - amount)
       (Circle.set_participant recipient
          (Circle.set_hasReceivedPayout true (Circle.participantOf c recipient)) c)).

(** The end of [executePayout]: the month advances, the circle completes
    when the last month is over, and the reentrancy lock is released. *)
Definition advanceMonth (c : Circle.State) : Circle.State :=
  let cm := Circle.currentMonth c + 1 in
  let c1 := Circle.set_currentMonth cm c in
  Circle.set_locked false
    (if Circle.durationInMonths c <=? cm
     then Circle.set_status Circle.COMPLETED c1
     else c1).

(** The world after the circle has borrowed its shortfall [s] from the
    pool: the books of the pool, the value, and [poolBalance], which is
    credited by the [receive] function of the circle and once more by
    [executePayout] itself. *)
Definition afterBorrow (s : N) (w : World) : World :=
  set_circle
    (Circle.set_poolBalance (Circle.poolBalance (circle w) + s + s) (circle w))
    (moveValue (reserveAddress w) (circleAddress w) s
       (set_reserve
          (ReservePool.mkState
             (ReservePool.factory (reserve w))
             (ReservePool.verifiedCircles (reserve w))
             (ReservePool.totalDeposited (reserve w))
             (ReservePool.totalWithdrawn (reserve w) + s)
             (ReservePool.currentBalance (reserve w) - s)) w)).

(** Three members admitted one by one, so that the circle turns active
    with the third; [alice] and [bob] pay their contribution of month 0,
    [carol] does not; [bob] is proposed and voted for. *)
Definition payoutHistory : list (N * Tx) :=
  [(1, RequestToJoin Scenario.bob);
   (2, ApproveParticipant Scenario.alice Scenario.bob);
   (3, RequestToJoin Scenario.carol);
   (4, ApproveParticipant Scenario.alice Scenario.carol);
   (5, MakeContribution Scenario.alice 10 0);
   (6, MakeContribution Scenario.bob 10 0);
   (7, ProposePayout Scenario.alice Scenario.bob 0);
   (8, CastVote Scenario.alice 0 Scenario.bob)].

(** The end of the voting period opened at time 7. *)
Definition afterVoting : N := 7 + 7 * Circle.days.

(** With a reserve share of 50 per cent the pool holds 10 of the 15 due and
    the reserve can lend the missing 5; with a share of 10 per cent the pool
    holds 18 of the 27 due and the reserve holds 2. *)
Definition shortCovered : World := runTrace payoutHistory (Scenario.deployed 50).
Definition shortUncovered : World := runTrace payoutHistory (Scenario.deployed 10).

(** Without a reserve share: the three members pay 10 each, an outsider
    sends 35 wei to the circle, [bob] and [carol] are proposed and [bob]
    gets the votes. *)
Definition excessHistory : list (N * Tx) :=
  [(1, RequestToJoin Scenario.bob);
   (2, ApproveParticipant Scenario.alice Scenario.bob);
   (3, RequestToJoin Scenario.carol);
   (4, ApproveParticipant Scenario.alice Scenario.carol);
   (5, MakeContribution Scenario.alice 10 0);
   (6, MakeContribution Scenario.bob 10 0);
   (6, MakeContribution Scenario.carol 10 0);
   (6, SendToCircle Scenario.deployer 35);
   (7, ProposePayout Scenario.alice Scenario.bob 0);
   (7, ProposePayout Scenario.alice Scenario.carol 0);
   (8, CastVote Scenario.alice 0 Scenario.bob)].

(** The pool holds 65 against 30 expected: after the payout 35 remain, an
    excess of 5 over the 30 expected, for 3 eligible members. *)
Definition withExcess : World := runTrace excessHistory (Scenario.deployed 0).

(** The payout of month 0 is executed, then [carol] is recorded in
    default. *)
Definition defaultAfterPayout : list (N * Tx) :=
  [(afterVoting, ExecutePayout Scenario.deployer 0);
   (afterVoting + 1, RecordDefault Scenario.alice Scenario.carol 1)].

(** [bob], proposed and voted for, is recorded in default before the
    payout. *)
Definition defaultBeforePayout : list (N * Tx) :=
  [(9, RecordDefault Scenario.alice Scenario.bob 0)].

Abbreviation bobDefaulted :=
  (runTrace (excessHistory ++ defaultBeforePayout) (Scenario.deployed 0)).

Abbreviation carolDefaulted :=
  (runTrace (excessHistory ++ defaultAfterPayout) (Scenario.deployed 0)).

(** [bob] is proposed for month 0 and gets no vote; three defaults are
    recorded against him directly in the registry, which any account may
    call, and bring his score from 300 to 0.  Within the circle he stays an
    active participant, never paid and not in default. *)
Definition stuckHistory : list (N * Tx) :=
  [(1, RequestToJoin Scenario.bob);
   (2, ApproveParticipant Scenario.alice Scenario.bob);
   (3, RequestToJoin Scenario.carol);
   (4, ApproveParticipant Scenario.alice Scenario.carol);
   (7, ProposePayout Scenario.alice Scenario.bob 0);
   (8, Ledger Scenario.deployer (CreditRegistry.Default Scenario.bob));
   (8, Ledger Scenario.deployer (CreditRegistry.Default Scenario.bob));
   (8, Ledger Scenario.deployer (CreditRegistry.Default Scenario.bob))].

Abbreviation stuck := (runTrace stuckHistory (Scenario.deployed 0)).

(** A candidate that the scan of [_selectWinner] does not skip. *)
Definition eligibleCandidate (w : World) (month : N) (a : address) : bool :=
  Circle.candidateIsActive
    (Circle.candidateOf (Circle.proposalOf (circle w) month) a)
  && negb (Circle.hasReceivedPayout (Circle.participantOf (circle w) a))
  && negb (Circle.isInDefault (Circle.participantOf (circle w) a)).

Definition votesOf (w : World) (month : N) (a : address) : N :=
  Circle.totalVotes (Circle.candidateOf (Circle.proposalOf (circle w) month) a).

Definition creditOf (w : World) (a : address) : N :=
  CreditRegistry.getCreditScore (registry w) a.

(** [a] ranks strictly above the pair [(v, s)]: more votes, or as many
    votes and a higher score. *)
Definition outranks (w : World) (month : N) (a : address) (v s : N) : Prop :=
  v < votesOf w month a \/ (votesOf w month a = v /\ s < creditOf w a).

(** [a] ranks at least as high as [b]. *)
Definition ranksAtLeast (w : World) (month : N) (a b : address) : Prop :=
  votesOf w month b < votesOf w month a
  \/ (votesOf w month b = votesOf w month a /\ creditOf w b <= creditOf w a).

(** The excess of a payout, seen from the world before it: what remains in
    [poolBalance] once the payout is taken, beyond the expected pool. *)
Definition excessOf (w : World) : N :=
  Circle.poolBalance (circle w) - expectedPool w - expectedPool w.

(** The remainder of the division of the excess is still in [poolBalance]
    after the payout: [w] is the world before, [w'] the world after. *)
Definition remainderStaysInPool (w w' : World) : Prop :=
  Circle.poolBalance (circle w')
  = expectedPool w + excessOf w mod LendingCircle._getActiveParticipantCount w.

(** Two join requests and the first approval, for a circle created with
    [minParticipants = 3] and [maxParticipants = 6]. *)
Definition twoRequests : list (N * Tx) :=
  [(1, RequestToJoin Scenario.bob); (2, RequestToJoin Scenario.carol)].

Abbreviation requested := (runTrace twoRequests (Scenario.deployed 0)).

Abbreviation firstApproved :=
  (transact 3 (ApproveParticipant Scenario.alice Scenario.bob) requested).

(** [bob] has asked to join and is not approved yet. *)
Abbreviation bobPending := (transact 1 (RequestToJoin Scenario.bob) (Scenario.deployed 0)).

(** The listed participants that are active and not in default, each of
    them once. *)
Definition eligibleParticipants (c : Circle.State) : gset address :=
  list_to_set (filter (fun a => LendingCircle.eligible c a = true)
                 (Circle.participantList c)).

(** With a reserve share of 50 per cent: [bob] asks twice to join before he
    is approved, [alice] and [bob] pay 10 each, [bob] is proposed and gets
    the vote of [alice]. *)
Definition duplicateHistory : list (N * Tx) :=
  [(1, RequestToJoin Scenario.bob);
   (2, RequestToJoin Scenario.bob);
   (3, ApproveParticipant Scenario.alice Scenario.bob);
   (5, MakeContribution Scenario.alice 10 0);
   (6, MakeContribution Scenario.bob 10 0);
   (7, ProposePayout Scenario.alice Scenario.bob 0);
   (8, CastVote Scenario.alice 0 Scenario.bob)].

Definition listedTwice : World := runTrace duplicateHistory (Scenario.deployed 50).

(** ** Statements on the rest of the code *)

(** Two ledger operations of the same kind, whatever their subject. *)
Definition sameKind (op op' : CreditRegistry.Op) : bool :=
  match op, op' with
  | CreditRegistry.OnTimePayment _, CreditRegistry.OnTimePayment _
  | CreditRegistry.LatePayment _, CreditRegistry.LatePayment _
  | CreditRegistry.Default _, CreditRegistry.Default _
  | CreditRegistry.CircleCompletion _, CreditRegistry.CircleCompletion _
  | CreditRegistry.CircleJoin _, CreditRegistry.CircleJoin _ => true
  | _, _ => false
  end.

(** The score after [k] operations of one kind, on the integers. *)
Definition scoreAfter (op : CreditRegistry.Op) (k : nat) (score : Z) : Z :=
  match op with
  | CreditRegistry.OnTimePayment _ => Z.min (score + 10 * Z.of_nat k) 1000
  | CreditRegistry.LatePayment _ => Z.max (score - 20 * Z.of_nat k) 0
  | CreditRegistry.Default _ => Z.max (score - 100 * Z.of_nat k) 0
  | CreditRegistry.CircleCompletion _ => Z.min (score + 15 * Z.of_nat k) 1000
  | CreditRegistry.CircleJoin _ => score
  end.

Section OperationStatements.
Import Circle.

(** The contribution asked of a participant by [makeContribution]: the
    monthly contribution, less the withdrawable balance when the circle
    deducts automatically; and the withdrawable balance left. *)
Definition autoDeducts (c : Circle.State) (p : Circle.Participant) : bool :=
  bool_decide (Circle.excessDistributionMethod c = Circle.AUTO_DEDUCT)
  && (0 <? Circle.withdrawableBalance p).

Definition amountDue (c : Circle.State) (p : Circle.Participant) : N :=
  if autoDeducts c p then
    if Circle.monthlyContribution c <=? Circle.withdrawableBalance p then 0
    else Circle.monthlyContribution c - Circle.withdrawableBalance p
  else Circle.monthlyContribution c.

Definition balanceAfterDeduct (c : Circle.State) (p : Circle.Participant) : N :=
  if autoDeducts c p then
    if Circle.monthlyContribution c <=? Circle.withdrawableBalance p
    then Circle.withdrawableBalance p - Circle.monthlyContribution c
    else 0
  else Circle.withdrawableBalance p.

(** The part of a contribution that goes to the reserve. *)
Definition reserveShare (c : Circle.State) (value : N) : N :=
  value * Circle.reservePercentage c / 100.

(** The circle state written by [makeContribution]. *)
Definition contributed (sender : address) (value month now : N) (c : Circle.State)
    : Circle.State :=
  let p := Circle.participantOf c sender in
  Circle.set_totalReserveDeposited
    (Circle.totalReserveDeposited c + reserveShare c value)
    (Circle.set_poolBalance
       (Circle.poolBalance c + (value - reserveShare c value))
       (Circle.set_participant sender
          (Circle.set_paymentTimestamp month now
             (Circle.set_paid month
                (Circle.set_withdrawableBalance (balanceAfterDeduct c p) p)))
          c)).

(** The proposal of the month once [proposePayout] has opened it: the
    first proposal of a month fixes the end of the voting period. *)
Definition opened (now month : N) (c : Circle.State) : Circle.PayoutProposal :=
  let proposal := Circle.proposalOf c month in
  if Circle.endTime proposal =? 0
  then Circle.set_executed false
         (Circle.set_endTime (now + Circle.votingPeriod c) proposal)
  else proposal.

(** The circle states written by [proposePayout] and by [vote]. *)
Definition proposed (sender candidate : address) (month now : N) (c : Circle.State)
    : Circle.State :=
  Circle.set_proposal month
    (Circle.push_candidate candidate
       (Circle.set_candidate candidate
          (Circle.mkCandidate candidate sender 0 true) (opened now month c)))
    c.

Definition voted (sender : address) (month : N) (candidate : address) (weight : N)
    (c : Circle.State) : Circle.State :=
  let proposal := Circle.proposalOf c month in
  Circle.set_proposal month
    (Circle.set_candidate candidate
       (Circle.set_totalVotes
          (Circle.totalVotes (Circle.candidateOf proposal candidate) + weight)
          (Circle.candidateOf proposal candidate))
       (Circle.push_voter sender
          (Circle.set_vote sender (Circle.mkVote sender candidate weight true)
             proposal)))
    c.

End OperationStatements.

(** Worlds of the history [excessHistory], cut after its first [k]
    transactions, for a circle with a reserve share of [pct] per cent: the
    circle is ACTIVE with three members from [k = 4] on. *)
Abbreviation after k pct := (runTrace (take k excessHistory) (Scenario.deployed pct)).

(** The world after the payout of month 0 with an excess. *)
Abbreviation paidOut :=
  (commit (LendingCircle.executePayout 0 afterVoting) withExcess).

(** ** The circle as a state machine

    What one transaction may do to the storage of the circle, funds left
    aside: [skeleton] and [memberFlags] are the parts of the storage that
    decide who may do what; [poolBalance], [totalReserveDeposited], the
    withdrawable balances and the payment timestamps are the funds. *)

Section MachineStatements.
Import Circle.

(** The parameters fixed at deployment. *)
Definition config (c : State) :=
  (creator c, coordinator c, monthlyContribution c, durationInMonths c,
   minParticipants c, maxParticipants c, reservePercentage c,
   excessDistributionMethod c, votingPeriod c).

Definition skeleton (c : State) :=
  (config c, status c, currentMonth c, totalParticipants c, participantList c,
   payoutProposals c, _locked c).

Definition memberFlags (p : Participant) :=
  (participant p, isActive p, hasReceivedPayout p, isInDefault p,
   monthlyPayments p).

Definition sameButFunds (c c' : State) : Prop :=
  skeleton c' = skeleton c
  /\ forall a, memberFlags (participantOf c' a) = memberFlags (participantOf c a).

(** The circle states written by [requestToJoin], [approveParticipant] and
    [rejectParticipant]. *)
Definition joined (sender : address) (c : State) : State :=
  set_totalParticipants (totalParticipants c + 1)
    (set_participantList (participantList c ++ [sender])
       (set_participant sender
          (set_participant_addr sender (participantOf c sender)) c)).

Definition approved (p : address) (c : State) : State :=
  let c1 := set_participant p (set_isActive true (participantOf c p)) c in
  if minParticipants c <=? totalParticipants c then set_status ACTIVE c1 else c1.

Definition rejected (p : address) (c : State) : State :=
  set_participant p (deleted (participantOf c p))
    (set_totalParticipants (totalParticipants c - 1)
       (set_participantList (LendingCircle.swapRemove p (participantList c)) c)).

(** The moves of the machine, with the guards that the invariants of the
    life cycle rest on. *)
Inductive circleStep (c : State) : State -> Prop :=
| StepFunds : circleStep c c
| StepJoin sender :
    status c = PENDING ->
    isActive (participantOf c sender) = false ->
    circleStep c (joined sender c)
| StepApprove p :
    status c = PENDING ->
    isActive (participantOf c p) = false ->
    circleStep c (approved p c)
| StepReject p :
    status c = PENDING ->
    isActive (participantOf c p) = false ->
    circleStep c (rejected p c)
| StepPaid p month :
    status c = ACTIVE ->
    isActive (participantOf c p) = true ->
    circleStep c (set_participant p (set_paid month (participantOf c p)) c)
| StepDefault p :
    status c = ACTIVE ->
    isActive (participantOf c p) = true ->
    circleStep c (set_participant p (set_isInDefault true (participantOf c p)) c)
| StepPropose sender candidate month now :
    status c = ACTIVE ->
    month = currentMonth c ->
    candidateIsActive (candidateOf (opened now month c) candidate) = false ->
    circleStep c (proposed sender candidate month now c)
| StepVote sender month candidate weight :
    status c = ACTIVE ->
    hasVoted (voteOf (proposalOf c month) sender) = false ->
    candidateIsActive (candidateOf (proposalOf c month) candidate) = true ->
    circleStep c (voted sender month candidate weight c)
| StepPayout r amount month :
    status c = ACTIVE ->
    _locked c = false ->
    month = currentMonth c ->
    executed (proposalOf c month) = false ->
    isActive (participantOf c r) = true ->
    hasReceivedPayout (participantOf c r) = false ->
    isInDefault (participantOf c r) = false ->
    circleStep c (advanceMonth (markPaid r amount month c)).

(** One transaction: a step, up to the funds. *)
Definition circleMove (c c' : State) : Prop :=
  exists c1, circleStep c c1 /\ sameButFunds c1 c'.

(** Two states that differ in the funds and in the reentrancy lock. *)
Definition sameButLock (c c' : State) : Prop :=
  sameButFunds (set_locked false c) (set_locked false c').

End MachineStatements.

Section LifeCycleStatements.
Import Circle.

(** The order of the life cycle. *)
Definition rank (s : CircleStatus) : N :=
  match s with
  | PENDING => 0
  | ACTIVE => 1
  | COMPLETED => 2
  | CANCELLED => 3
  end.

(** The status and the month of a circle agree: a PENDING circle is in
    month 0, an ACTIVE one in a month below its duration, a COMPLETED one at
    its duration; no circle is CANCELLED, and the reentrancy lock is free
    between transactions. *)
Definition lifecycleOK (c : State) : Prop :=
  status c ≠ CANCELLED
  /\ _locked c = false
  /\ 0 < durationInMonths c
  /\ (status c = PENDING -> currentMonth c = 0)
  /\ (status c = ACTIVE -> currentMonth c < durationInMonths c)
  /\ (status c = COMPLETED -> currentMonth c = durationInMonths c).

(** Once the circle has left PENDING, no transaction changes who its
    members are, and the flags of payout and default are only ever set. *)
Definition membersKept (c c' : State) : Prop :=
  status c' ≠ PENDING
  /\ participantList c' = participantList c
  /\ totalParticipants c' = totalParticipants c
  /\ forall a,
       participant (participantOf c' a) = participant (participantOf c a)
       /\ isActive (participantOf c' a) = isActive (participantOf c a)
       /\ (hasReceivedPayout (participantOf c a) = true ->
           hasReceivedPayout (participantOf c' a) = true)
       /\ (isInDefault (participantOf c a) = true ->
           isInDefault (participantOf c' a) = true).

(** The payout of month [m] has been executed for the winner [r], and the
    circle has moved on. *)
Definition payoutDone (m : N) (r : address) (c : State) : Prop :=
  executed (proposalOf c m) = true
  /\ winner (proposalOf c m) = r
  /\ m < currentMonth c.

End LifeCycleStatements.


(** The pool holds [k] wei more than its books say, in a world whose pool
    and circle are at the addresses [pool] and [this]. *)
Definition poolHolds (pool this : address) (k : N) (w : World) : Prop :=
  reserveAddress w = pool
  /\ circleAddress w = this
  /\ balanceOf w pool = ReservePool.currentBalance (reserve w) + k.

(** The senders of a history are other accounts than [a]. *)
Definition sentByOthers (a : address) (tr : list (N * Tx)) : Prop :=
  Forall (fun e => txSender (snd e) ≠ a) tr.

(** ** A circle that has completed *)

Section CompletionStatements.
Import Circle.

(** From [c] to [c'] the circle has paid nothing out of its pool: the pool
    balance has not gone down, no withdrawable balance has gone up, and the
    count of the reserve deposits is the same. *)
Definition fundsKept (c c' : State) : Prop :=
  poolBalance c <= poolBalance c'
  /\ totalReserveDeposited c' = totalReserveDeposited c
  /\ forall a, withdrawableBalance (participantOf c' a)
               <= withdrawableBalance (participantOf c a).

End CompletionStatements.

(** A circle of two members for one month, without a reserve share: both
    pay 10, an outsider sends 7 wei, [bob] is proposed, voted for and paid
    out the 20 wei expected after the voting period; the circle is then
    COMPLETED, with the 7 wei in its pool. *)
Definition oneMonth : LendingCircle.Params :=
  LendingCircle.mkParams Scenario.alice 10 1 2 2 0 Circle.WITHDRAWABLE
    Scenario.theRegistry Scenario.thePool.

Definition oneMonthHistory : list (N * Tx) :=
  [(1, RequestToJoin Scenario.bob);
   (2, ApproveParticipant Scenario.alice Scenario.bob);
   (3, MakeContribution Scenario.alice 10 0);
   (4, MakeContribution Scenario.bob 10 0);
   (5, SendToCircle Scenario.deployer 7);
   (7, ProposePayout Scenario.alice Scenario.bob 0);
   (8, CastVote Scenario.alice 0 Scenario.bob);
   (afterVoting, ExecutePayout Scenario.deployer 0)].

Definition completedCircle : World :=
  runTrace oneMonthHistory (commit (LendingCircle.constructor oneMonth) Scenario.genesis).

(** What is sent to it afterwards: a transfer of 4 wei, and attempts to
    withdraw, to contribute and to propose. *)
Definition afterCompletion : list (N * Tx) :=
  [(afterVoting + 1, WithdrawExcess Scenario.alice);
   (afterVoting + 2, SendToCircle Scenario.deployer 4);
   (afterVoting + 3, MakeContribution Scenario.alice 10 1);
   (afterVoting + 4, ProposePayout Scenario.alice Scenario.alice 1)].

(** ** LendingCircleFactory

    The factory creates the circles.  Its calls reach the registry (read
    for the score of the creator, written by the constructor of the new
    circle) and the pool ([verifyCircle], sent by the factory itself): a
    [Chain] holds the storage of the three contracts, the address of the
    factory, and the storage of every circle as its constructor left it. *)

(** Panic(0x32). *)
Definition PANIC_INDEX : string := "Panic: array index out of bounds".

Module LendingCircleFactory.

Record State : Type := mkState {
  creditRegistry : address;
  reservePool : address;
  circles : list address;
  isCircle : gset address;
  userCircles : gmap address (list address)
}.

Record Chain : Type := mkChain {
  factory : State;
  factoryAddress : address;
  ledger : CreditRegistry.State;
  pool : ReservePool.State;
  created : gmap address Circle.State
}.

Local Open Scope result_scope.

Definition constructor (_creditRegistry _reservePool : address) : result State :=
  do! rrequire (negb (_creditRegistry =? 0))
        "LendingCircleFactory: Invalid credit registry" in
  do! rrequire (negb (_reservePool =? 0))
        "LendingCircleFactory: Invalid reserve pool" in
  Ok (mkState _creditRegistry _reservePool [] ∅ ∅).

(** Storage before a constructor has run. *)
Definition zeroed : Circle.State :=
  Circle.mkState 0 0 0 0 0 0 0 Circle.WITHDRAWABLE Circle.PENDING 0 0 0 0 ∅ [] ∅ 0
    false.

(** [new LendingCircle(...)] at the address [at_] that the EVM assigns to
    the contract (it creates none where there is one already): the
    constructor runs on zeroed storage, against the registry and the pool of
    the chain, and a revert of the constructor is a revert of the caller.
    The constructor neither reads nor moves ether. *)
Definition newLendingCircle (a : LendingCircle.Params) (at_ : address) (ch : Chain)
    : result (Circle.State * CreditRegistry.State) :=
  do! rrequire (bool_decide (at_ ∉ dom (created ch))) "address in use" in
  match LendingCircle.constructor a
          (mkWorld (ledger ch) (pool ch) zeroed (reservePool (factory ch)) at_ ∅ ∅)
  with
  | Ok (_, w) => Ok (circle w, registry w)
  | Revert msg => Revert msg
  end.

Definition getUserCircles (user : address) (st : State) : list address :=
  default [] (userCircles st !! user).

Definition createCircle (sender : address)
    (monthlyContribution durationInMonths minParticipants maxParticipants
       reservePercentage : N)
    (excessDistributionMethod : Circle.ExcessDistributionMethod)
    (newCircle : address) (ch : Chain) : result (address * Chain) :=
  let st := factory ch in
  let creatorCredit := CreditRegistry.getCreditScore (ledger ch) sender in
  do! rrequire (300 <=? creatorCredit)
        "LendingCircleFactory: Insufficient credit score to create circle" in
  let! new :=
    newLendingCircle
      (LendingCircle.mkParams sender monthlyContribution durationInMonths
         minParticipants maxParticipants reservePercentage
         excessDistributionMethod (creditRegistry st) (reservePool st))
      newCircle ch in
  let circle := newCircle in
  let st' :=
    mkState (creditRegistry st) (reservePool st) (circles st ++ [circle])
      ({[circle]} ∪ isCircle st)
      (<[sender := (getUserCircles sender st ++ [circle])%list]> (userCircles st)) in
  let! pool' := ReservePool.verifyCircle (factoryAddress ch) circle (pool ch) in
  Ok (circle,
      mkChain st' (factoryAddress ch) (snd new) pool'
        (<[circle := fst new]> (created ch))).

Definition getCircleCount (st : State) : N := N.of_nat (length (circles st)).

(** The loop of [getCircles]: [todo] iterations are left, [i] is the loop
    counter and [result_] the array [result] being filled. *)
Fixpoint copyCircles (cs : list address) (offset : N) (todo : nat) (i : N)
    (result_ : list address) : result (list address) :=
  match todo with
  | O => Ok result_
  | S todo' =>
      let! j := add256 offset i in
      match cs !! N.to_nat j with
      | None => Revert PANIC_INDEX
      | Some c =>
          if (N.to_nat i <? length result_)%nat then
            let! i' := add256 i 1 in
            copyCircles cs offset todo' i' (<[N.to_nat i := c]> result_)
          else Revert PANIC_INDEX
      end
  end.

Definition getCircles (offset limit : N) (st : State) : result (list address) :=
  let length := N.of_nat (length (circles st)) in
  if length <=? offset then Ok []
  else
    let! sum := add256 offset limit in
    let end_ := if length <? sum then length else sum in
    let! resultLength := sub256 end_ offset in
    copyCircles (circles st) offset (N.to_nat resultLength) 0
      (replicate (N.to_nat resultLength) 0).

(** What happens on the chain, as far as the factory is concerned: a
    creation, an operation on the registry (anyone may send one, a circle
    among them), and the two calls of the pool that are reserved to its
    [factory]. *)
Inductive Action : Type :=
| Create (sender : address)
    (monthlyContribution durationInMonths minParticipants maxParticipants
       reservePercentage : N)
    (excessDistributionMethod : Circle.ExcessDistributionMethod)
    (newCircle : address)
| Registry (op : CreditRegistry.Op)
| Verify (sender circle : address)
| Revoke (sender circle : address).

Definition set_pool (v : ReservePool.State) (ch : Chain) : Chain :=
  mkChain (factory ch) (factoryAddress ch) (ledger ch) v (created ch).

Definition set_ledger (v : CreditRegistry.State) (ch : Chain) : Chain :=
  mkChain (factory ch) (factoryAddress ch) v (pool ch) (created ch).

(** One action as a transaction: all or nothing. *)
Definition act (a : Action) (ch : Chain) : Chain :=
  match a with
  | Create s mc d minP maxP rp edm c =>
      match createCircle s mc d minP maxP rp edm c ch with
      | Ok (_, ch') => ch'
      | Revert _ => ch
      end
  | Registry op => set_ledger (CreditRegistry.transact op (ledger ch)) ch
  | Verify s c =>
      match ReservePool.verifyCircle s c (pool ch) with
      | Ok p => set_pool p ch
      | Revert _ => ch
      end
  | Revoke s c =>
      match ReservePool.revokeCircle s c (pool ch) with
      | Ok p => set_pool p ch
      | Revert _ => ch
      end
  end.

Definition run (h : list Action) (ch : Chain) : Chain :=
  foldl (fun s a => act a s) ch h.

(** The chain once the factory is deployed at [this], for a registry and a
    pool that exist already. *)
Definition deploy (this _creditRegistry _reservePool : address)
    (registry0 : CreditRegistry.State) (pool0 : ReservePool.State) : result Chain :=
  let! st := constructor _creditRegistry _reservePool in
  Ok (mkChain st this registry0 pool0 ∅).

End LendingCircleFactory.

(** Statements on the factory. *)

(** The circle at [c] was created by [u]. *)
Definition createdBy (ch : LendingCircleFactory.Chain) (u c : address) : bool :=
  match LendingCircleFactory.created ch !! c with
  | Some st => bool_decide (Circle.creator st = u)
  | None => false
  end.

(** The calls of the pool in a history are sent by other accounts than [a]. *)
Definition poolCallsByOthers (a : address) (h : list LendingCircleFactory.Action)
    : Prop :=
  Forall (fun x => match x with
                   | LendingCircleFactory.Verify s _
                   | LendingCircleFactory.Revoke s _ => s ≠ a
                   | _ => True
                   end) h.

(** The books of the factory agree with what it created, for a factory at
    [this] and a pool whose [factory] is [f]. *)
Definition factoryConsistent (this f : address) (ch : LendingCircleFactory.Chain)
    : Prop :=
  let st := LendingCircleFactory.factory ch in
  LendingCircleFactory.factoryAddress ch = this
  /\ ReservePool.factory (LendingCircleFactory.pool ch) = f
  /\ NoDup (LendingCircleFactory.circles st)
  /\ (forall c, c ∈ LendingCircleFactory.isCircle st
                <-> c ∈ LendingCircleFactory.circles st)
  /\ (forall c, c ∈ LendingCircleFactory.circles st
                <-> is_Some (LendingCircleFactory.created ch !! c))
  /\ (forall u, LendingCircleFactory.getUserCircles u st
                = List.filter (createdBy ch u) (LendingCircleFactory.circles st))
  /\ (forall c, c ∈ LendingCircleFactory.circles st ->
                c ≠ 0 /\ f = this
                /\ c ∈ ReservePool.verifiedCircles (LendingCircleFactory.pool ch)).

(** A factory at [theFactory], for the registry and the pool of the
    scenarios; the pool has the factory as its [factory]. *)
Definition theFactory : address := 800.

Definition factoryDeployed : LendingCircleFactory.Chain :=
  LendingCircleFactory.mkChain
    (LendingCircleFactory.mkState Scenario.theRegistry Scenario.thePool [] ∅ ∅)
    theFactory CreditRegistry.initial (ReservePool.constructor theFactory) ∅.

(** Alice creates two circles and Bob one; in between Alice is recorded in
    default, and an account tries to revoke the first circle. *)
Definition factoryHistory : list LendingCircleFactory.Action :=
  [LendingCircleFactory.Create Scenario.alice 10 6 3 6 10 Circle.WITHDRAWABLE 501;
   LendingCircleFactory.Create Scenario.bob 20 3 2 4 0 Circle.AUTO_DEDUCT 502;
   LendingCircleFactory.Revoke Scenario.deployer 501;
   LendingCircleFactory.Create Scenario.alice 5 2 2 2 50 Circle.WITHDRAWABLE 503;
   LendingCircleFactory.Registry (CreditRegistry.Default Scenario.alice);
   LendingCircleFactory.Create Scenario.alice 5 2 2 2 50 Circle.WITHDRAWABLE 504].


(** ** The ballots of a proposal *)

Section BallotStatements.
Import Circle.

(** The sum of the weights of the recorded votes for [c]. *)
Definition votesFor (p : PayoutProposal) (c : address) : N :=
  foldr (fun v acc =>
           if bool_decide (voteCandidate (voteOf p v) = c)
           then weight (voteOf p v) + acc else acc)
    0 (voters p).

(** The candidates, the votes and the tallies of a proposal agree. *)
Definition ballotOK (p : PayoutProposal) : Prop :=
  NoDup (voters p)
  /\ (forall v, v ∈ voters p <-> hasVoted (voteOf p v) = true)
  /\ NoDup (candidateList p)
  /\ (forall c, c ∈ candidateList p <-> candidateIsActive (candidateOf p c) = true)
  /\ (forall v, v ∈ voters p ->
        voter (voteOf p v) = v /\ voteCandidate (voteOf p v) ∈ candidateList p)
  /\ (forall c, totalVotes (candidateOf p c) = votesFor p c).

(** The part of a proposal that the votes are about. *)
Definition ballot (p : PayoutProposal) :=
  (candidates p, candidateList p, votes p, voters p).

Definition ballotsOK (c : State) : Prop := forall m, ballotOK (proposalOf c m).

End BallotStatements.

(** The votes of [alice] and [carol] for [bob] and of [bob] for [carol],
    cast in the voting period of month 0. *)
Definition ballotHistory : list (N * Tx) :=
  (excessHistory
   ++ [(9, CastVote Scenario.carol 0 Scenario.bob);
       (9, CastVote Scenario.bob 0 Scenario.carol);
       (10, CastVote Scenario.bob 0 Scenario.bob)])%list.

(** ** Proofs *)

(** *** Checked arithmetic and the two monads *)

Lemma add256_Ok a b c : add256 a b = Ok c -> c = a + b /\ a + b <= MAX_UINT256.
Proof.
  unfold add256. destruct (N.leb_spec (a + b) MAX_UINT256); [|discriminate].
  intros [= <-]. done.
Qed.

Lemma sub256_Ok a b c : sub256 a b = Ok c -> c = a - b /\ b <= a.
Proof.
  unfold sub256. destruct (N.leb_spec b a); [|discriminate].
  intros [= <-]. done.
Qed.

Lemma mul256_Ok a b c : mul256 a b = Ok c -> c = a * b /\ a * b <= MAX_UINT256.
Proof.
  unfold mul256. destruct (N.leb_spec (a * b) MAX_UINT256); [|discriminate].
  intros [= <-]. done.
Qed.

Lemma rbind_Ok {A B} (m : result A) (f : A -> result B) b :
  rbind m f = Ok b -> exists a, m = Ok a /\ f a = Ok b.
Proof. destruct m as [a|]; simpl; [eauto | discriminate]. Qed.

Lemma rrequire_Ok b msg u : rrequire b msg = Ok u -> b = true.
Proof. destruct b; [done | discriminate]. Qed.

(** Decomposing a successful run of a contract function of [result]. *)
Ltac inv_result :=
  repeat match goal with
  | H : rbind _ _ = Ok _ |- _ =>
      let a := fresh "a" in let Ha := fresh "Ha" in
      apply rbind_Ok in H as (a & Ha & H)
  | H : rrequire _ _ = Ok _ |- _ => apply rrequire_Ok in H
  | H : add256 _ _ = Ok _ |- _ => apply add256_Ok in H as [-> ?]
  | H : sub256 _ _ = Ok _ |- _ => apply sub256_Ok in H as [-> ?]
  | H : mul256 _ _ = Ok _ |- _ => apply mul256_Ok in H as [-> ?]
  | H : Ok _ = Ok _ |- _ => injection H as H; subst
  | H : Revert _ = Ok _ |- _ => discriminate H
  | H : (if ?b then _ else _) = Ok _ |- _ => destruct b eqn:?
  end.

(** Splitting the conjunctions of a goal, and nothing else. *)
Ltac split_all := repeat match goal with |- _ /\ _ => split end.

(** *** CreditRegistry *)

Section RegistryFacts.
Import CreditRegistry.

Lemma ensureProfile_hasProfile a st :
  hasProfile (_ensureProfile a st) = {[a]} ∪ hasProfile st.
Proof.
  unfold _ensureProfile. case_bool_decide; simpl; [set_solver | done].
Qed.

Lemma ensureProfile_profile a st :
  profileOf (_ensureProfile a st) a = getCreditProfile st a.
Proof.
  unfold _ensureProfile, getCreditProfile, profileOf.
  case_bool_decide; simpl; [done | by rewrite lookup_total_insert_eq].
Qed.

Lemma ensureProfile_other a b st :
  b ≠ a -> profileOf (_ensureProfile a st) b = profileOf st b.
Proof.
  intros Hne. unfold _ensureProfile, profileOf.
  case_bool_decide; simpl; [done | by rewrite lookup_total_insert_ne].
Qed.

Lemma getCreditScore_profile st a :
  getCreditScore st a = creditScore (getCreditProfile st a).
Proof. unfold getCreditScore, getCreditProfile. by case_bool_decide. Qed.

Lemma setProfile_same st a p : profileOf (setProfile st a p) a = p.
Proof. unfold profileOf, setProfile; simpl. by rewrite lookup_total_insert_eq. Qed.

Lemma setProfile_other st a b p :
  b ≠ a -> profileOf (setProfile st a p) b = profileOf st b.
Proof.
  intros. unfold profileOf, setProfile; simpl. by rewrite lookup_total_insert_ne.
Qed.

(** What a successful ledger operation does: the subject has a profile,
    the other profiles are untouched, the score of the subject is adjusted
    with saturation and its default flag is kept or set. *)
Lemma call_Ok op st st' :
  call op st = Ok st' ->
  hasProfile st' = {[subject op]} ∪ hasProfile st
  /\ (forall b, b ≠ subject op -> profileOf st' b = profileOf st b)
  /\ Z.of_N (creditScore (profileOf st' (subject op)))
     = saturatingAdjustment op (Z.of_N (getCreditScore st (subject op)))
  /\ hasDefaulted (profileOf st' (subject op))
     = hasDefaulted (getCreditProfile st (subject op)) || marksDefault op.
Proof.
  intros H.
  destruct op as [a|a|a|a|a]; simpl in *;
    unfold recordOnTimePayment, recordLatePayment, recordDefault,
      recordCircleCompletion, recordCircleJoin in H;
    inv_result; simpl;
    rewrite ensureProfile_hasProfile, setProfile_same;
    rewrite ?ensureProfile_profile in *;
    rewrite <- ?getCreditScore_profile in *; simpl;
    (split; [done|]);
    (split; [intros b Hb; by rewrite setProfile_other, ensureProfile_other|]);
    rewrite ?orb_false_r, ?orb_true_r; (split; [|done]);
    unfold MAX_CREDIT_SCORE, ON_TIME_PAYMENT_BONUS, LATE_PAYMENT_PENALTY,
      DEFAULT_PENALTY, CIRCLE_COMPLETION_BONUS, MIN_CREDIT_SCORE in *;
    repeat match goal with
    | H : (_ <=? _) = true |- _ => apply N.leb_le in H
    | H : (_ <=? _) = false |- _ => apply N.leb_gt in H
    | |- context [?x <? ?y] => destruct (N.ltb_spec x y)
    end; lia.
Qed.

Lemma getCreditScore_after op st st' :
  call op st = Ok st' ->
  getCreditScore st' (subject op) = creditScore (profileOf st' (subject op)).
Proof.
  intros (Hp & _)%call_Ok. unfold getCreditScore.
  rewrite bool_decide_true; [done | set_solver].
Qed.

Lemma getCreditScore_bounded st a : scoresBounded st -> getCreditScore st a <= 1000.
Proof.
  intros Hb. unfold getCreditScore. case_bool_decide; [apply Hb|].
  unfold BASE_CREDIT_SCORE. lia.
Qed.

Lemma saturatingAdjustment_range op (s : Z) :
  (0 <= s <= 1000)%Z -> (0 <= saturatingAdjustment op s <= 1000)%Z.
Proof. destruct op; simpl; lia. Qed.

Lemma scoresBounded_initial : scoresBounded initial.
Proof.
  intros a. unfold profileOf, initial; simpl. rewrite lookup_total_empty.
  simpl. lia.
Qed.

Lemma scoresBounded_call op st st' :
  scoresBounded st -> call op st = Ok st' -> scoresBounded st'.
Proof.
  intros Hb Hc a. pose proof (call_Ok _ _ _ Hc) as (_ & Hother & Hscore & _).
  destruct (decide (a = subject op)) as [->|Hne].
  - pose proof (getCreditScore_bounded st (subject op) Hb).
    pose proof (saturatingAdjustment_range op
                  (Z.of_N (getCreditScore st (subject op)))).
    lia.
  - rewrite Hother by done. apply Hb.
Qed.

Lemma scoresBounded_transact op st : scoresBounded st -> scoresBounded (transact op st).
Proof.
  intros Hb. unfold transact. destruct (call op st) eqn:Hc; [|done].
  eauto using scoresBounded_call.
Qed.

Lemma scoresBounded_run ops st : scoresBounded st -> scoresBounded (run ops st).
Proof.
  revert st. induction ops as [|op ops IH]; intros st Hb; simpl; [done|].
  apply IH, scoresBounded_transact, Hb.
Qed.

(** The score arithmetic itself never reverts on a bounded ledger: an
    operation can only fail on its event counter. *)
Lemma call_Revert op st msg :
  scoresBounded st -> call op st = Revert msg ->
  MAX_UINT256 <= counterOf op (getCreditProfile st (subject op)).
Proof.
  intros Hb Hc.
  pose proof (getCreditScore_bounded st (subject op) Hb) as Hs.
  rewrite getCreditScore_profile in Hs.
  assert (Hmax : MAX_UINT256 = 2 ^ 256 - 1) by done.
  assert (Hbig : 2000 < 2 ^ 256) by (by vm_compute).
  destruct op as [a|a|a|a|a]; simpl in *;
    unfold recordOnTimePayment, recordLatePayment, recordDefault,
      recordCircleCompletion, recordCircleJoin in Hc;
    rewrite ?ensureProfile_profile in Hc;
    unfold add256, sub256, ON_TIME_PAYMENT_BONUS, LATE_PAYMENT_PENALTY,
      DEFAULT_PENALTY, CIRCLE_COMPLETION_BONUS, MIN_CREDIT_SCORE in Hc;
    repeat match type of Hc with
    | context [?x <=? ?y] => destruct (N.leb_spec x y); simpl in Hc
    end; try discriminate; try lia.
Qed.

End RegistryFacts.

(** C6. For every sequence of ledger operations run on the freshly deployed
    registry and every address, the stored score and the score read by
    [getCreditScore] lie between 0 and 1000; a further operation that
    succeeds moves the score of its subject by the saturating adjustment
    ([min(s + 10, 1000)], [max(s - 20, 0)], [max(s - 100, 0)],
    [min(s + 15, 1000)], unchanged on a join), and one that reverts does so
    on its event counter, which has reached [2^256 - 1], never on the
    score. *)
Theorem credit_score_stays_within_bounds
    (ops : list CreditRegistry.Op) (a : address) (op : CreditRegistry.Op) :
  let st := CreditRegistry.run ops CreditRegistry.initial in
  (0 <= Z.of_N (CreditRegistry.creditScore (CreditRegistry.profileOf st a)) <= 1000)%Z
  /\ (0 <= Z.of_N (CreditRegistry.getCreditScore st a) <= 1000)%Z
  /\ (forall st', CreditRegistry.call op st = Ok st' ->
        Z.of_N (CreditRegistry.getCreditScore st' (subject op))
        = saturatingAdjustment op (Z.of_N (CreditRegistry.getCreditScore st (subject op))))
  /\ (forall msg, CreditRegistry.call op st = Revert msg ->
        MAX_UINT256 <= counterOf op (CreditRegistry.getCreditProfile st (subject op))).
Proof.
  intros st.
  assert (Hb : scoresBounded st)
    by apply scoresBounded_run, scoresBounded_initial.
  pose proof (Hb a). pose proof (getCreditScore_bounded st a Hb).
  repeat split; try lia.
  - intros st' Hc. rewrite (getCreditScore_after _ _ _ Hc).
    by apply call_Ok.
  - intros msg Hc. eauto using call_Revert.
Qed.

(** *** Rules of the weakest precondition *)

Section WpRules.
Context {A B : Type}.

Lemma wp_bind (m : M A) (k : A -> M B) (Q : B -> World -> Prop) w :
  wp m (fun a w' => wp (k a) Q w') w -> wp (bind m k) Q w.
Proof. unfold wp, bind. destruct (m w) as [[a w']|]; auto. Qed.

Lemma wp_ret (a : A) (Q : A -> World -> Prop) w : Q a w -> wp (ret a) Q w.
Proof. done. Qed.

Lemma wp_require b msg (Q : unit -> World -> Prop) w :
  (b = true -> Q tt w) -> wp (require b msg) Q w.
Proof. unfold wp, require. destruct b; auto. Qed.

Lemma wp_gets (f : World -> A) (Q : A -> World -> Prop) w :
  Q (f w) w -> wp (gets f) Q w.
Proof. done. Qed.

Lemma wp_modify f (Q : unit -> World -> Prop) w : Q tt (f w) -> wp (modify f) Q w.
Proof. done. Qed.

Lemma wp_lift (r : result A) (Q : A -> World -> Prop) w :
  (forall a, r = Ok a -> Q a w) -> wp (lift r) Q w.
Proof. unfold wp, lift. destruct r; auto. Qed.

Lemma wp_callRegistry f (Q : unit -> World -> Prop) w :
  (forall r, f (registry w) = Ok r -> Q tt (set_registry r w)) ->
  wp (callRegistry f) Q w.
Proof. unfold wp, callRegistry. destruct (f (registry w)); auto. Qed.

Lemma wp_conseq (m : M A) (Q Q' : A -> World -> Prop) w :
  wp m Q' w -> (forall a w', Q' a w' -> Q a w') -> wp m Q w.
Proof. unfold wp. destruct (m w) as [[a w']|]; auto. Qed.

Lemma wp_Ok (m : M A) (Q : A -> World -> Prop) w a w' :
  wp m Q w -> m w = Ok (a, w') -> Q a w'.
Proof. unfold wp. intros H E. by rewrite E in H. Qed.

Lemma wp_intro (m : M A) (Q : A -> World -> Prop) w :
  (forall a w', m w = Ok (a, w') -> Q a w') -> wp m Q w.
Proof. unfold wp. destruct (m w) as [[a w']|]; auto. Qed.

Lemma preserves_use (P : World -> Prop) (m : M A) (Q : A -> World -> Prop) w :
  preserves P m -> P w -> (forall a w', P w' -> Q a w') -> wp m Q w.
Proof. intros Hm HP HQ. eapply wp_conseq; [by apply Hm|]. auto. Qed.

End WpRules.

Lemma preserves_commit (P : World -> Prop) (m : M unit) w :
  preserves P m -> P w -> P (commit m w).
Proof.
  intros Hm HP. specialize (Hm w HP). unfold wp, commit in *.
  by destruct (m w) as [[[] w']|].
Qed.

Lemma wp_forEach {A} (P : World -> Prop) (l : list A) (body : A -> M unit) :
  (forall x, preserves P (body x)) -> preserves P (LendingCircle.forEach l body).
Proof.
  intros Hbody. induction l as [|x l IH]; intros w HP; simpl; [done|].
  apply wp_bind. eapply preserves_use; eauto.
Qed.

(** One step of symbolic execution.  [sub] handles the calls that are
    covered by a lemma of their own. *)
Ltac wp_prim :=
  lazymatch goal with
  | |- wp (bind _ _) _ _ => apply wp_bind
  | |- wp (ret _) _ _ => apply wp_ret
  | |- wp (require _ _) _ _ => apply wp_require; intros ?
  | |- wp (gets _) _ _ => apply wp_gets
  | |- wp getCircle _ _ => apply wp_gets
  | |- wp (lift _) _ _ => apply wp_lift; intros ? ?
  | |- wp (if ?b then _ else _) _ _ => destruct b eqn:?
  end; cbv beta.

(** Preservation of a property [P]: every write leaves the proof that [P]
    holds of the written world as a goal, and execution goes on from an
    arbitrary world with [P]. *)
Ltac pres_step P :=
  first
  [ wp_prim
  | lazymatch goal with
    | |- wp (modify ?f) _ ?w =>
        apply wp_modify;
        let Q := fresh "HP" in
        assert (Q : P (f w)); [| revert Q; generalize (f w); intros ? ?]
    | |- wp (putCircle ?c) _ ?w =>
        apply wp_modify;
        let Q := fresh "HP" in
        assert (Q : P (set_circle c w));
        [| revert Q; generalize (set_circle c w); intros ? ?]
    | |- wp (callRegistry ?f) _ ?w =>
        apply wp_callRegistry; intros ? ?; cbv beta;
        lazymatch goal with
        | |- context [set_registry ?r w] =>
            let Q := fresh "HP" in
            assert (Q : P (set_registry r w));
            [| revert Q; generalize (set_registry r w); intros ? ?]
        end
    | |- wp (LendingCircle.forEach ?l ?body) _ ?w =>
        apply (preserves_use P (LendingCircle.forEach l body));
        [ apply wp_forEach; intros ? ? ? | | intros ? ? ? ]
    | |- wp ?m _ ?w =>
        apply (preserves_use P m);
        [ solve [eauto with pres] | | intros ? ? ? ]
    end ];
  cbv beta.

(** A goal [P w'] follows from a hypothesis [P w] when [w'] and [w] agree
    on the component that [P] reads: [frame] proves
    [proj w' = proj w -> P w -> P w']. *)
Ltac frame_leaf P frame :=
  lazymatch goal with
  | |- P ?w' =>
      match goal with
      | HP : P ?w |- _ => apply (frame w w'); [reflexivity | exact HP]
      end
  end.

Ltac pres_go P leaf := repeat (pres_step P; try solve [leaf]).

Create HintDb pres.

(** *** ReservePool *)

Section ReserveFacts.
Import ReservePool.

Lemma constructor_balanced s : reserveBalanced (constructor s).
Proof. split; simpl; lia. Qed.

Lemma verifyCircle_balanced s c st st' :
  reserveBalanced st -> verifyCircle s c st = Ok st' -> reserveBalanced st'.
Proof. unfold verifyCircle. intros [Hle Heq] H. inv_result. by split. Qed.

Lemma revokeCircle_balanced s c st st' :
  reserveBalanced st -> revokeCircle s c st = Ok st' -> reserveBalanced st'.
Proof. unfold revokeCircle. intros [Hle Heq] H. inv_result. by split. Qed.

Lemma deposit_balanced s v st st' :
  reserveBalanced st -> deposit s v st = Ok st' -> reserveBalanced st'.
Proof. unfold deposit. intros [Hle Heq] H. inv_result. split; simpl; lia. Qed.

Lemma receive_balanced s v st st' :
  reserveBalanced st -> receive s v st = Ok st' -> reserveBalanced st'.
Proof. unfold receive. intros [Hle Heq] H. inv_result. split; simpl; lia. Qed.

Lemma withdraw_Ok s amount recipient st st' t :
  withdraw s amount recipient st = Ok (st', t) ->
  s ∈ verifiedCircles st /\ 0 < amount /\ recipient ≠ 0
  /\ amount <= currentBalance st
  /\ t = (recipient, amount)
  /\ st' = mkState (factory st) (verifiedCircles st) (totalDeposited st)
             (totalWithdrawn st + amount) (currentBalance st - amount).
Proof.
  unfold withdraw, onlyVerifiedCircle. intros H. inv_result.
  repeat match goal with
  | H : bool_decide _ = true |- _ => apply bool_decide_eq_true in H
  | H : negb _ = true |- _ => apply negb_true_iff in H
  | H : (_ <? _) = true |- _ => apply N.ltb_lt in H
  | H : (_ <=? _) = true |- _ => apply N.leb_le in H
  | H : (_ =? _) = false |- _ => apply N.eqb_neq in H
  end.
  repeat split; auto.
Qed.

Lemma withdraw_balanced s amount recipient st st' t :
  reserveBalanced st -> withdraw s amount recipient st = Ok (st', t) ->
  reserveBalanced st'.
Proof.
  intros [Hle Heq] (_ & _ & _ & ? & _ & ->)%withdraw_Ok. split; simpl; lia.
Qed.

(** A withdrawal of more than the balance of the pool reverts. *)
Lemma withdraw_insufficient s amount recipient st :
  currentBalance st < amount ->
  exists msg, withdraw s amount recipient st = Revert msg.
Proof.
  intros Hlt. destruct (withdraw s amount recipient st) as [[st' t]|msg] eqn:H;
    [|eauto].
  apply withdraw_Ok in H as (_ & _ & _ & ? & _). lia.
Qed.

(** Only verified circles pass the three entry points that move funds. *)
Lemma unverified_rejected s st :
  s ∉ verifiedCircles st ->
  (forall v, deposit s v st = Revert "ReservePool: Only verified circles can withdraw")
  /\ (forall amount recipient,
        withdraw s amount recipient st
        = Revert "ReservePool: Only verified circles can withdraw")
  /\ (forall v, receive s v st = Revert "ReservePool: Only verified circles can deposit").
Proof.
  intros Hs. unfold deposit, withdraw, receive, onlyVerifiedCircle.
  rewrite bool_decide_false by done. done.
Qed.

End ReserveFacts.

(** The pool stays balanced through every computation of the model. *)
Section ReserveInvariant.
Import Circle LendingCircle.

Lemma reserveOK_frame w w' : reserve w' = reserve w -> reserveOK w -> reserveOK w'.
Proof. unfold reserveOK. by intros ->. Qed.

Ltac reserve_leaf := idtac; frame_leaf reserveOK reserveOK_frame.

Lemma receiveHook_reserveOK from to v w w' :
  reserveOK w -> receiveHook from to v w = Ok w' -> reserveOK w'.
Proof.
  unfold receiveHook. intros HP H.
  repeat case_bool_decide; inv_result; try exact HP.
  unfold reserveOK; simpl. eapply receive_balanced; [exact HP | eassumption].
Qed.

Lemma call_value_reserveOK from to v : preserves reserveOK (call_value from to v).
Proof.
  intros w HP. unfold wp, call_value.
  destruct (balanceOf w from <? v); [exact HP|].
  destruct (receiveHook _ _ _ _) eqn:H; [|exact HP].
  eapply receiveHook_reserveOK; [|exact H]. exact HP.
Qed.

Lemma payable_reserveOK s to v : preserves reserveOK (payable s to v).
Proof.
  intros w HP. unfold wp, payable. destruct (balanceOf w s <? v); [done|exact HP].
Qed.

Hint Resolve call_value_reserveOK payable_reserveOK : pres.

Lemma withdrawFromReserve_reserveOK s amount recipient :
  preserves reserveOK (withdrawFromReserve s amount recipient).
Proof.
  intros w HP. unfold withdrawFromReserve.
  pres_go reserveOK reserve_leaf.
  destruct a as [st' t]. unfold reserveOK; simpl.
  eapply withdraw_balanced; [exact HP | eassumption].
Qed.

Lemma depositToReserve_reserveOK s v : preserves reserveOK (depositToReserve s v).
Proof.
  intros w HP. unfold depositToReserve.
  pres_go reserveOK reserve_leaf.
  unfold reserveOK; simpl. eapply deposit_balanced; [|eassumption].
  assumption.
Qed.

Lemma send_reserveOK s to v : preserves reserveOK (send s to v).
Proof. intros w HP. unfold send. pres_go reserveOK reserve_leaf. Qed.

Lemma callRegistry_reserveOK f : preserves reserveOK (callRegistry f).
Proof. intros w HP. pres_go reserveOK reserve_leaf. Qed.

Hint Resolve withdrawFromReserve_reserveOK depositToReserve_reserveOK
  send_reserveOK callRegistry_reserveOK : pres.

Lemma activateCircle_reserveOK : preserves reserveOK _activateCircle.
Proof. intros w HP. unfold _activateCircle. pres_go reserveOK reserve_leaf. Qed.

Lemma completeCircle_reserveOK : preserves reserveOK _completeCircle.
Proof. intros w HP. unfold _completeCircle. pres_go reserveOK reserve_leaf. Qed.

Lemma distributeExcess_reserveOK month : preserves reserveOK (_distributeExcess month).
Proof. intros w HP. unfold _distributeExcess. pres_go reserveOK reserve_leaf. Qed.

Hint Resolve activateCircle_reserveOK completeCircle_reserveOK
  distributeExcess_reserveOK : pres.

Lemma exec_reserveOK now tx : preserves reserveOK (exec now tx).
Proof.
  intros w HP.
  destruct tx; simpl;
    unfold requestToJoin, approveParticipant, rejectParticipant, makeContribution,
      proposePayout, vote, executePayout, recordLatePayment, recordDefault,
      withdrawExcess, liftReserve, nonReentrant, onlyCoordinator,
      onlyActiveParticipant, onlyActiveCircle;
    pres_go reserveOK reserve_leaf;
    unfold reserveOK; simpl;
    eauto using verifyCircle_balanced, revokeCircle_balanced.
Qed.

Lemma transact_reserveOK now tx w : reserveOK w -> reserveOK (transact now tx w).
Proof.
  intros HP.
  apply (preserves_commit reserveOK (exec now tx) w); [apply exec_reserveOK | exact HP].
Qed.

Lemma runTrace_reserveOK tr w : reserveOK w -> reserveOK (runTrace tr w).
Proof.
  revert w. induction tr as [|[now tx] tr IH]; intros w HP; simpl; [done|].
  apply IH, transact_reserveOK, HP.
Qed.

End ReserveInvariant.

(** C7. Along every history of transactions (deposits, withdrawals, plain
    receipts, and the calls of a circle that reach the pool), a pool that
    starts balanced stays balanced:
    [currentBalance = totalDeposited - totalWithdrawn] with
    [totalWithdrawn <= totalDeposited]; a withdrawal of more than
    [currentBalance] reverts, a successful one takes exactly its amount out
    of a balance that covers it; and [deposit], [withdraw] and [receive]
    revert for a sender that is not a verified circle. *)
Theorem reserve_accounting_invariant (w : World) (tr : list (N * Tx)) :
  reserveBalanced (reserve w) ->
  let st := reserve (runTrace tr w) in
  reserveBalanced st
  /\ (forall s amount recipient,
        ReservePool.currentBalance st < amount ->
        exists msg, ReservePool.withdraw s amount recipient st = Revert msg)
  /\ (forall s amount recipient st' t,
        ReservePool.withdraw s amount recipient st = Ok (st', t) ->
        amount <= ReservePool.currentBalance st
        /\ ReservePool.currentBalance st' = ReservePool.currentBalance st - amount
        /\ reserveBalanced st')
  /\ (forall s, s ∉ ReservePool.verifiedCircles st ->
        (forall v, exists msg, ReservePool.deposit s v st = Revert msg)
        /\ (forall amount recipient,
              exists msg, ReservePool.withdraw s amount recipient st = Revert msg)
        /\ (forall v, exists msg, ReservePool.receive s v st = Revert msg)).
Proof.
  intros Hw st.
  assert (Hst : reserveBalanced st) by (by apply runTrace_reserveOK).
  split; [exact Hst|]. split; [|split].
  - intros s amount recipient Hlt. by apply withdraw_insufficient.
  - intros s amount recipient st' t H.
    pose proof (withdraw_balanced _ _ _ _ _ _ Hst H).
    apply withdraw_Ok in H as (_ & _ & _ & ? & _ & ->). simpl. auto.
  - intros s Hs. destruct (unverified_rejected s st Hs) as (Hd & Hw' & Hr).
    repeat split; intros; eauto.
Qed.

Lemma reserve_accounting_invariant_witness :
  reserveBalanced (reserve (Scenario.deployed 10))
  /\ ReservePool.currentBalance
       (reserve (runTrace reserveHistory (Scenario.deployed 10))) = 2
  /\ reserveBalanced (reserve (runTrace reserveHistory (Scenario.deployed 10))).
Proof.
  assert (H : reserveBalanced (reserve (Scenario.deployed 10)))
    by (split; vm_compute; [discriminate | reflexivity]).
  split; [exact H|]. split; [by vm_compute|].
  exact (proj1 (reserve_accounting_invariant (Scenario.deployed 10) reserveHistory H)).
Defined.

(** *** Defaults are permanent *)

Section DefaultsPersist.
Import Circle LendingCircle.

Lemma call_keeps_default op st st' p :
  CreditRegistry.call op st = Ok st' ->
  CreditRegistry.hasDefaulted (CreditRegistry.getCreditProfile st p) = true ->
  CreditRegistry.hasDefaulted (CreditRegistry.getCreditProfile st' p) = true.
Proof.
  intros (Hp & Hother & _ & Hflag)%call_Ok.
  unfold CreditRegistry.getCreditProfile at 2. rewrite Hp.
  destruct (decide (p = subject op)) as [->|Hne].
  - intros Hold. rewrite bool_decide_true by set_solver.
    rewrite Hflag, Hold. done.
  - unfold CreditRegistry.getCreditProfile.
    case_bool_decide as Hin; [|discriminate].
    intros Hold. rewrite bool_decide_true by set_solver.
    by rewrite Hother.
Qed.

(** After a successful [recordDefault] the flag reads [true]. *)
Lemma recordDefault_sets_flag p st st' :
  CreditRegistry.recordDefault p st = Ok st' ->
  CreditRegistry.hasDefaulted (CreditRegistry.getCreditProfile st' p) = true.
Proof.
  intros H. pose proof (call_Ok (CreditRegistry.Default p) st st' H)
    as (Hp & _ & _ & Hflag).
  simpl in *. unfold CreditRegistry.getCreditProfile.
  rewrite bool_decide_true by set_solver.
  rewrite Hflag. apply orb_true_r.
Qed.

Lemma ledgerDefaulted_frame p w w' :
  registry w' = registry w -> ledgerDefaulted p w -> ledgerDefaulted p w'.
Proof. unfold ledgerDefaulted. by intros ->. Qed.

Lemma ledgerDefaulted_call p op w r :
  CreditRegistry.call op (registry w) = Ok r ->
  ledgerDefaulted p w -> ledgerDefaulted p (set_registry r w).
Proof. unfold ledgerDefaulted; simpl. apply call_keeps_default. Qed.

Ltac ledger_leaf p :=
  idtac;
  first
  [ frame_leaf (ledgerDefaulted p) (ledgerDefaulted_frame p)
  | lazymatch goal with
    | |- ledgerDefaulted p (set_registry ?r ?w) =>
        lazymatch goal with
        | H : _ = Ok r, HP : ledgerDefaulted p w |- _ =>
            first
            [ exact (ledgerDefaulted_call p _ w r H HP)
            | exact (ledgerDefaulted_call p (CreditRegistry.OnTimePayment _) w r H HP)
            | exact (ledgerDefaulted_call p (CreditRegistry.LatePayment _) w r H HP)
            | exact (ledgerDefaulted_call p (CreditRegistry.Default _) w r H HP)
            | exact (ledgerDefaulted_call p (CreditRegistry.CircleCompletion _) w r H HP)
            | exact (ledgerDefaulted_call p (CreditRegistry.CircleJoin _) w r H HP) ]
        end
    end ].

Section Ledger.
Variable p : address.

Lemma receiveHook_ledger from to v w w' :
  ledgerDefaulted p w -> receiveHook from to v w = Ok w' -> ledgerDefaulted p w'.
Proof.
  unfold receiveHook. intros HP H.
  repeat case_bool_decide; inv_result;
    (eapply ledgerDefaulted_frame; [|exact HP]); reflexivity.
Qed.

Lemma call_value_ledger from to v : preserves (ledgerDefaulted p) (call_value from to v).
Proof.
  intros w HP. unfold wp, call_value.
  destruct (balanceOf w from <? v); [exact HP|].
  destruct (receiveHook _ _ _ _) eqn:H; [|exact HP].
  eapply receiveHook_ledger; [|exact H]. exact HP.
Qed.

Lemma payable_ledger s to v : preserves (ledgerDefaulted p) (payable s to v).
Proof.
  intros w HP. unfold wp, payable.
  destruct (balanceOf w s <? v); [done|exact HP].
Qed.

Hint Resolve call_value_ledger payable_ledger : pres.

Lemma withdrawFromReserve_ledger s amount recipient :
  preserves (ledgerDefaulted p) (withdrawFromReserve s amount recipient).
Proof.
  intros w HP. unfold withdrawFromReserve.
  pres_go (ledgerDefaulted p) ltac:(ledger_leaf p).
Qed.

Lemma depositToReserve_ledger s v :
  preserves (ledgerDefaulted p) (depositToReserve s v).
Proof.
  intros w HP. unfold depositToReserve.
  pres_go (ledgerDefaulted p) ltac:(ledger_leaf p).
Qed.

Lemma send_ledger s to v : preserves (ledgerDefaulted p) (send s to v).
Proof. intros w HP. unfold send. pres_go (ledgerDefaulted p) ltac:(ledger_leaf p). Qed.

Hint Resolve withdrawFromReserve_ledger depositToReserve_ledger send_ledger : pres.

Lemma activateCircle_ledger : preserves (ledgerDefaulted p) _activateCircle.
Proof.
  intros w HP. unfold _activateCircle.
  pres_go (ledgerDefaulted p) ltac:(ledger_leaf p).
Qed.

Lemma completeCircle_ledger : preserves (ledgerDefaulted p) _completeCircle.
Proof.
  intros w HP. unfold _completeCircle.
  pres_go (ledgerDefaulted p) ltac:(ledger_leaf p).
Qed.

Lemma distributeExcess_ledger month :
  preserves (ledgerDefaulted p) (_distributeExcess month).
Proof.
  intros w HP. unfold _distributeExcess.
  pres_go (ledgerDefaulted p) ltac:(ledger_leaf p).
Qed.

Hint Resolve activateCircle_ledger completeCircle_ledger
  distributeExcess_ledger : pres.

Lemma exec_ledger now tx : preserves (ledgerDefaulted p) (exec now tx).
Proof.
  intros w HP.
  destruct tx; simpl;
    unfold requestToJoin, approveParticipant, rejectParticipant, makeContribution,
      proposePayout, vote, executePayout, recordLatePayment, recordDefault,
      withdrawExcess, liftReserve, nonReentrant, onlyCoordinator,
      onlyActiveParticipant, onlyActiveCircle;
    pres_go (ledgerDefaulted p) ltac:(ledger_leaf p).
Qed.

Lemma transact_ledger now tx w :
  ledgerDefaulted p w -> ledgerDefaulted p (transact now tx w).
Proof.
  intros HP. apply (preserves_commit (ledgerDefaulted p) (exec now tx) w);
    [apply exec_ledger | exact HP].
Qed.

Lemma runTrace_ledger tr w : ledgerDefaulted p w -> ledgerDefaulted p (runTrace tr w).
Proof.
  revert w. induction tr as [|[now tx] tr IH]; intros w HP; simpl; [done|].
  apply IH, transact_ledger, HP.
Qed.
End Ledger.

Lemma defaultKept_frame ps w w' :
  circle w' = circle w -> defaultKept ps w -> defaultKept ps w'.
Proof. unfold defaultKept, defaultsAreActive, inDefault. by intros ->. Qed.

(** Writing a circle state whose flags extend those of the current one. *)
Lemma defaultKept_update ps w c' :
  defaultKept ps w ->
  (forall a,
      (isInDefault (participantOf (circle w) a) = true ->
       isActive (participantOf (circle w) a) = true) ->
      (isInDefault (participantOf c' a) = true ->
       isActive (participantOf c' a) = true)
      /\ (isInDefault (participantOf (circle w) a) = true ->
          isInDefault (participantOf c' a) = true)) ->
  defaultKept ps (set_circle c' w).
Proof.
  intros [Hinv Hps] Hc. split.
  - intros a. simpl. apply Hc, Hinv.
  - eapply Forall_impl; [exact Hps|]. intros a Ha. unfold inDefault in *; simpl.
    by apply Hc; [apply Hinv|].
Qed.

Lemma participantOf_set_participant b p c a :
  participantOf (set_participant b p c) a
  = if decide (a = b) then p else participantOf c a.
Proof.
  unfold participantOf, set_participant; simpl.
  destruct (decide (a = b)) as [->|Hne];
    [apply lookup_total_insert_eq | by apply lookup_total_insert_ne].
Qed.

Ltac bool_hyps :=
  repeat match goal with
  | H : negb _ = true |- _ => apply negb_true_iff in H
  | H : _ && _ = true |- _ => apply andb_true_iff in H as [? ?]
  end.

(** The flags of the circle state written by [putCircle]. *)
Ltac flags_leaf ps :=
  idtac;
  first
  [ frame_leaf (defaultKept ps) (defaultKept_frame ps)
  | lazymatch goal with
    | |- defaultKept ps (set_circle ?c ?w) =>
        lazymatch goal with
        | HP : defaultKept ps w |- _ =>
            apply (defaultKept_update ps w c HP);
            let a := fresh "a" in let Hinv := fresh "Hinv" in
            intros a Hinv;
            repeat first
              [ rewrite participantOf_set_participant
              | progress change (participantOf (set_status ?v ?x) a)
                  with (participantOf x a)
              | progress change (participantOf (set_currentMonth ?v ?x) a)
                  with (participantOf x a)
              | progress change (participantOf (set_totalParticipants ?v ?x) a)
                  with (participantOf x a)
              | progress change (participantOf (set_poolBalance ?v ?x) a)
                  with (participantOf x a)
              | progress change (participantOf (set_totalReserveDeposited ?v ?x) a)
                  with (participantOf x a)
              | progress change (participantOf (set_participantList ?v ?x) a)
                  with (participantOf x a)
              | progress change (participantOf (set_payoutProposals ?v ?x) a)
                  with (participantOf x a)
              | progress change (participantOf (set_proposal ?m ?v ?x) a)
                  with (participantOf x a)
              | progress change (participantOf (set_locked ?v ?x) a)
                  with (participantOf x a) ];
            try (destruct (decide (a = _)) as [->|?]);
            bool_hyps; simpl in *;
            split; intros; try congruence; auto;
            try solve
              [ match goal with
                | Hi : ?A -> _, Ha : ?A |- _ => specialize (Hi Ha); congruence
                end ]
        end
    end ].

Section Flags.
Variable ps : list address.

Lemma receiveHook_flags from to v w w' :
  defaultKept ps w -> receiveHook from to v w = Ok w' -> defaultKept ps w'.
Proof.
  unfold receiveHook, Circle.receive. intros HP H.
  repeat case_bool_decide; inv_result; flags_leaf ps.
Qed.

Lemma call_value_flags from to v : preserves (defaultKept ps) (call_value from to v).
Proof.
  intros w HP. unfold wp, call_value.
  destruct (balanceOf w from <? v); [exact HP|].
  destruct (receiveHook _ _ _ _) eqn:H; [|exact HP].
  eapply receiveHook_flags; [|exact H].
  eapply defaultKept_frame; [|exact HP]. reflexivity.
Qed.

Lemma payable_flags s to v : preserves (defaultKept ps) (payable s to v).
Proof.
  intros w HP. unfold wp, payable.
  destruct (balanceOf w s <? v); [done|].
  eapply defaultKept_frame; [|exact HP]. reflexivity.
Qed.

Hint Resolve call_value_flags payable_flags : pres.

Lemma withdrawFromReserve_flags s amount recipient :
  preserves (defaultKept ps) (withdrawFromReserve s amount recipient).
Proof.
  intros w HP. unfold withdrawFromReserve.
  pres_go (defaultKept ps) ltac:(flags_leaf ps).
Qed.

Lemma depositToReserve_flags s v : preserves (defaultKept ps) (depositToReserve s v).
Proof.
  intros w HP. unfold depositToReserve.
  pres_go (defaultKept ps) ltac:(flags_leaf ps).
Qed.

Lemma send_flags s to v : preserves (defaultKept ps) (send s to v).
Proof. intros w HP. unfold send. pres_go (defaultKept ps) ltac:(flags_leaf ps). Qed.

Hint Resolve withdrawFromReserve_flags depositToReserve_flags send_flags : pres.

Lemma activateCircle_flags : preserves (defaultKept ps) _activateCircle.
Proof.
  intros w HP. unfold _activateCircle.
  pres_go (defaultKept ps) ltac:(flags_leaf ps).
Qed.

Lemma completeCircle_flags : preserves (defaultKept ps) _completeCircle.
Proof.
  intros w HP. unfold _completeCircle.
  pres_go (defaultKept ps) ltac:(flags_leaf ps).
Qed.

Lemma distributeExcess_flags month :
  preserves (defaultKept ps) (_distributeExcess month).
Proof.
  intros w HP. unfold _distributeExcess.
  pres_go (defaultKept ps) ltac:(flags_leaf ps).
Qed.

Hint Resolve activateCircle_flags completeCircle_flags distributeExcess_flags : pres.

Lemma exec_flags now tx : preserves (defaultKept ps) (exec now tx).
Proof.
  intros w HP.
  destruct tx; simpl;
    unfold requestToJoin, approveParticipant, rejectParticipant, makeContribution,
      proposePayout, vote, executePayout, recordLatePayment, recordDefault,
      withdrawExcess, liftReserve, nonReentrant, onlyCoordinator,
      onlyActiveParticipant, onlyActiveCircle;
    pres_go (defaultKept ps) ltac:(flags_leaf ps).
Qed.

Lemma transact_flags now tx w : defaultKept ps w -> defaultKept ps (transact now tx w).
Proof.
  intros HP. apply (preserves_commit (defaultKept ps) (exec now tx) w);
    [apply exec_flags | exact HP].
Qed.

Lemma runTrace_flags tr w : defaultKept ps w -> defaultKept ps (runTrace tr w).
Proof.
  revert w. induction tr as [|[now tx] tr IH]; intros w HP; simpl; [done|].
  apply IH, transact_flags, HP.
Qed.
End Flags.

End DefaultsPersist.

(** *** Inversion of successful runs *)

Section Inversion.
Context {A B : Type}.

Lemma bind_Ok (m : M A) (k : A -> M B) w b w' :
  bind m k w = Ok (b, w') ->
  exists a w1, m w = Ok (a, w1) /\ k a w1 = Ok (b, w').
Proof. unfold bind. destruct (m w) as [[a w1]|]; [eauto | discriminate]. Qed.

Lemma ret_Ok (a b : A) w w' : ret a w = Ok (b, w') -> b = a /\ w' = w.
Proof. by intros [= -> ->]. Qed.

Lemma require_Ok b msg u w w' : require b msg w = Ok (u, w') -> b = true /\ w' = w.
Proof. unfold require. destruct b; [by intros [= _ ->] | discriminate]. Qed.

Lemma gets_Ok (f : World -> A) a w w' : gets f w = Ok (a, w') -> a = f w /\ w' = w.
Proof. by intros [= <- <-]. Qed.

Lemma modify_Ok f u w w' : modify f w = Ok (u, w') -> w' = f w.
Proof. by intros [= _ <-]. Qed.

Lemma lift_Ok (r : result A) a w w' : lift r w = Ok (a, w') -> r = Ok a /\ w' = w.
Proof. unfold lift. destruct r; [by intros [= -> ->] | discriminate]. Qed.

Lemma callRegistry_Ok f u w w' :
  callRegistry f w = Ok (u, w') ->
  exists r, f (registry w) = Ok r /\ w' = set_registry r w.
Proof.
  unfold callRegistry. destruct (f (registry w)) as [r|]; [|discriminate].
  intros [= _ <-]. eauto.
Qed.

Lemma call_value_true from to v w w' :
  call_value from to v w = Ok (true, w') ->
  v <= balanceOf w from /\ receiveHook from to v (moveValue from to v w) = Ok w'.
Proof.
  unfold call_value. destruct (N.ltb_spec (balanceOf w from) v); [discriminate|].
  destruct (receiveHook _ _ _ _); [|discriminate]. by intros [= <-].
Qed.

End Inversion.

(** Decomposing a successful run into the runs of its steps. *)
Ltac inv_M :=
  repeat match goal with
  | H : bind _ _ _ = Ok _ |- _ =>
      let a := fresh "a" in let w := fresh "w" in let Ha := fresh "Ha" in
      apply bind_Ok in H as (a & w & Ha & H)
  | H : ret _ _ = Ok _ |- _ =>
      apply ret_Ok in H as [H ->];
      match type of H with
      | ?x = _ => first [is_var x; subst x | clear H]
      end
  | H : require ?b _ _ = Ok _ |- _ =>
      apply require_Ok in H as [H ->]; try (is_var b; subst b)
  | H : gets _ _ = Ok _ |- _ => apply gets_Ok in H as [-> ->]
  | H : getCircle _ = Ok _ |- _ => apply gets_Ok in H as [-> ->]
  | H : modify _ _ = Ok _ |- _ => apply modify_Ok in H as ->
  | H : putCircle _ _ = Ok _ |- _ => apply modify_Ok in H as ->
  | H : lift _ _ = Ok _ |- _ => apply lift_Ok in H as [H ->]
  | H : callRegistry _ _ = Ok _ |- _ =>
      let r := fresh "r" in let Hr := fresh "Hr" in
      apply callRegistry_Ok in H as (r & Hr & ->)
  | H : call_value _ _ _ _ = Ok (true, _) |- _ =>
      let Hb := fresh "Hb" in apply call_value_true in H as [Hb H]
  | H : (if ?b then _ else _) _ = Ok _ |- _ => destruct b eqn:?
  | H : add256 _ _ = Ok _ |- _ => apply add256_Ok in H as [-> ?]
  | H : sub256 _ _ = Ok _ |- _ => apply sub256_Ok in H as [-> ?]
  | H : mul256 _ _ = Ok _ |- _ => apply mul256_Ok in H as [-> ?]
  | u : unit |- _ => destruct u
  end.

(** *** Value transfers and the sub-operations of a payout *)

Section Transfers.
Import Circle LendingCircle.

Lemma circle_moveValue from to v w : circle (moveValue from to v w) = circle w.
Proof. done. Qed.

Lemma registry_moveValue from to v w : registry (moveValue from to v w) = registry w.
Proof. done. Qed.

Lemma reserve_moveValue from to v w : reserve (moveValue from to v w) = reserve w.
Proof. done. Qed.

Lemma balanceOf_moveValue from to v w a :
  balanceOf (moveValue from to v w) a
  = if decide (a = to)
    then (if decide (to = from) then balanceOf w from - v else balanceOf w to) + v
    else if decide (a = from) then balanceOf w from - v else balanceOf w a.
Proof.
  unfold balanceOf, moveValue; simpl.
  destruct (decide (a = to)) as [->|Hat].
  - rewrite lookup_insert_eq; simpl.
    destruct (decide (to = from)) as [->|Htf].
    + by rewrite lookup_insert_eq.
    + by rewrite lookup_insert_ne.
  - rewrite lookup_insert_ne by done.
    destruct (decide (a = from)) as [->|Haf].
    + by rewrite lookup_insert_eq.
    + by rewrite lookup_insert_ne.
Qed.

Lemma balanceOf_frame w w' a : balances w' = balances w -> balanceOf w' a = balanceOf w a.
Proof. unfold balanceOf. by intros ->. Qed.

Lemma set_circle_circle w : set_circle (circle w) w = w.
Proof. by destruct w. Qed.

Lemma receiveHook_circle from v w w' :
  receiveHook from (circleAddress w) v w = Ok w' ->
  w' = set_circle (set_poolBalance (poolBalance (circle w) + v) (circle w)) w.
Proof.
  unfold receiveHook, Circle.receive. rewrite bool_decide_true by done.
  intros H. inv_result. done.
Qed.

Lemma receiveHook_account from to v w w' :
  to ≠ circleAddress w -> to ≠ reserveAddress w ->
  receiveHook from to v w = Ok w' -> w' = w.
Proof.
  unfold receiveHook. intros H1 H2.
  rewrite !bool_decide_false by done.
  case_bool_decide; [discriminate|]. by intros [= <-].
Qed.

Lemma nonReentrant_Ok body w w' :
  nonReentrant body w = Ok (tt, w') ->
  _locked (circle w) = false
  /\ exists w1, body (set_circle (set_locked true (circle w)) w) = Ok (tt, w1)
                /\ w' = set_circle (set_locked false (circle w1)) w1.
Proof.
  unfold nonReentrant. intros H. inv_M.
  match goal with Hl : negb _ = true |- _ => apply negb_true_iff in Hl end.
  split; [done|]. eauto.
Qed.

(** The circle borrows [amount] from the pool for itself: the books of the
    pool move by [amount], the value moves from the pool to the circle,
    and the [receive] function of the circle books it into [poolBalance]. *)
Lemma withdrawFromReserve_self amount w w' :
  withdrawFromReserve (circleAddress w) amount (circleAddress w) w = Ok (tt, w') ->
  circleAddress w ∈ ReservePool.verifiedCircles (reserve w)
  /\ 0 < amount
  /\ amount <= ReservePool.currentBalance (reserve w)
  /\ amount <= balanceOf w (reserveAddress w)
  /\ w' = set_circle
            (set_poolBalance (poolBalance (circle w) + amount) (circle w))
            (moveValue (reserveAddress w) (circleAddress w) amount
               (set_reserve
                  (ReservePool.mkState
                     (ReservePool.factory (reserve w))
                     (ReservePool.verifiedCircles (reserve w))
                     (ReservePool.totalDeposited (reserve w))
                     (ReservePool.totalWithdrawn (reserve w) + amount)
                     (ReservePool.currentBalance (reserve w) - amount)) w)).
Proof.
  unfold withdrawFromReserve. intros H. inv_M.
  destruct a0 as [st' t].
  apply withdraw_Ok in Ha0 as (Hv & Hpos & _ & Hle & -> & ->).
  cbn [fst snd] in *.
  apply (receiveHook_circle (reserveAddress w) amount
           (moveValue (reserveAddress w) (circleAddress w) amount (set_reserve _ w)))
    in Ha3.
  done.
Qed.

(** [forEach] over calls into the registry changes the registry only. *)
Lemma forEach_registry_only (l : list address) (body : address -> M unit) w w' :
  (forall a w1 w2, body a w1 = Ok (tt, w2) -> exists r, w2 = set_registry r w1) ->
  forEach l body w = Ok (tt, w') -> exists r, w' = set_registry r w.
Proof.
  intros Hbody. revert w. induction l as [|a l IH]; intros w H; simpl in H.
  - inv_M. exists (registry w). by destruct w.
  - inv_M.
    match goal with Hb : body _ _ = Ok _ |- _ => apply Hbody in Hb as [r ->] end.
    apply IH in H as [r' ->]. by exists r'.
Qed.

Lemma completeCircle_Ok w w' :
  _completeCircle w = Ok (tt, w') ->
  exists r, w' = set_registry r (set_circle (set_status COMPLETED (circle w)) w).
Proof.
  unfold _completeCircle. intros H. inv_M.
  eapply forEach_registry_only in H; [exact H|].
  intros a w1 w2 Hb. inv_M.
  - eauto.
  - match goal with
    | |- exists r, ?x = set_registry r ?x => exists (registry x); by destruct x
    end.
Qed.

(** The loop of [_distributeExcess] computes [creditAll]. *)
Lemma forEach_credit per (l : list address) w w' :
  forEach l (fun a =>
    let! c' := getCircle in
    if eligible c' a then
      let! wb := lift (add256 (withdrawableBalance (participantOf c' a)) per) in
      putCircle (set_participant a (set_withdrawableBalance wb (participantOf c' a)) c')
    else ret tt) w = Ok (tt, w') ->
  w' = set_circle (creditAll per l (circle w)) w.
Proof.
  revert w. induction l as [|a l IH]; intros w H; simpl in H.
  - inv_M. cbn [creditAll foldl]. by rewrite set_circle_circle.
  - inv_M; apply IH in H; subst w';
      cbn [circle set_circle creditAll foldl]; unfold creditEntry;
      match goal with Hb : eligible _ _ = _ |- _ => by rewrite Hb end.
Qed.

Lemma creditAll_poolBalance per l c : poolBalance (creditAll per l c) = poolBalance c.
Proof.
  unfold creditAll. revert c. induction l as [|a l IH]; intros c; simpl; [done|].
  rewrite IH. unfold creditEntry. by destruct (eligible c a).
Qed.

Lemma distributeExcess_Ok month w w' :
  _distributeExcess month w = Ok (tt, w') ->
  let c := circle w in
  let n := _getActiveParticipantCount w in
  if (n =? 0) || (poolBalance c <=? expectedPool w) then w' = w
  else w' = set_circle
              (set_poolBalance (expectedPool w)
                 (creditAll ((poolBalance c - expectedPool w) / n)
                    (participantList c) c)) w.
Proof.
  intros H. cbv zeta. unfold _distributeExcess in H.
  unfold expectedPool, expectedShare.
  inv_M; cbn [orb]; [done| |].
  - match goal with
    | Hlt : (_ <? _) = true |- _ =>
        apply N.ltb_lt in Hlt; rewrite (proj2 (N.leb_gt _ _) Hlt)
    end.
    match goal with
    | H : forEach _ _ _ = Ok _ |- _ => apply forEach_credit in H; subst
    end.
    cbn [circle set_circle]. rewrite creditAll_poolBalance.
    assert (Hsub : forall a b : N, b <= a -> a - (a - b) = b) by (intros; lia).
    by rewrite Hsub.
  - match goal with
    | Hge : (_ <? _) = false |- _ =>
        apply N.ltb_ge in Hge; by rewrite (proj2 (N.leb_le _ _) Hge)
    end.
Qed.

End Transfers.

(** *** What a successful [executePayout] does *)

Section PayoutFacts.
Import Circle LendingCircle.

Lemma executePayout_Ok month now w w' :
  executePayout month now w = Ok (tt, w') ->
  let c := circle w in
  let r := _selectWinner month w in
  let amount := expectedPool w in
  let wl := set_circle (set_locked true c) w in
  (status c = ACTIVE /\ _locked c = false
   /\ 0 < endTime (proposalOf c month) <= now
   /\ executed (proposalOf c month) = false
   /\ month = currentMonth c
   /\ r ≠ 0
   /\ isActive (participantOf c r) = true
   /\ hasReceivedPayout (participantOf c r) = false
   /\ isInDefault (participantOf c r) = false
   /\ reservePercentage c <= 100)
  /\ exists w2 w3 reg w5 reg',
      (if poolBalance c <? amount
       then circleAddress w ∈ ReservePool.verifiedCircles (reserve w)
            /\ amount - poolBalance c <= ReservePool.currentBalance (reserve w)
            /\ amount - poolBalance c <= balanceOf w (reserveAddress w)
            /\ w2 = afterBorrow (amount - poolBalance c) wl
       else w2 = wl)
      /\ amount <= poolBalance (circle w2)
      /\ amount <= balanceOf w2 (circleAddress w)
      /\ receiveHook (circleAddress w) r amount
           (moveValue (circleAddress w) r amount
              (set_circle (markPaid r amount month (circle w2)) w2)) = Ok w3
      /\ CreditRegistry.recordOnTimePayment r (registry w3) = Ok reg
      /\ _distributeExcess month (set_registry reg w3) = Ok (tt, w5)
      /\ w' = set_registry reg' (set_circle (advanceMonth (circle w5)) w5).
Proof.
  intros H. cbv zeta. unfold executePayout in H.
  apply nonReentrant_Ok in H as (Hlock & w1 & H & ->).
  unfold onlyActiveCircle in H.
  set (wl := set_circle (set_locked true (circle w)) w) in *.
  assert (Hcl : circle wl = set_locked true (circle w)) by done.
  assert (Hsel : _selectWinner month wl = _selectWinner month w) by done.
  assert (Hcnt : _getActiveParticipantCount wl = _getActiveParticipantCount w) by done.
  assert (Hthis : circleAddress wl = circleAddress w) by done.
  assert (Hbal : forall a, balanceOf wl a = balanceOf w a) by done.
  assert (Hres : reserve wl = reserve w) by done.
  assert (Hpool : reserveAddress wl = reserveAddress w) by done.
  clearbody wl.
  set (r := _selectWinner month w) in *.
  assert (Hamount : forall pct,
             pct = 100 - reservePercentage (circle w) ->
             monthlyContribution (circle w) * pct / 100
             * _getActiveParticipantCount w = expectedPool w) by (by intros ? ->).
  set (amount := expectedPool w) in *.
  clearbody amount r.
  inv_M;
    rewrite ?Hcl, ?Hsel, ?Hcnt, ?Hthis in *;
    cbn [status _locked poolBalance monthlyContribution reservePercentage
         currentMonth payoutProposals participants set_locked proposalOf
         participantOf] in *;
    rewrite ?(Hamount _ eq_refl) in *;
    repeat match goal with
    | H : bool_decide _ = true |- _ => apply bool_decide_eq_true in H
    | H : negb _ = true |- _ => apply negb_true_iff in H
    | H : (_ <? _) = true |- _ => apply N.ltb_lt in H
    | H : (_ <=? _) = true |- _ => apply N.leb_le in H
    | H : (_ =? _) = true |- _ => apply N.eqb_eq in H
    | H : (_ =? _) = false |- _ => apply N.eqb_neq in H
    end.
  all: (split; [repeat split; auto|]).
  all: repeat match goal with
       | H : _completeCircle _ = Ok _ |- _ =>
           apply completeCircle_Ok in H as [? ->]
       | H : withdrawFromReserve _ _ _ _ = Ok _ |- _ =>
           rewrite <- Hthis in H;
           apply withdrawFromReserve_self in H as (? & ? & ? & ? & ->);
           rewrite ?Hthis, ?Hbal, ?Hres, ?Hpool, ?Hcl in *
       end.
  all: match goal with
       | Hlt : poolBalance _ < _ |- _ => apply N.ltb_lt in Hlt; rewrite Hlt
       | Hge : (poolBalance _ <? _) = false |- _ => rewrite Hge
       end.
  all: unfold afterBorrow; rewrite ?Hthis, ?Hres, ?Hpool, ?Hcl.
  all: match goal with
       | Hd : _distributeExcess _ (set_registry ?reg ?w3) = Ok (tt, ?w5),
         Hh : receiveHook _ _ _ (moveValue _ _ _ (set_circle _ ?w2)) = Ok ?w3
         |- _ =>
           exists w2, w3, reg, w5;
           first
             [ match goal with
               | |- context [set_registry ?x (set_circle (set_status _ _) _)] =>
                   exists x
               end
             | exists (registry w5) ]
       end.
  all: rewrite ?Hcl.
  all: (split;
        [first [ reflexivity
               | split; [assumption|]; split; [assumption|];
                 split; [assumption|]; reflexivity ]
        |]).
  all: (split; [assumption|]).
  all: (split; [match goal with
                | Hb : _ <= balanceOf _ _ |- _ <= balanceOf _ _ => exact Hb
                end|]).
  all: (split; [match goal with
                | Hh : receiveHook _ _ _ _ = Ok _ |- _ => exact Hh
                end|]).
  all: (split; [assumption|]).
  all: (split; [assumption|]).
  all: unfold advanceMonth;
    cbn [circle set_circle registry set_registry durationInMonths currentMonth
         set_currentMonth] in *;
    match goal with
    | |- context [?a <=? ?b] => destruct (N.leb_spec a b)
    end;
    try match goal with
        | Hc : (_ <=? _) = false |- _ => apply N.leb_gt in Hc
        end;
    try lia.
  all: first
    [ reflexivity
    | match goal with |- _ = set_registry (registry ?x) _ => by destruct x end ].
Qed.

End PayoutFacts.

Section PayoutConsequences.
Import Circle LendingCircle.

Lemma receiveHook_cases from to v w w' :
  receiveHook from to v w = Ok w' ->
  (to = circleAddress w
   /\ w' = set_circle (set_poolBalance (poolBalance (circle w) + v) (circle w)) w)
  \/ (to ≠ circleAddress w /\ to = reserveAddress w
      /\ exists r', w' = set_reserve r' w)
  \/ (to ≠ circleAddress w /\ to ≠ reserveAddress w /\ w' = w).
Proof.
  intros H. destruct (decide (to = circleAddress w)) as [->|Hc].
  - left. split; [done|]. by apply receiveHook_circle in H.
  - right. destruct (decide (to = reserveAddress w)) as [->|Hr].
    + left. split; [done|]. split; [done|].
      unfold receiveHook in H. rewrite bool_decide_false in H by done.
      rewrite bool_decide_true in H by done. inv_result. eauto.
    + right. split; [done|]. split; [done|].
      by apply receiveHook_account in H.
Qed.

Lemma creditAll_proposals per l c :
  payoutProposals (creditAll per l c) = payoutProposals c.
Proof.
  unfold creditAll. revert c. induction l as [|a l IH]; intros c; simpl; [done|].
  rewrite IH. unfold creditEntry. by destruct (eligible c a).
Qed.

(** The count of [_getActiveParticipantCount] is the number of entries of
    the member list that are active and not in default. *)
Lemma activeCount_filter w :
  _getActiveParticipantCount w
  = N.of_nat (length (filter (fun a => eligible (circle w) a = true)
                        (participantList (circle w)))).
Proof.
  unfold _getActiveParticipantCount.
  generalize (participantList (circle w)) as l.
  assert (Hgen : forall l n,
    foldl (fun count a => if eligible (circle w) a then count + 1 else count) n l
    = n + N.of_nat (length (filter (fun a => eligible (circle w) a = true) l))).
  { induction l as [|a l IH]; intros n; simpl; [lia|].
    rewrite IH. rewrite filter_cons.
    destruct (eligible (circle w) a) eqn:He.
    - rewrite decide_True by done. simpl. lia.
    - rewrite decide_False by (by intros ?). done. }
  intros l. rewrite Hgen. lia.
Qed.

(** The proposal of the month records the selected winner. *)
Lemma executePayout_winner month now w w' :
  executePayout month now w = Ok (tt, w') ->
  getWinner month w' = _selectWinner month w
  /\ executed (proposalOf (circle w') month) = true.
Proof.
  intros H. apply executePayout_Ok in H. cbv zeta in H.
  destruct H as (_ & w2 & w3 & reg & w5 & reg' & _ & _ & _ & Hhook & _ & Hde & ->).
  assert (Hp3 : payoutProposals (circle w3)
                = payoutProposals
                    (markPaid (_selectWinner month w) (expectedPool w) month
                       (circle w2))).
  { apply receiveHook_cases in Hhook
      as [[_ ->]|[(_ & _ & r' & ->)|(_ & _ & ->)]]; done. }
  assert (Hp5 : payoutProposals (circle w5) = payoutProposals (circle w3)).
  { apply distributeExcess_Ok in Hde. cbv zeta in Hde.
    destruct (_ || _); subst w5; [done|].
    cbn [circle set_circle set_registry payoutProposals set_poolBalance].
    by rewrite creditAll_proposals. }
  unfold getWinner, proposalOf.
  cbn [circle set_circle set_registry].
  assert (Hadv : payoutProposals (advanceMonth (circle w5))
                 = payoutProposals (circle w5)).
  { unfold advanceMonth. by destruct (_ <=? _). }
  rewrite Hadv, Hp5, Hp3. unfold markPaid, set_proposal.
  cbn [payoutProposals set_payoutProposals].
  by rewrite lookup_total_insert_eq.
Qed.

(** Where the value and the books of the pool end up when the winner is
    an account other than the two contracts. *)
Lemma executePayout_transfers month now w w' :
  executePayout month now w = Ok (tt, w') ->
  _selectWinner month w ≠ circleAddress w ->
  _selectWinner month w ≠ reserveAddress w ->
  balanceOf w' (_selectWinner month w)
  = balanceOf w (_selectWinner month w) + expectedPool w
  /\ (if poolBalance (circle w) <? expectedPool w
      then expectedPool w - poolBalance (circle w)
           <= ReservePool.currentBalance (reserve w)
           /\ reserve w'
              = ReservePool.mkState
                  (ReservePool.factory (reserve w))
                  (ReservePool.verifiedCircles (reserve w))
                  (ReservePool.totalDeposited (reserve w))
                  (ReservePool.totalWithdrawn (reserve w)
                   + (expectedPool w - poolBalance (circle w)))
                  (ReservePool.currentBalance (reserve w)
                   - (expectedPool w - poolBalance (circle w)))
      else reserve w' = reserve w).
Proof.
  intros H Hr1 Hr2. apply executePayout_Ok in H. cbv zeta in H.
  destruct H as (_ & w2 & w3 & reg & w5 & reg' & Hborrow & _ & _ & Hhook & _ & Hde & ->).
  set (r := _selectWinner month w) in *. set (amount := expectedPool w) in *.
  assert (H2 : circleAddress w2 = circleAddress w
               /\ reserveAddress w2 = reserveAddress w
               /\ balanceOf w2 r = balanceOf w r
               /\ (if poolBalance (circle w) <? amount
                   then amount - poolBalance (circle w)
                        <= ReservePool.currentBalance (reserve w)
                        /\ reserve w2
                           = ReservePool.mkState
                               (ReservePool.factory (reserve w))
                               (ReservePool.verifiedCircles (reserve w))
                               (ReservePool.totalDeposited (reserve w))
                               (ReservePool.totalWithdrawn (reserve w)
                                + (amount - poolBalance (circle w)))
                               (ReservePool.currentBalance (reserve w)
                                - (amount - poolBalance (circle w)))
                   else reserve w2 = reserve w)).
  { destruct (poolBalance (circle w) <? amount).
    - destruct Hborrow as (_ & ? & _ & ->). unfold afterBorrow.
      split; [done|]. split; [done|]. split; [|done].
      rewrite (balanceOf_frame
                 (moveValue (reserveAddress w) (circleAddress w)
                    (amount - poolBalance (circle w)) w)) by done.
      rewrite balanceOf_moveValue. by rewrite !decide_False by done.
    - by subst w2. }
  destruct H2 as (Hthis2 & Hpool2 & Hbal2 & Hres2).
  apply receiveHook_account in Hhook;
    [|cbn [circleAddress reserveAddress moveValue set_balances set_circle];
      congruence..].
  subst w3.
  assert (H5 : balances w5
               = balances (moveValue (circleAddress w) r amount w2)
               /\ reserve w5 = reserve w2).
  { apply distributeExcess_Ok in Hde. cbv zeta in Hde.
    destruct (_ || _); subst w5; done. }
  destruct H5 as [Hb5 Hr5].
  split.
  - rewrite (balanceOf_frame (moveValue (circleAddress w) r amount w2))
      by (by rewrite <- Hb5).
    rewrite balanceOf_moveValue. rewrite decide_True by done.
    rewrite decide_False by done. by rewrite Hbal2.
  - cbn [reserve set_registry set_circle]. by rewrite Hr5.
Qed.

(** A payout that the pool cannot cover and the reserve cannot lend
    does not go through. *)
Lemma executePayout_insufficient month now w :
  poolBalance (circle w) < expectedPool w ->
  ReservePool.currentBalance (reserve w) < expectedPool w - poolBalance (circle w) ->
  reverts (executePayout month now) w.
Proof.
  intros Hshort Hres.
  destruct (executePayout month now w) as [[[] w']|msg] eqn:H;
    [|by exists msg].
  apply executePayout_Ok in H. cbv zeta in H.
  destruct H as (_ & w2 & w3 & reg & w5 & reg' & Hborrow & _).
  apply N.ltb_lt in Hshort. rewrite Hshort in Hborrow.
  destruct Hborrow as (_ & ? & _). lia.
Qed.

Lemma commit_reverts (m : M unit) w : reverts m w -> commit m w = w.
Proof. intros [msg H]. unfold commit. by rewrite H. Qed.

End PayoutConsequences.

Section DuplicateEntries.
Import Circle LendingCircle.

Lemma eligibleParticipants_size c :
  NoDup (participantList c) ->
  size (eligibleParticipants c)
  = length (filter (fun a => eligible c a = true) (participantList c)).
Proof.
  intros Hnd. unfold eligibleParticipants.
  apply size_list_to_set. by apply NoDup_filter.
Qed.

Lemma eligible_in_dom c (S : gset address) a :
  dom (participants c) = S -> eligible c a = true -> a ∈ S.
Proof.
  intros <-. unfold eligible, participantOf. rewrite lookup_total_alt.
  destruct (participants c !! a) as [p|] eqn:E; [|discriminate].
  intros _. by apply elem_of_dom_2 in E.
Qed.

Lemma eligible_listedTwice a :
  eligible (circle listedTwice) a = true <-> a = Scenario.alice \/ a = Scenario.bob.
Proof.
  split.
  - intros H.
    assert (Hd : dom (participants (circle listedTwice))
                 = ({[Scenario.alice; Scenario.bob]} : gset address))
      by (vm_compute; reflexivity).
    pose proof (eligible_in_dom _ _ a Hd H) as Hin. clear H Hd.
    apply elem_of_union in Hin as [Hin|Hin]; apply elem_of_singleton in Hin;
      auto.
  - intros [-> | ->]; vm_compute; reflexivity.
Qed.

End DuplicateEntries.

(** C2. Whenever [executePayout] goes through (the circle is then ACTIVE),
    the proposal records the selected winner and the winner, an account
    other than the two contracts, receives exactly
    [floor(monthlyContribution * (100 - reservePercentage) / 100)] times the
    count of [_getActiveParticipantCount], whatever [poolBalance] and the
    payment flags are; a short pool borrows exactly the shortfall from the
    reserve, and a reserve that holds less makes the call revert and leaves
    the world as it was.  The count runs over the entries of the member
    list: it is the number of active participants that are not in default
    when no address is listed twice, but in [listedTwice], where [bob] is
    listed twice, it is 3 for the 2 such participants, and [bob] is paid 15
    instead of 10, 5 of them taken from the reserve.  With three members
    listed once each, [shortCovered] pays 15 out of a pool of 10, and
    [shortUncovered], whose reserve holds 2 of the 9 missing, reverts. *)
Theorem payout_counts_a_duplicate_entry_twice :
  (forall month now w w',
      LendingCircle.executePayout month now w = Ok (tt, w') ->
      Circle.status (circle w) = Circle.ACTIVE
      /\ LendingCircle.getWinner month w' = LendingCircle._selectWinner month w
      /\ expectedPool w
         = Circle.monthlyContribution (circle w)
           * (100 - Circle.reservePercentage (circle w)) / 100
           * LendingCircle._getActiveParticipantCount w
      /\ LendingCircle._getActiveParticipantCount w
         = N.of_nat (length (filter (fun a => LendingCircle.eligible (circle w) a = true)
                               (Circle.participantList (circle w))))
      /\ (NoDup (Circle.participantList (circle w)) ->
          LendingCircle._getActiveParticipantCount w
          = N.of_nat (size (eligibleParticipants (circle w))))
      /\ (LendingCircle._selectWinner month w ≠ circleAddress w ->
          LendingCircle._selectWinner month w ≠ reserveAddress w ->
          balanceOf w' (LendingCircle._selectWinner month w)
          = balanceOf w (LendingCircle._selectWinner month w) + expectedPool w
          /\ (if Circle.poolBalance (circle w) <? expectedPool w
              then expectedPool w - Circle.poolBalance (circle w)
                   <= ReservePool.currentBalance (reserve w)
                   /\ reserve w'
                      = ReservePool.mkState
                          (ReservePool.factory (reserve w))
                          (ReservePool.verifiedCircles (reserve w))
                          (ReservePool.totalDeposited (reserve w))
                          (ReservePool.totalWithdrawn (reserve w)
                           + (expectedPool w - Circle.poolBalance (circle w)))
                          (ReservePool.currentBalance (reserve w)
                           - (expectedPool w - Circle.poolBalance (circle w)))
              else reserve w' = reserve w)))
  /\ (forall month now w,
        Circle.poolBalance (circle w) < expectedPool w ->
        ReservePool.currentBalance (reserve w)
        < expectedPool w - Circle.poolBalance (circle w) ->
        reverts (LendingCircle.executePayout month now) w
        /\ commit (LendingCircle.executePayout month now) w = w)
  /\ (admissible (Scenario.deployed 50) duplicateHistory = true
      /\ Circle.status (circle listedTwice) = Circle.ACTIVE
      /\ Circle.participantList (circle listedTwice)
         = [Scenario.alice; Scenario.bob; Scenario.bob]
      /\ (forall a, LendingCircle.eligible (circle listedTwice) a = true
                    <-> a = Scenario.alice \/ a = Scenario.bob)
      /\ size (eligibleParticipants (circle listedTwice)) = 2%nat
      /\ LendingCircle._getActiveParticipantCount listedTwice = 3
      /\ Circle.monthlyContribution (circle listedTwice)
         * (100 - Circle.reservePercentage (circle listedTwice)) / 100 = 5
      /\ Circle.poolBalance (circle listedTwice) = 10
      /\ LendingCircle._selectWinner 0 listedTwice = Scenario.bob
      /\ LendingCircle.executePayout 0 afterVoting listedTwice
         = Ok (tt, commit (LendingCircle.executePayout 0 afterVoting) listedTwice)
      /\ balanceOf (commit (LendingCircle.executePayout 0 afterVoting) listedTwice)
           Scenario.bob
         = balanceOf listedTwice Scenario.bob + 15
      /\ ReservePool.currentBalance
           (reserve (commit (LendingCircle.executePayout 0 afterVoting) listedTwice))
         = ReservePool.currentBalance (reserve listedTwice) - 5)
  /\ (NoDup (Circle.participantList (circle shortCovered))
      /\ size (eligibleParticipants (circle shortCovered)) = 3%nat
      /\ expectedPool shortCovered = 15
      /\ Circle.poolBalance (circle shortCovered) = 10
      /\ balanceOf (commit (LendingCircle.executePayout 0 afterVoting) shortCovered)
           Scenario.bob
         = balanceOf shortCovered Scenario.bob + 15
      /\ Circle.poolBalance (circle shortUncovered) = 18
      /\ expectedPool shortUncovered = 27
      /\ ReservePool.currentBalance (reserve shortUncovered) = 2
      /\ reverts (LendingCircle.executePayout 0 afterVoting) shortUncovered
      /\ commit (LendingCircle.executePayout 0 afterVoting) shortUncovered
         = shortUncovered).
Proof.
  split; [|split; [|split]].
  - intros month now w w' H. split.
    { by destruct (executePayout_Ok _ _ _ _ H) as ((? & _) & _). }
    split; [by apply (executePayout_winner _ _ _ _ H)|].
    split; [reflexivity|]. split; [apply activeCount_filter|]. split.
    + intros Hnd. rewrite activeCount_filter. f_equal.
      symmetry. by apply eligibleParticipants_size.
    + intros Hr1 Hr2. by apply (executePayout_transfers month now).
  - intros month now w Hshort Hres.
    pose proof (executePayout_insufficient month now w Hshort Hres) as Hrev.
    split; [exact Hrev|]. by apply commit_reverts.
  - split_all; try (vm_compute; reflexivity).
    apply eligible_listedTwice.
  - assert (Hrev : reverts (LendingCircle.executePayout 0 afterVoting) shortUncovered)
      by (apply executePayout_insufficient; vm_compute; reflexivity).
    split_all; try (vm_compute; reflexivity); try exact Hrev;
      try (by apply commit_reverts).
    vm_compute. repeat constructor; set_solver.
Qed.

(** *** Consequences of a default *)

Section DefaultConsequences.
Import Circle LendingCircle.

(** The circle as deployed has no participant in default. *)
Lemma constructor_defaultKept a w0 w1 :
  constructor a w0 = Ok (tt, w1) -> defaultKept [] w1.
Proof.
  unfold constructor. intros H. inv_M. split; [|constructor].
  intros q. cbn [circle set_circle set_registry]. unfold participantOf.
  cbn [participants].
  destruct (decide (q = _creator a)) as [->|Hne].
  - by rewrite lookup_total_singleton_eq.
  - by rewrite lookup_total_singleton_ne.
Qed.

Lemma deployed_history_defaultKept a w0 w1 tr ps :
  constructor a w0 = Ok (tt, w1) ->
  Forall (fun p => inDefault p (runTrace tr w1)) ps ->
  defaultKept ps (runTrace tr w1).
Proof.
  intros Hc Hps. split; [|exact Hps].
  apply (runTrace_flags [] tr w1), (constructor_defaultKept _ _ _ Hc).
Qed.

Lemma runTrace_app tr1 tr2 w : runTrace (tr1 ++ tr2) w = runTrace tr2 (runTrace tr1 w).
Proof. unfold runTrace. apply foldl_app. Qed.

(** The flag [isInDefault] of a participant, once set, stays set along
    every history of the deployed circle. *)
Lemma inDefault_persists a w0 w1 before later p :
  constructor a w0 = Ok (tt, w1) ->
  inDefault p (runTrace before w1) ->
  inDefault p (runTrace later (runTrace before w1)).
Proof.
  intros Hc Hp.
  assert (Hk : defaultKept [p] (runTrace before w1)).
  { apply (deployed_history_defaultKept _ _ _ _ _ Hc). by constructor. }
  apply (runTrace_flags [p] later) in Hk. destruct Hk as [_ Hk].
  by apply Forall_cons in Hk as [? _].
Qed.

(** [onlyActiveParticipant] rejects a participant in default. *)
Lemma withdrawExcess_inDefault p w :
  inDefault p w ->
  withdrawExcess p w = Revert "LendingCircle: Only active participants can call".
Proof.
  unfold inDefault, withdrawExcess, onlyActiveParticipant. intros Hp.
  unfold bind at 1. unfold bind at 1. cbn [getCircle gets].
  rewrite Hp, andb_false_r. done.
Qed.

Lemma makeContribution_inDefault p value month now w :
  inDefault p w -> reverts (makeContribution p value month now) w.
Proof.
  unfold inDefault. intros Hp.
  destruct (makeContribution p value month now w) as [[[] w']|msg] eqn:H;
    [|by exists msg].
  unfold makeContribution, onlyActiveParticipant, payable in H.
  apply bind_Ok in H as (this & w2 & Hthis & H). apply gets_Ok in Hthis as [-> ->].
  apply bind_Ok in H as (u & w3 & Hpay & H).
  destruct (balanceOf w p <? value); [discriminate|].
  injection Hpay as _ <-.
  apply bind_Ok in H as (u' & w4 & Hchk & _).
  apply bind_Ok in Hchk as (c & w5 & Hc & Hreq). apply gets_Ok in Hc as [-> ->].
  apply require_Ok in Hreq as [Hreq _].
  cbn [circle moveValue set_balances] in Hreq.
  rewrite Hp, andb_false_r in Hreq. discriminate.
Qed.

End DefaultConsequences.

(** C8. Once [recordDefault] has run for a participant, the ledger reads
    [hasDefaulted = true] for it, and keeps reading so along every later
    history of transactions; and in a deployed circle a participant whose
    flag [isInDefault] is set keeps the flag along every later history, and
    no [executePayout] that goes through afterwards selects or records that
    participant as the winner, whether or not it was proposed before. *)
Theorem defaults_are_permanent
    (a : LendingCircle.Params) (w0 w1 : World) (before later : list (N * Tx))
    (p : address) :
  LendingCircle.constructor a w0 = Ok (tt, w1) ->
  let w := runTrace before w1 in
  let w' := runTrace later w in
  (forall st st',
      CreditRegistry.recordDefault p st = Ok st' ->
      CreditRegistry.hasDefaulted (CreditRegistry.getCreditProfile st' p) = true)
  /\ (ledgerDefaulted p w -> ledgerDefaulted p w')
  /\ (inDefault p w ->
      inDefault p w'
      /\ forall month now w'',
           LendingCircle.executePayout month now w' = Ok (tt, w'') ->
           LendingCircle._selectWinner month w' ≠ p
           /\ LendingCircle.getWinner month w'' ≠ p).
Proof.
  intros Hc w w'. split; [|split].
  - intros st st'. apply recordDefault_sets_flag.
  - apply runTrace_ledger.
  - intros Hp.
    assert (Hp' : inDefault p w') by (by apply (inDefault_persists a w0)).
    split; [exact Hp'|].
    intros month now w'' Hrun.
    destruct (executePayout_Ok _ _ _ _ Hrun) as ((_ & _ & _ & _ & _ & _ & _ & _ & Hnd & _) & _).
    destruct (executePayout_winner _ _ _ _ Hrun) as [Hw _].
    assert (Hne : LendingCircle._selectWinner month w' ≠ p).
    { intros Heq. rewrite Heq in Hnd. unfold inDefault in Hp'. congruence. }
    split; [exact Hne|]. by rewrite Hw.
Qed.

Lemma defaults_are_permanent_witness :
  inDefault Scenario.bob bobDefaulted
  /\ ledgerDefaulted Scenario.bob bobDefaulted
  /\ Scenario.bob ∈ LendingCircle.getCandidates 0 bobDefaulted
  /\ exists w'',
       LendingCircle.executePayout 0 afterVoting (runTrace [] bobDefaulted)
       = Ok (tt, w'')
       /\ LendingCircle.getWinner 0 w'' = Scenario.carol
       /\ LendingCircle.getWinner 0 w'' ≠ Scenario.bob.
Proof.
  assert (Hc : LendingCircle.constructor (Scenario.params 0) Scenario.genesis
               = Ok (tt, Scenario.deployed 0)) by (vm_compute; reflexivity).
  assert (Hp : inDefault Scenario.bob bobDefaulted) by (vm_compute; reflexivity).
  assert (Hl : ledgerDefaulted Scenario.bob bobDefaulted) by (vm_compute; reflexivity).
  split; [exact Hp|]. split; [exact Hl|].
  split; [vm_compute; apply list_elem_of_In; simpl; auto|].
  exists (commit (LendingCircle.executePayout 0 afterVoting) (runTrace [] bobDefaulted)).
  assert (Hrun : LendingCircle.executePayout 0 afterVoting (runTrace [] bobDefaulted)
                 = Ok (tt, commit (LendingCircle.executePayout 0 afterVoting)
                             (runTrace [] bobDefaulted)))
    by (vm_compute; reflexivity).
  split; [exact Hrun|]. split; [vm_compute; reflexivity|].
  pose proof (defaults_are_permanent (Scenario.params 0) Scenario.genesis
                (Scenario.deployed 0) (excessHistory ++ defaultBeforePayout) []
                Scenario.bob Hc) as Hthm.
  cbv zeta in Hthm.
  destruct Hthm as (_ & _ & Hcircle).
  destruct (Hcircle Hp) as [_ Hwin].
  exact (proj2 (Hwin 0 afterVoting _ Hrun)).
Defined.

(** C10. In every state in which the flag [isInDefault] of a participant is
    set, [withdrawExcess] called by that participant is rejected by
    [onlyActiveParticipant], whatever the distribution method and the
    withdrawable balance; and in a deployed circle this holds along every
    later history: the call keeps reverting and leaves the world unchanged,
    and [makeContribution], the other consumer of the balance, reverts for
    that participant as well. *)
Theorem defaulted_participant_cannot_withdraw
    (a : LendingCircle.Params) (w0 w1 : World) (before later : list (N * Tx))
    (p : address) :
  LendingCircle.constructor a w0 = Ok (tt, w1) ->
  inDefault p (runTrace before w1) ->
  let w' := runTrace later (runTrace before w1) in
  (forall ws,
      inDefault p ws ->
      LendingCircle.withdrawExcess p ws
      = Revert "LendingCircle: Only active participants can call")
  /\ LendingCircle.withdrawExcess p w'
     = Revert "LendingCircle: Only active participants can call"
  /\ commit (LendingCircle.withdrawExcess p) w' = w'
  /\ (forall value month now,
        reverts (LendingCircle.makeContribution p value month now) w').
Proof.
  intros Hc Hp w'.
  assert (Hp' : inDefault p w') by (by apply (inDefault_persists a w0)).
  split; [intros ws; apply withdrawExcess_inDefault|].
  split; [by apply withdrawExcess_inDefault|].
  split.
  - apply commit_reverts. eexists. by apply withdrawExcess_inDefault.
  - intros value month now. by apply makeContribution_inDefault.
Qed.

Lemma defaulted_participant_cannot_withdraw_witness :
  inDefault Scenario.carol carolDefaulted
  /\ Circle.excessDistributionMethod (circle carolDefaulted) = Circle.WITHDRAWABLE
  /\ Circle.withdrawableBalance
       (Circle.participantOf (circle carolDefaulted) Scenario.carol) = 1
  /\ LendingCircle.withdrawExcess Scenario.carol
       (runTrace [(afterVoting + 2, WithdrawExcess Scenario.carol)] carolDefaulted)
     = Revert "LendingCircle: Only active participants can call".
Proof.
  assert (Hc : LendingCircle.constructor (Scenario.params 0) Scenario.genesis
               = Ok (tt, Scenario.deployed 0)) by (vm_compute; reflexivity).
  assert (Hp : inDefault Scenario.carol carolDefaulted) by (vm_compute; reflexivity).
  split; [exact Hp|]. split; [vm_compute; reflexivity|].
  split; [vm_compute; reflexivity|].
  pose proof (defaulted_participant_cannot_withdraw
                (Scenario.params 0) Scenario.genesis (Scenario.deployed 0)
                (excessHistory ++ defaultAfterPayout)
                [(afterVoting + 2, WithdrawExcess Scenario.carol)]
                Scenario.carol Hc) as Hthm.
  cbv zeta in Hthm.
  exact (proj1 (proj2 (Hthm Hp))).
Defined.

(** *** The scan of [_selectWinner] *)

Section WinnerSelection.
Import Circle LendingCircle.

Variable w : World.
Variable month : N.

Let proposal := proposalOf (circle w) month.

Lemma scanCandidate_eq best a :
  scanCandidate w proposal best a
  = if eligibleCandidate w month a
       && ((bestVotes best <? votesOf w month a)
           || ((votesOf w month a =? bestVotes best)
               && (bestCredit best <? creditOf w a)))
    then mkBest a (votesOf w month a) (creditOf w a)
    else best.
Proof.
  unfold scanCandidate, eligibleCandidate, votesOf, creditOf. fold proposal.
  destruct (candidateIsActive (candidateOf proposal a)); [|done].
  destruct (hasReceivedPayout (participantOf (circle w) a)); [done|].
  destruct (isInDefault (participantOf (circle w) a)); done.
Qed.

Lemma scanCandidate_cases best a :
  (scanCandidate w proposal best a = mkBest a (votesOf w month a) (creditOf w a)
   /\ eligibleCandidate w month a = true
   /\ outranks w month a (bestVotes best) (bestCredit best))
  \/ (scanCandidate w proposal best a = best
      /\ (eligibleCandidate w month a = true ->
          ~ outranks w month a (bestVotes best) (bestCredit best))).
Proof.
  rewrite scanCandidate_eq. unfold outranks.
  destruct (eligibleCandidate w month a); cbn [andb]; [|by right].
  destruct (N.ltb_spec (bestVotes best) (votesOf w month a)); cbn [orb].
  - left. repeat split; auto.
  - destruct (N.eqb_spec (votesOf w month a) (bestVotes best)); cbn [andb].
    + destruct (N.ltb_spec (bestCredit best) (creditOf w a)).
      * left. repeat split; auto.
      * right. split; [done|]. intros _. lia.
    + right. split; [done|]. intros _. lia.
Qed.

(** The scan as an arg-max: either the running best survives, and no
    eligible candidate of the list outranks it, or the result is an eligible
    candidate of the list that outranks the initial best, strictly outranks
    every eligible candidate before it and ranks at least as high as every
    eligible candidate of the list. *)
Lemma scan_argmax (l : list address) best :
  let res := foldl (scanCandidate w proposal) best l in
  (res = best
   /\ forall c, c ∈ l -> eligibleCandidate w month c = true ->
        ~ outranks w month c (bestVotes best) (bestCredit best))
  \/ (exists i c,
        l !! i = Some c
        /\ res = mkBest c (votesOf w month c) (creditOf w c)
        /\ eligibleCandidate w month c = true
        /\ outranks w month c (bestVotes best) (bestCredit best)
        /\ (forall j c', (j < i)%nat -> l !! j = Some c' ->
              eligibleCandidate w month c' = true ->
              outranks w month c (votesOf w month c') (creditOf w c'))
        /\ (forall c', c' ∈ l -> eligibleCandidate w month c' = true ->
              ranksAtLeast w month c c')).
Proof.
  revert best. induction l as [|a l IH]; intros best; cbn [foldl].
  - left. split; [done|]. intros c Hc. by apply elem_of_nil in Hc.
  - destruct (scanCandidate_cases best a) as [(-> & Hel & Hout)|(-> & Hno)].
    + right.
      destruct (IH (mkBest a (votesOf w month a) (creditOf w a)))
        as [[-> Hall]|(i & c & Hi & -> & Hc & Hca & Hbefore & Hall)];
        cbn [bestVotes bestCredit] in *.
      * exists 0%nat, a. repeat split; auto.
        -- intros j c' Hj. lia.
        -- intros c' [->|Hin]%elem_of_cons Hc'.
           ++ unfold ranksAtLeast. lia.
           ++ specialize (Hall c' Hin Hc'). unfold outranks, ranksAtLeast in *. lia.
      * exists (S i), c. repeat split; auto.
        -- unfold outranks in *. lia.
        -- intros [|j] c' Hj Hlk ?; cbn in Hlk.
           ++ by injection Hlk as <-.
           ++ apply (Hbefore j); [lia|done..].
        -- intros c' [->|Hin]%elem_of_cons Hc'.
           ++ unfold outranks, ranksAtLeast in *. lia.
           ++ by apply Hall.
    + destruct (IH best)
        as [[-> Hall]|(i & c & Hi & -> & Hc & Hcb & Hbefore & Hall)].
      * left. split; [done|].
        intros c [->|Hin]%elem_of_cons Hc; [by apply Hno | by apply Hall].
      * right. exists (S i), c. repeat split; auto.
        -- intros [|j] c' Hj Hlk Hc'; cbn in Hlk.
           ++ injection Hlk as <-. specialize (Hno Hc').
              unfold outranks in *. lia.
           ++ apply (Hbefore j); [lia|done..].
        -- intros c' [->|Hin]%elem_of_cons Hc'.
           ++ specialize (Hno Hc'). unfold outranks, ranksAtLeast in *. lia.
           ++ by apply Hall.
Qed.

(** [_selectWinner] returns the null address exactly when no eligible
    candidate has a vote or a score above zero; otherwise it returns the
    first eligible candidate of the highest rank. *)
Lemma selectWinner_spec :
  let l := candidateList proposal in
  (_selectWinner month w = 0
   /\ forall c, c ∈ l -> eligibleCandidate w month c = true ->
        votesOf w month c = 0 /\ creditOf w c = 0)
  \/ (exists i c,
        l !! i = Some c
        /\ _selectWinner month w = c
        /\ eligibleCandidate w month c = true
        /\ (0 < votesOf w month c \/ 0 < creditOf w c)
        /\ (forall j c', (j < i)%nat -> l !! j = Some c' ->
              eligibleCandidate w month c' = true ->
              outranks w month c (votesOf w month c') (creditOf w c'))
        /\ (forall c', c' ∈ l -> eligibleCandidate w month c' = true ->
              ranksAtLeast w month c c')).
Proof.
  intros l.
  assert (Hsel : _selectWinner month w
                 = bestCandidate (foldl (scanCandidate w proposal) (mkBest 0 0 0) l)).
  { unfold _selectWinner. fold proposal. fold l. by destruct l. }
  destruct (scan_argmax l (mkBest 0 0 0))
    as [[Hres Hall]|(i & c & Hi & Hres & Hc & Hout & Hbefore & Hall)];
    cbv zeta in Hres; rewrite Hsel, Hres; cbn [bestCandidate bestVotes bestCredit] in *.
  - left. split; [done|]. intros c Hin Hc. specialize (Hall c Hin Hc).
    unfold outranks in Hall. lia.
  - right. exists i, c. repeat split; auto. unfold outranks in Hout. lia.
Qed.

End WinnerSelection.

Section NoWinner.
Import Circle LendingCircle.

(** With all its checks passed and no winner selected, [executePayout]
    stops at the check of the winner. *)
Lemma executePayout_no_winner month now w :
  status (circle w) = ACTIVE ->
  _locked (circle w) = false ->
  0 < endTime (proposalOf (circle w) month) <= now ->
  executed (proposalOf (circle w) month) = false ->
  month = currentMonth (circle w) ->
  _selectWinner month w = 0 ->
  executePayout month now w = Revert "LendingCircle: No valid winner".
Proof.
  intros Hst Hlock [Hpos Hend] Hex Hm Hsel.
  unfold executePayout, nonReentrant, onlyActiveCircle.
  unfold bind, getCircle, gets, require, putCircle, modify.
  rewrite Hlock. cbn [negb circle set_circle status set_locked].
  rewrite bool_decide_true by done.
  change (proposalOf (circle (set_circle (set_locked true (circle w)) w)) month)
    with (proposalOf (circle w) month).
  rewrite (proj2 (N.ltb_lt _ _) Hpos), (proj2 (N.leb_le _ _) Hend), Hex.
  cbn [negb circle set_circle currentMonth set_locked].
  rewrite (proj2 (N.eqb_eq _ _) Hm).
  change (_selectWinner month (set_circle (set_locked true (circle w)) w))
    with (_selectWinner month w).
  by rewrite Hsel.
Qed.

Lemma executePayout_needs_winner month now w :
  _selectWinner month w = 0 -> reverts (executePayout month now) w.
Proof.
  intros Hsel.
  destruct (executePayout month now w) as [[[] w']|msg] eqn:H; [|by exists msg].
  destruct (executePayout_Ok _ _ _ _ H) as ((_ & _ & _ & _ & _ & Hne & _) & _).
  done.
Qed.

End NoWinner.

(** C9. There is a reachable world in which a proposed candidate is active,
    never paid and not in default, and [executePayout] fails with
    "No valid winner"; and in every world in which all the candidates that
    the scan does not skip have no votes and a credit score of zero,
    [_selectWinner] returns the null address and [executePayout] reverts,
    with "No valid winner" once its earlier checks are passed. *)
Theorem eligible_candidate_yet_no_winner :
  (exists w c,
      reachable w
      /\ c ∈ LendingCircle.getCandidates 0 w
      /\ eligibleCandidate w 0 c = true
      /\ Circle.isActive (Circle.participantOf (circle w) c) = true
      /\ LendingCircle.executePayout 0 afterVoting w
         = Revert "LendingCircle: No valid winner")
  /\ (forall w month,
        (forall c, c ∈ LendingCircle.getCandidates month w ->
                   eligibleCandidate w month c = true ->
                   votesOf w month c = 0 /\ creditOf w c = 0) ->
        LendingCircle._selectWinner month w = 0
        /\ forall now,
             reverts (LendingCircle.executePayout month now) w
             /\ (Circle.status (circle w) = Circle.ACTIVE ->
                 Circle._locked (circle w) = false ->
                 0 < Circle.endTime (Circle.proposalOf (circle w) month) <= now ->
                 Circle.executed (Circle.proposalOf (circle w) month) = false ->
                 month = Circle.currentMonth (circle w) ->
                 LendingCircle.executePayout month now w
                 = Revert "LendingCircle: No valid winner")).
Proof.
  split.
  - exists stuck, Scenario.bob. split.
    { exists (Scenario.params 0), Scenario.genesis, (Scenario.deployed 0), stuckHistory.
      split; [vm_compute; reflexivity|]. split; [vm_compute; reflexivity|]. done. }
    split; [vm_compute; apply list_elem_of_In; simpl; auto|].
    split_all; vm_compute; reflexivity.
  - intros w month Hzero.
    assert (Hsel : LendingCircle._selectWinner month w = 0).
    { destruct (selectWinner_spec w month)
        as [[Hsel _]|(i & c & Hi & _ & Hc & Hpos & _)]; [done|].
      assert (Hin : c ∈ LendingCircle.getCandidates month w)
        by (eapply list_elem_of_lookup_2; exact Hi).
      destruct (Hzero c Hin Hc). lia. }
    split; [exact Hsel|]. intros now. split.
    + by apply executePayout_needs_winner.
    + intros. by apply executePayout_no_winner.
Qed.

Lemma eligible_candidate_yet_no_winner_witness :
  LendingCircle._selectWinner 0 stuck = 0
  /\ LendingCircle.executePayout 0 afterVoting stuck
     = Revert "LendingCircle: No valid winner".
Proof.
  destruct (proj2 eligible_candidate_yet_no_winner stuck 0) as [Hsel Hrun].
  - intros c Hc _. vm_compute in Hc.
    apply list_elem_of_In in Hc. destruct Hc as [<-|[]].
    split; vm_compute; reflexivity.
  - split; [exact Hsel|].
    apply (proj2 (Hrun afterVoting)); try (vm_compute; reflexivity).
    split; vm_compute; [reflexivity|discriminate].
Defined.

(** C1. The scan of [_selectWinner] returns, whenever some candidate that
    is proposed, never paid and not in default has a vote or a credit score
    above zero, the first such candidate of the highest rank (votes, then
    score) in proposal order; so votes 10 and 10 with scores 400 and 500
    select the second candidate, and votes 10 and 8 select the first
    whatever the scores.  It misses the candidate whose votes and score are
    both zero: in the reachable world [stuck] the only candidate, [bob], is
    active, never paid and not in default, and the scan returns the null
    address, so that [executePayout] reverts. *)
Theorem winner_selection_misses_zero_candidate :
  (reachable stuck
   /\ LendingCircle.getCandidates 0 stuck = [Scenario.bob]
   /\ eligibleCandidate stuck 0 Scenario.bob = true
   /\ Circle.isActive (Circle.participantOf (circle stuck) Scenario.bob) = true
   /\ LendingCircle._selectWinner 0 stuck = 0
   /\ LendingCircle.executePayout 0 afterVoting stuck
      = Revert "LendingCircle: No valid winner")
  /\ (forall w month,
        (exists c, c ∈ LendingCircle.getCandidates month w
                   /\ eligibleCandidate w month c = true
                   /\ (0 < votesOf w month c \/ 0 < creditOf w c)) ->
        exists i c,
          LendingCircle.getCandidates month w !! i = Some c
          /\ LendingCircle._selectWinner month w = c
          /\ eligibleCandidate w month c = true
          /\ (forall c', c' ∈ LendingCircle.getCandidates month w ->
                eligibleCandidate w month c' = true -> ranksAtLeast w month c c')
          /\ (forall j c', (j < i)%nat ->
                LendingCircle.getCandidates month w !! j = Some c' ->
                eligibleCandidate w month c' = true ->
                outranks w month c (votesOf w month c') (creditOf w c')))
  /\ (forall w month A B,
        LendingCircle.getCandidates month w = [A; B] ->
        eligibleCandidate w month A = true ->
        eligibleCandidate w month B = true ->
        votesOf w month A = 10 -> votesOf w month B = 10 ->
        creditOf w A = 400 -> creditOf w B = 500 ->
        LendingCircle._selectWinner month w = B)
  /\ (forall w month A B,
        LendingCircle.getCandidates month w = [A; B] ->
        eligibleCandidate w month A = true ->
        eligibleCandidate w month B = true ->
        votesOf w month A = 10 -> votesOf w month B = 8 ->
        LendingCircle._selectWinner month w = A).
Proof.
  split; [|split; [|split]].
  - split.
    { exists (Scenario.params 0), Scenario.genesis, (Scenario.deployed 0), stuckHistory.
      split; [vm_compute; reflexivity|]. split; [vm_compute; reflexivity|]. done. }
    split_all; vm_compute; reflexivity.
  - intros w month (c0 & Hin0 & Hc0 & Hpos0).
    destruct (selectWinner_spec w month)
      as [[_ Hzero]|(i & c & Hi & Hsel & Hc & _ & Hbefore & Hall)].
    + destruct (Hzero c0 Hin0 Hc0). lia.
    + exists i, c. repeat split; auto.
  - intros w month A B Hl HA HB HvA HvB HcA HcB.
    destruct (selectWinner_spec w month)
      as [[_ Hzero]|(i & c & Hi & Hsel & Hc & _ & Hbefore & Hall)];
      fold (LendingCircle.getCandidates month w) in *; rewrite Hl in *.
    + destruct (Hzero A); [apply elem_of_cons; by left | done | lia].
    + rewrite Hsel. destruct i as [|[|i]]; cbn in Hi; [|congruence|done].
      injection Hi as <-.
      assert (HB' : B ∈ [A; B]) by (apply elem_of_cons; right; apply elem_of_cons; by left).
      specialize (Hall B HB' HB). unfold ranksAtLeast in Hall. lia.
  - intros w month A B Hl HA HB HvA HvB.
    destruct (selectWinner_spec w month)
      as [[_ Hzero]|(i & c & Hi & Hsel & Hc & _ & Hbefore & Hall)];
      fold (LendingCircle.getCandidates month w) in *; rewrite Hl in *.
    + destruct (Hzero A); [apply elem_of_cons; by left | done | lia].
    + rewrite Hsel. destruct i as [|[|i]]; cbn in Hi; [congruence| |done].
      injection Hi as <-.
      specialize (Hbefore 0%nat A (Nat.lt_0_succ 0) eq_refl HA).
      unfold outranks in Hbefore. lia.
Qed.

(** C4. For the circle created with [minParticipants = 3] and
    [maxParticipants = 6], once two more participants have requested to
    join, the first approval already turns the circle ACTIVE, with two
    active participants, because the activation reads the count of
    requests; the approval of the third participant then reverts. *)
Theorem circle_activates_on_first_approval :
  Circle.minParticipants (circle requested) = 3
  /\ Circle.maxParticipants (circle requested) = 6
  /\ Circle.status (circle requested) = Circle.PENDING
  /\ Circle.totalParticipants (circle requested) = 3
  /\ LendingCircle._getActiveParticipantCount requested = 1
  /\ Circle.status (circle firstApproved) = Circle.ACTIVE
  /\ LendingCircle._getActiveParticipantCount firstApproved = 2
  /\ Circle.isActive (Circle.participantOf (circle firstApproved) Scenario.carol) = false
  /\ exec 4 (ApproveParticipant Scenario.alice Scenario.carol) firstApproved
     = Revert "LendingCircle: Circle not in pending status".
Proof. split_all; vm_compute; reflexivity. Qed.

(** C5. [requestToJoin] reverts, and changes nothing, when the circle is
    not PENDING, when it is full, when the caller is an active participant
    and when the caller is the creator; but a caller whose request is still
    pending passes the check, which reads [isActive]: the second request of
    [bob] is accepted, counts him again and lists him twice. *)
Theorem pending_participant_can_join_twice :
  (forall sender w,
      Circle.status (circle w) ≠ Circle.PENDING
      \/ Circle.maxParticipants (circle w) <= Circle.totalParticipants (circle w)
      \/ Circle.isActive (Circle.participantOf (circle w) sender) = true
      \/ sender = Circle.creator (circle w) ->
      reverts (LendingCircle.requestToJoin sender) w
      /\ commit (LendingCircle.requestToJoin sender) w = w)
  /\ Circle.status (circle bobPending) = Circle.PENDING
  /\ Circle.participant (Circle.participantOf (circle bobPending) Scenario.bob)
     = Scenario.bob
  /\ Circle.isActive (Circle.participantOf (circle bobPending) Scenario.bob) = false
  /\ Circle.totalParticipants (circle bobPending) = 2
  /\ Circle.participantList (circle bobPending) = [Scenario.alice; Scenario.bob]
  /\ LendingCircle.requestToJoin Scenario.bob bobPending
     = Ok (tt, commit (LendingCircle.requestToJoin Scenario.bob) bobPending)
  /\ Circle.totalParticipants
       (circle (commit (LendingCircle.requestToJoin Scenario.bob) bobPending)) = 3
  /\ Circle.participantList
       (circle (commit (LendingCircle.requestToJoin Scenario.bob) bobPending))
     = [Scenario.alice; Scenario.bob; Scenario.bob].
Proof.
  split; [|split_all; vm_compute; reflexivity].
  intros sender w Hcase.
  assert (Hrev : reverts (LendingCircle.requestToJoin sender) w).
  { destruct (LendingCircle.requestToJoin sender w) as [[[] w']|msg] eqn:H;
      [|by exists msg].
    unfold LendingCircle.requestToJoin in H. inv_M.
    repeat match goal with
    | H : bool_decide _ = true |- _ => apply bool_decide_eq_true in H
    | H : negb _ = true |- _ => apply negb_true_iff in H
    | H : bool_decide _ = false |- _ => apply bool_decide_eq_false in H
    | H : (_ <? _) = true |- _ => apply N.ltb_lt in H
    end.
    destruct Hcase as [?|[?|[?|?]]]; [done | lia | congruence | done]. }
  split; [exact Hrev|]. by apply commit_reverts.
Qed.

(** *** The distribution of the excess *)

Section ExcessDistribution.
Import Circle LendingCircle.

Lemma creditEntry_eligible per c a b : eligible (creditEntry per c a) b = eligible c b.
Proof.
  unfold creditEntry. destruct (eligible c a) eqn:He; [|done].
  unfold eligible. rewrite participantOf_set_participant.
  by destruct (decide (b = a)) as [->|].
Qed.

Lemma creditAll_eligible per l c b : eligible (creditAll per l c) b = eligible c b.
Proof.
  unfold creditAll. revert c. induction l as [|a l IH]; intros c; simpl; [done|].
  by rewrite IH, creditEntry_eligible.
Qed.

Lemma creditEntry_other per c a b :
  b ≠ a -> participantOf (creditEntry per c a) b = participantOf c b.
Proof.
  intros Hne. unfold creditEntry. destruct (eligible c a); [|done].
  rewrite participantOf_set_participant. by rewrite decide_False.
Qed.

Lemma creditAll_not_in per l c b :
  b ∉ l -> participantOf (creditAll per l c) b = participantOf c b.
Proof.
  unfold creditAll. revert c. induction l as [|a l IH]; intros c Hb; simpl; [done|].
  apply not_elem_of_cons in Hb as [Hne Hb].
  rewrite IH by done. by apply creditEntry_other.
Qed.

(** Over a member list without repetition, every listed member that is
    active and not in default is credited [per] once. *)
Lemma creditAll_balance per l c b :
  NoDup l ->
  withdrawableBalance (participantOf (creditAll per l c) b)
  = withdrawableBalance (participantOf c b)
    + (if bool_decide (b ∈ l) && eligible c b then per else 0).
Proof.
  revert c. induction l as [|a l IH]; intros c Hnd.
  - cbn. rewrite bool_decide_false by apply not_elem_of_nil. simpl. lia.
  - apply NoDup_cons in Hnd as [Ha Hnd].
    change (creditAll per (a :: l) c) with (creditAll per l (creditEntry per c a)).
    destruct (decide (b = a)) as [->|Hne].
    + rewrite creditAll_not_in by done.
      rewrite bool_decide_true by (apply elem_of_cons; by left).
      unfold creditEntry. cbn [andb].
      destruct (eligible c a); [|lia].
      rewrite participantOf_set_participant, decide_True by done. done.
    + rewrite IH by done. rewrite creditEntry_eligible.
      rewrite creditEntry_other by done.
      f_equal. rewrite (bool_decide_ext (b ∈ a :: l) (b ∈ l)); [done|].
      rewrite elem_of_cons. naive_solver.
Qed.

Lemma advanceMonth_participantOf c a :
  participantOf (advanceMonth c) a = participantOf c a.
Proof. unfold advanceMonth. by destruct (_ <=? _). Qed.

Lemma advanceMonth_poolBalance c : poolBalance (advanceMonth c) = poolBalance c.
Proof. unfold advanceMonth. by destruct (_ <=? _). Qed.

Lemma markPaid_eligible r amount month c a :
  eligible (markPaid r amount month c) a = eligible c a.
Proof.
  unfold eligible, markPaid.
  change (participantOf (set_proposal ?m ?p ?x) a) with (participantOf x a).
  change (participantOf (set_poolBalance ?v ?x) a) with (participantOf x a).
  rewrite participantOf_set_participant. by destruct (decide (a = r)) as [->|].
Qed.

Lemma markPaid_balance r amount month c a :
  withdrawableBalance (participantOf (markPaid r amount month c) a)
  = withdrawableBalance (participantOf c a).
Proof.
  unfold markPaid.
  change (participantOf (set_proposal ?m ?p ?x) a) with (participantOf x a).
  change (participantOf (set_poolBalance ?v ?x) a) with (participantOf x a).
  rewrite participantOf_set_participant. by destruct (decide (a = r)) as [->|].
Qed.

Lemma activeCount_ext w1 w2 :
  participantList (circle w1) = participantList (circle w2) ->
  (forall a, eligible (circle w1) a = eligible (circle w2) a) ->
  _getActiveParticipantCount w1 = _getActiveParticipantCount w2.
Proof.
  intros Hl He. unfold _getActiveParticipantCount. rewrite Hl.
  generalize (participantList (circle w2)) as l. generalize 0.
  intros n l. revert n. induction l as [|a l IH]; intros n; simpl; [done|].
  rewrite He. apply IH.
Qed.

End ExcessDistribution.

Section ExcessAfterPayout.
Import Circle LendingCircle.

(** What [executePayout] has written to the circle when the excess is
    distributed, seen from the state [c] before the call. *)
Lemma markPaid_locked_facts r amount month c :
  let c3 := markPaid r amount month (set_locked true c) in
  participantList c3 = participantList c
  /\ (forall a, eligible c3 a = eligible c a)
  /\ (forall a, withdrawableBalance (participantOf c3 a)
                = withdrawableBalance (participantOf c a))
  /\ poolBalance c3 = poolBalance c - amount
  /\ expectedShare c3 = expectedShare c.
Proof.
  cbv zeta. split_all.
  - reflexivity.
  - intros a. by rewrite markPaid_eligible.
  - intros a. by rewrite markPaid_balance.
  - reflexivity.
  - reflexivity.
Qed.

(** The circle state at the end of a payout that leaves an excess, when
    the winner is not the circle itself. *)
Lemma executePayout_excess month now w w' :
  executePayout month now w = Ok (tt, w') ->
  _selectWinner month w ≠ circleAddress w ->
  0 < _getActiveParticipantCount w ->
  0 < excessOf w ->
  circle w'
  = advanceMonth
      (set_poolBalance (expectedPool w)
         (creditAll (excessOf w / _getActiveParticipantCount w)
            (participantList (circle w))
            (markPaid (_selectWinner month w) (expectedPool w) month
               (set_locked true (circle w))))).
Proof.
  intros H Hself Hn HE. apply executePayout_Ok in H. cbv zeta in H.
  destruct H as (_ & w2 & w3 & reg & w5 & reg' & Hborrow & _ & _ & Hhook & _ & Hde & ->).
  unfold excessOf in *.
  set (r := _selectWinner month w) in *. set (amount := expectedPool w) in *.
  set (c := circle w) in *.
  assert (Hnb : (poolBalance c <? amount) = false) by (apply N.ltb_ge; lia).
  rewrite Hnb in Hborrow. subst w2.
  set (c3 := markPaid r amount month (set_locked true c)) in *.
  assert (Hc3 : circle w3 = c3
                /\ circleAddress w3 = circleAddress w).
  { apply receiveHook_cases in Hhook
      as [[Heq _]|[(_ & _ & r' & ->)|(_ & _ & ->)]]; [|done..].
    by destruct Hself. }
  destruct Hc3 as [Hc3 _].
  destruct (markPaid_locked_facts r amount month c)
    as (Hlist & Helig & _ & Hpool & Hshare).
  fold c3 in Hlist, Helig, Hpool, Hshare.
  assert (Hcount : _getActiveParticipantCount (set_registry reg w3)
                   = _getActiveParticipantCount w).
  { apply activeCount_ext; cbn [circle set_registry]; rewrite Hc3; [done|].
    intros a. apply Helig. }
  assert (Hexp : expectedPool (set_registry reg w3) = amount).
  { unfold amount, expectedPool. rewrite Hcount. f_equal.
    cbn [circle set_registry]. by rewrite Hc3. }
  apply distributeExcess_Ok in Hde. cbv zeta in Hde.
  rewrite Hexp, Hcount in Hde. cbn [circle set_registry] in Hde.
  rewrite Hc3, Hpool, Hlist in Hde.
  rewrite (proj2 (N.eqb_neq _ 0)) in Hde by lia.
  rewrite (proj2 (N.leb_gt _ _)) in Hde by lia.
  cbn [orb] in Hde. subst w5. reflexivity.
Qed.

End ExcessAfterPayout.

(** C3, the claim as stated does not hold. In the circle [withExcess]
    the pool holds 65 against an expected pool of 30 for 3 eligible
    members; the payout of month 0 takes 30 and leaves an excess of 5.
    Each member is credited 1, and [poolBalance] ends at 30, not at
    30 + 5 mod 3 = 32: the remainder has left [poolBalance] with the
    distributed part. *)
Lemma remainder_leaves_poolBalance :
  exists w',
    LendingCircle.executePayout 0 afterVoting withExcess = Ok (tt, w')
    /\ excessOf withExcess = 5
    /\ LendingCircle._getActiveParticipantCount withExcess = 3
    /\ expectedPool withExcess = 30
    /\ Circle.poolBalance (circle w') = 30
    /\ ~ remainderStaysInPool withExcess w'.
Proof.
  eexists. split; [vm_compute; reflexivity|].
  split_all; try (vm_compute; reflexivity).
  unfold remainderStaysInPool. vm_compute. discriminate.
Qed.

(** C3, amended. After a successful [executePayout] that leaves an excess
    [E] over the expected pool, with [N] eligible (active, not in default)
    entries in a member list without repetition and a winner other than the
    circle itself, the withdrawable balance of every listed eligible
    participant grows by exactly [E / N], that of everyone else is
    unchanged, and [poolBalance] ends at the expected pool: the whole
    excess, remainder included, is deducted from [poolBalance]. *)
Theorem excess_is_split_and_deducted (month now : N) (w w' : World) :
  LendingCircle.executePayout month now w = Ok (tt, w') ->
  NoDup (Circle.participantList (circle w)) ->
  LendingCircle._selectWinner month w ≠ circleAddress w ->
  0 < LendingCircle._getActiveParticipantCount w ->
  0 < excessOf w ->
  (forall a,
      Circle.withdrawableBalance (Circle.participantOf (circle w') a)
      = Circle.withdrawableBalance (Circle.participantOf (circle w) a)
        + (if bool_decide (a ∈ Circle.participantList (circle w))
              && LendingCircle.eligible (circle w) a
           then excessOf w / LendingCircle._getActiveParticipantCount w
           else 0))
  /\ Circle.poolBalance (circle w') = expectedPool w.
Proof.
  intros H Hnd Hself Hn HE.
  rewrite (executePayout_excess month now w w' H Hself Hn HE).
  destruct (markPaid_locked_facts (LendingCircle._selectWinner month w)
              (expectedPool w) month (circle w))
    as (_ & Helig & Hbal & _ & _).
  split.
  - intros a. rewrite advanceMonth_participantOf.
    change (Circle.participantOf (Circle.set_poolBalance ?v ?x) a)
      with (Circle.participantOf x a).
    rewrite creditAll_balance by done.
    by rewrite Helig, Hbal.
  - rewrite advanceMonth_poolBalance. reflexivity.
Qed.

Lemma excess_is_split_and_deducted_witness :
  (Circle.withdrawableBalance
     (Circle.participantOf
        (circle (commit (LendingCircle.executePayout 0 afterVoting) withExcess))
        Scenario.carol)
   = Circle.withdrawableBalance
       (Circle.participantOf (circle withExcess) Scenario.carol) + 1)
  /\ Circle.poolBalance
       (circle (commit (LendingCircle.executePayout 0 afterVoting) withExcess))
     = 30.
Proof.
  assert (Hrun : LendingCircle.executePayout 0 afterVoting withExcess
                 = Ok (tt, commit (LendingCircle.executePayout 0 afterVoting)
                             withExcess))
    by (vm_compute; reflexivity).
  assert (Hnd : NoDup (Circle.participantList (circle withExcess))).
  { apply (proj1 (bool_decide_spec _)). vm_compute. reflexivity. }
  assert (Hself : LendingCircle._selectWinner 0 withExcess
                  ≠ circleAddress withExcess)
    by (vm_compute; discriminate).
  assert (Hn : 0 < LendingCircle._getActiveParticipantCount withExcess)
    by (vm_compute; reflexivity).
  assert (HE : 0 < excessOf withExcess) by (vm_compute; reflexivity).
  pose proof (excess_is_split_and_deducted 0 afterVoting withExcess _
                Hrun Hnd Hself Hn HE) as [Hsplit Hpool].
  split.
  - rewrite (Hsplit Scenario.carol). f_equal.
  - rewrite Hpool. vm_compute. reflexivity.
Defined.

(** ** Further properties of the contracts *)

(** *** CreditRegistry: counters and repeated operations *)

Section RegistryCounters.
Import CreditRegistry.

Lemma getCreditProfile_after op st st' :
  call op st = Ok st' ->
  getCreditProfile st' (subject op) = profileOf st' (subject op).
Proof.
  intros (Hp & _)%call_Ok. unfold getCreditProfile.
  rewrite bool_decide_true; [done | set_solver].
Qed.

Lemma getCreditProfile_other op st st' b :
  call op st = Ok st' -> b ≠ subject op ->
  getCreditProfile st' b = getCreditProfile st b.
Proof.
  intros (Hp & Hother & _)%call_Ok Hne. unfold getCreditProfile.
  rewrite Hother by done. rewrite Hp.
  rewrite (bool_decide_ext (b ∈ {[subject op]} ∪ hasProfile st) (b ∈ hasProfile st));
    [done | set_solver].
Qed.

(** A successful operation adds one to the counter of its kind and leaves
    the four other counters of its subject as they were. *)
Lemma call_counters op st st' op' :
  call op st = Ok st' ->
  counterOf op' (getCreditProfile st' (subject op))
  = counterOf op' (getCreditProfile st (subject op))
    + (if sameKind op op' then 1 else 0).
Proof.
  intros H. rewrite (getCreditProfile_after _ _ _ H).
  destruct op as [a|a|a|a|a]; simpl in *;
    unfold recordOnTimePayment, recordLatePayment, recordDefault,
      recordCircleCompletion, recordCircleJoin in H;
    inv_result; rewrite setProfile_same, ?ensureProfile_profile;
    destruct op'; simpl; lia.
Qed.

Lemma call_succeeds op st :
  scoresBounded st ->
  counterOf op (getCreditProfile st (subject op)) < MAX_UINT256 ->
  exists st', call op st = Ok st'.
Proof.
  intros Hb Hc. destruct (call op st) as [st'|msg] eqn:H; [eauto|].
  apply call_Revert in H; [lia | done].
Qed.

Lemma scoreAfter_step op k (s : Z) :
  (0 <= s <= 1000)%Z ->
  scoreAfter op k (saturatingAdjustment op s) = scoreAfter op (S k) s.
Proof. destruct op; simpl; lia. Qed.

Lemma run_replicate_score op k st :
  scoresBounded st ->
  counterOf op (getCreditProfile st (subject op)) + N.of_nat k <= MAX_UINT256 ->
  Z.of_N (getCreditScore (run (replicate k op) st) (subject op))
  = scoreAfter op k (Z.of_N (getCreditScore st (subject op)))
  /\ counterOf op (getCreditProfile (run (replicate k op) st) (subject op))
     = counterOf op (getCreditProfile st (subject op)) + N.of_nat k.
Proof.
  revert st. induction k as [|k IH]; intros st Hb Hc.
  - simpl. pose proof (getCreditScore_bounded st (subject op) Hb).
    split; [destruct op; simpl in *; lia | lia].
  - change (run (replicate (S k) op) st)
      with (run (replicate k op) (transact op st)).
    destruct (call_succeeds op st Hb) as [st' Hcall]; [lia|].
    unfold transact. rewrite Hcall.
    pose proof (call_counters op st st' op Hcall) as Hcnt.
    assert (Hsame : sameKind op op = true) by (by destruct op).
    rewrite Hsame in Hcnt.
    destruct (IH st') as [Hscore Hcount];
      [by eapply scoresBounded_call | lia |].
    rewrite Hscore, Hcount, Hcnt.
    pose proof (getCreditScore_bounded st (subject op) Hb).
    rewrite (getCreditScore_after _ _ _ Hcall).
    destruct (call_Ok _ _ _ Hcall) as (_ & _ & -> & _).
    split; [apply scoreAfter_step; lia | lia].
Qed.

End RegistryCounters.

(** X1. A ledger operation that succeeds adds one to the counter of its
    kind for its subject, leaves the four other counters of the subject
    unchanged, and leaves the profile read for any other address
    unchanged. *)
Theorem ledger_operation_counts_once
    (op : CreditRegistry.Op) (st st' : CreditRegistry.State) :
  CreditRegistry.call op st = Ok st' ->
  (forall op',
      counterOf op' (CreditRegistry.getCreditProfile st' (subject op))
      = counterOf op' (CreditRegistry.getCreditProfile st (subject op))
        + (if sameKind op op' then 1 else 0))
  /\ (forall b, b ≠ subject op ->
        CreditRegistry.getCreditProfile st' b = CreditRegistry.getCreditProfile st b).
Proof.
  intros H. split.
  - intros op'. by apply call_counters.
  - intros b Hb. by eapply getCreditProfile_other.
Qed.

Lemma ledger_operation_counts_once_witness :
  CreditRegistry.getCreditProfile
    (CreditRegistry.transact (CreditRegistry.Default 7) CreditRegistry.initial) 7
  = CreditRegistry.mkProfile 200 0 0 0 0 1 true
  /\ CreditRegistry.getCreditProfile
       (CreditRegistry.transact (CreditRegistry.Default 7) CreditRegistry.initial) 8
     = CreditRegistry.getCreditProfile CreditRegistry.initial 8.
Proof.
  assert (H : CreditRegistry.call (CreditRegistry.Default 7) CreditRegistry.initial
              = Ok (CreditRegistry.transact (CreditRegistry.Default 7)
                      CreditRegistry.initial))
    by (vm_compute; reflexivity).
  destruct (ledger_operation_counts_once _ _ _ H) as [_ Hother].
  split; [vm_compute; reflexivity|].
  apply Hother. simpl. lia.
Defined.

(** X2. On a ledger whose scores are at most 1000, [k] operations of one
    kind on one address, none of which overflows its counter, move the
    score read for that address to [min(s + 10k, 1000)] for on-time
    payments, [max(s - 20k, 0)] for late payments, [max(s - 100k, 0)] for
    defaults, [min(s + 15k, 1000)] for completions, and leave it at [s] for
    joins; the counter of that kind has grown by [k]. *)
Theorem repeated_operations_saturate
    (op : CreditRegistry.Op) (k : nat) (st : CreditRegistry.State) :
  scoresBounded st ->
  counterOf op (CreditRegistry.getCreditProfile st (subject op)) + N.of_nat k
  <= MAX_UINT256 ->
  Z.of_N (CreditRegistry.getCreditScore
            (CreditRegistry.run (replicate k op) st) (subject op))
  = scoreAfter op k (Z.of_N (CreditRegistry.getCreditScore st (subject op)))
  /\ counterOf op (CreditRegistry.getCreditProfile
                     (CreditRegistry.run (replicate k op) st) (subject op))
     = counterOf op (CreditRegistry.getCreditProfile st (subject op)) + N.of_nat k.
Proof. apply run_replicate_score. Qed.

Lemma repeated_operations_saturate_witness :
  Z.of_N (CreditRegistry.getCreditScore
            (CreditRegistry.run (replicate 4 (CreditRegistry.Default 7))
               CreditRegistry.initial) (subject (CreditRegistry.Default 7))) = 0%Z
  /\ counterOf (CreditRegistry.Default 7)
       (CreditRegistry.getCreditProfile
          (CreditRegistry.run (replicate 4 (CreditRegistry.Default 7))
             CreditRegistry.initial) (subject (CreditRegistry.Default 7))) = 4.
Proof.
  assert (Hc : counterOf (CreditRegistry.Default 7)
                 (CreditRegistry.getCreditProfile CreditRegistry.initial
                    (subject (CreditRegistry.Default 7))) + N.of_nat 4
               <= MAX_UINT256)
    by (vm_compute; discriminate).
  pose proof (repeated_operations_saturate (CreditRegistry.Default 7) 4
                CreditRegistry.initial scoresBounded_initial Hc)
    as [Hscore Hcount].
  split.
  - etransitivity; [exact Hscore|]. vm_compute. reflexivity.
  - etransitivity; [exact Hcount|]. vm_compute. reflexivity.
Defined.

(** *** ReservePool: utilization, verification, deposits and withdrawals *)

Section ReserveViews.
Import ReservePool.

Lemma getUtilizationRate_cases st :
  (totalDeposited st = 0 /\ getUtilizationRate st = Ok 0)
  \/ (0 < totalDeposited st /\ totalWithdrawn st * 10000 <= MAX_UINT256
      /\ getUtilizationRate st
         = Ok (totalWithdrawn st * 10000 / totalDeposited st))
  \/ (0 < totalDeposited st /\ MAX_UINT256 < totalWithdrawn st * 10000
      /\ getUtilizationRate st = Revert PANIC_ARITH).
Proof.
  unfold getUtilizationRate.
  destruct (N.eqb_spec (totalDeposited st) 0) as [Hz|Hnz]; [by left|].
  right. unfold mul256.
  destruct (N.leb_spec (totalWithdrawn st * 10000) MAX_UINT256).
  - left. split; [lia|]. split; [done|]. simpl. unfold div256.
    by rewrite (proj2 (N.eqb_neq _ _) Hnz).
  - right. split; [lia|]. done.
Qed.

Lemma rate_bound td tw : 0 < td -> tw <= td -> tw * 10000 / td <= 10000.
Proof.
  intros Hpos Hle. apply N.Div0.div_le_upper_bound. nia.
Qed.

End ReserveViews.

(** X3. Along every history that starts from a balanced pool,
    [getUtilizationRate] never divides by zero: it returns 0 when nothing
    has been deposited, and otherwise the quotient
    [totalWithdrawn * 10000 / totalDeposited], which is at most 10000; it
    can only fail on the overflow of [totalWithdrawn * 10000]. *)
Theorem utilization_rate_in_basis_points (w : World) (tr : list (N * Tx)) :
  reserveBalanced (reserve w) ->
  let st := reserve (runTrace tr w) in
  (ReservePool.totalDeposited st = 0 -> ReservePool.getUtilizationRate st = Ok 0)
  /\ (forall r, ReservePool.getUtilizationRate st = Ok r ->
        r = ReservePool.totalWithdrawn st * 10000 / ReservePool.totalDeposited st
        /\ r <= 10000)
  /\ (forall msg, ReservePool.getUtilizationRate st = Revert msg ->
        msg = PANIC_ARITH
        /\ MAX_UINT256 < ReservePool.totalWithdrawn st * 10000).
Proof.
  intros Hw st.
  assert (Hst : reserveBalanced st) by (by apply runTrace_reserveOK).
  destruct Hst as [Hle _].
  destruct (getUtilizationRate_cases st)
    as [[Hz ->]|[(Hpos & Hfit & ->)|(Hpos & Hover & ->)]].
  - split_all; [done| |discriminate].
    intros r [= <-]. rewrite Hz. split; [|lia].
    symmetry. apply N.div_0_r.
  - split_all; [lia| |discriminate].
    intros r [= <-]. split; [done|]. by apply rate_bound.
  - split_all; [lia|discriminate|]. by intros msg [= <-].
Qed.

Lemma utilization_rate_in_basis_points_witness :
  ReservePool.getUtilizationRate (reserve (runTrace payoutHistory (Scenario.deployed 50)))
  = Ok (ReservePool.totalWithdrawn
          (reserve (runTrace payoutHistory (Scenario.deployed 50))) * 10000
        / ReservePool.totalDeposited
            (reserve (runTrace payoutHistory (Scenario.deployed 50)))).
Proof.
  assert (Hb : reserveBalanced (reserve (Scenario.deployed 50)))
    by (split; vm_compute; [discriminate | reflexivity]).
  pose proof (utilization_rate_in_basis_points (Scenario.deployed 50)
                payoutHistory Hb) as Hthm.
  cbv zeta in Hthm. destruct Hthm as (_ & Hok & _).
  destruct (ReservePool.getUtilizationRate
              (reserve (runTrace payoutHistory (Scenario.deployed 50))))
    as [r|msg] eqn:Hr.
  - f_equal. by apply Hok.
  - vm_compute in Hr. discriminate.
Defined.

Section ReserveAccess.
Import ReservePool.

Lemma not_factory_rejected s c st :
  s ≠ factory st ->
  verifyCircle s c st = Revert "ReservePool: Only factory can call"
  /\ revokeCircle s c st = Revert "ReservePool: Only factory can call".
Proof.
  intros Hs. unfold verifyCircle, revokeCircle, onlyFactory.
  by rewrite bool_decide_false.
Qed.

Lemma verifyCircle_factory c st :
  c ≠ 0 ->
  verifyCircle (factory st) c st
  = Ok (mkState (factory st) ({[c]} ∪ verifiedCircles st)
          (totalDeposited st) (totalWithdrawn st) (currentBalance st)).
Proof.
  intros Hc. unfold verifyCircle, onlyFactory.
  rewrite bool_decide_true by done. simpl.
  by rewrite (proj2 (N.eqb_neq _ _) Hc).
Qed.

Lemma revokeCircle_factory c st :
  revokeCircle (factory st) c st
  = Ok (mkState (factory st) (verifiedCircles st ∖ {[c]})
          (totalDeposited st) (totalWithdrawn st) (currentBalance st)).
Proof. unfold revokeCircle, onlyFactory. by rewrite bool_decide_true. Qed.

Lemma deposit_Ok s v st st' :
  deposit s v st = Ok st' ->
  s ∈ verifiedCircles st /\ 0 < v
  /\ st' = mkState (factory st) (verifiedCircles st) (totalDeposited st + v)
             (totalWithdrawn st) (currentBalance st + v).
Proof.
  unfold deposit, onlyVerifiedCircle. intros H. inv_result.
  repeat match goal with
  | H : bool_decide _ = true |- _ => apply bool_decide_eq_true in H
  | H : (_ <? _) = true |- _ => apply N.ltb_lt in H
  end.
  done.
Qed.

Lemma withdraw_succeeds s amount recipient st :
  s ∈ verifiedCircles st -> 0 < amount -> recipient ≠ 0 ->
  amount <= currentBalance st -> totalWithdrawn st + amount <= MAX_UINT256 ->
  withdraw s amount recipient st
  = Ok (mkState (factory st) (verifiedCircles st) (totalDeposited st)
          (totalWithdrawn st + amount) (currentBalance st - amount),
        (recipient, amount)).
Proof.
  intros Hs Hpos Hr Hle Hfit. unfold withdraw, onlyVerifiedCircle.
  rewrite bool_decide_true by done. simpl.
  rewrite (proj2 (N.ltb_lt _ _) Hpos). simpl.
  rewrite (proj2 (N.eqb_neq _ _) Hr). simpl.
  rewrite (proj2 (N.leb_le _ _) Hle). simpl.
  unfold sub256, add256.
  rewrite (proj2 (N.leb_le _ _) Hle). simpl.
  by rewrite (proj2 (N.leb_le _ _) Hfit).
Qed.

End ReserveAccess.

(** X4. Only the factory of the pool verifies and revokes circles: any
    other caller is rejected.  The factory cannot verify the null address;
    a circle it verifies is in the verified set, a circle it revokes is not,
    and from then on the three entry points that move funds reject that
    circle.  Neither call touches the books or the factory. *)
Theorem only_factory_verifies_circles (st : ReservePool.State) (c : address) :
  (forall s, s ≠ ReservePool.factory st ->
     ReservePool.verifyCircle s c st = Revert "ReservePool: Only factory can call"
     /\ ReservePool.revokeCircle s c st = Revert "ReservePool: Only factory can call")
  /\ ReservePool.verifyCircle (ReservePool.factory st) 0 st
     = Revert "ReservePool: Invalid circle address"
  /\ (forall st', ReservePool.verifyCircle (ReservePool.factory st) c st = Ok st' ->
        c ≠ 0
        /\ c ∈ ReservePool.verifiedCircles st'
        /\ ReservePool.factory st' = ReservePool.factory st
        /\ ReservePool.totalDeposited st' = ReservePool.totalDeposited st
        /\ ReservePool.totalWithdrawn st' = ReservePool.totalWithdrawn st
        /\ ReservePool.currentBalance st' = ReservePool.currentBalance st)
  /\ (exists st',
        ReservePool.revokeCircle (ReservePool.factory st) c st = Ok st'
        /\ c ∉ ReservePool.verifiedCircles st'
        /\ (forall c', c' ≠ c ->
              c' ∈ ReservePool.verifiedCircles st' <-> c' ∈ ReservePool.verifiedCircles st)
        /\ ReservePool.factory st' = ReservePool.factory st
        /\ ReservePool.totalDeposited st' = ReservePool.totalDeposited st
        /\ ReservePool.totalWithdrawn st' = ReservePool.totalWithdrawn st
        /\ ReservePool.currentBalance st' = ReservePool.currentBalance st
        /\ (forall v, exists msg, ReservePool.deposit c v st' = Revert msg)
        /\ (forall amount recipient,
              exists msg, ReservePool.withdraw c amount recipient st' = Revert msg)
        /\ (forall v, exists msg, ReservePool.receive c v st' = Revert msg)).
Proof.
  split; [intros s Hs; by apply not_factory_rejected|].
  split.
  { unfold ReservePool.verifyCircle, ReservePool.onlyFactory.
    by rewrite bool_decide_true. }
  split.
  - intros st' H.
    assert (Hc : c ≠ 0).
    { intros ->. unfold ReservePool.verifyCircle, ReservePool.onlyFactory in H.
      rewrite bool_decide_true in H by done. discriminate. }
    rewrite verifyCircle_factory in H by done. injection H as <-.
    simpl. split_all; try done. set_solver.
  - set (st' := ReservePool.mkState (ReservePool.factory st)
                  (ReservePool.verifiedCircles st ∖ {[c]})
                  (ReservePool.totalDeposited st) (ReservePool.totalWithdrawn st)
                  (ReservePool.currentBalance st)).
    exists st'. split; [apply revokeCircle_factory|].
    assert (Hc : c ∉ ReservePool.verifiedCircles st') by (simpl; set_solver).
    split; [exact Hc|]. split; [intros c' Hc'; simpl; set_solver|].
    destruct (unverified_rejected c st' Hc) as (Hd & Hw & Hr).
    split_all; try done.
    + intros v. eexists. apply Hd.
    + intros amount recipient. eexists. apply Hw.
    + intros v. eexists. apply Hr.
Qed.

(** X5. A deposit followed by a withdrawal of the same amount by the same
    circle goes through (the recipient not being the null address and
    [totalWithdrawn] not overflowing) and brings [currentBalance] back to
    its value, while both [totalDeposited] and [totalWithdrawn] have grown
    by the amount; the transfer ordered is that amount to the recipient. *)
Theorem deposit_then_withdraw
    (s : address) (v : N) (recipient : address) (st st1 : ReservePool.State) :
  ReservePool.deposit s v st = Ok st1 ->
  recipient ≠ 0 ->
  ReservePool.totalWithdrawn st + v <= MAX_UINT256 ->
  exists st2,
    ReservePool.withdraw s v recipient st1 = Ok (st2, (recipient, v))
    /\ ReservePool.currentBalance st2 = ReservePool.currentBalance st
    /\ ReservePool.totalDeposited st2 = ReservePool.totalDeposited st + v
    /\ ReservePool.totalWithdrawn st2 = ReservePool.totalWithdrawn st + v.
Proof.
  intros H Hr Hfit. apply deposit_Ok in H as (Hs & Hpos & ->).
  eexists. split.
  - apply withdraw_succeeds; simpl; try done. lia.
  - simpl. split_all; try done. lia.
Qed.

Lemma deposit_then_withdraw_witness :
  exists st2,
    ReservePool.withdraw 500 4 101
      (ReservePool.mkState 100 {[500]} 4 0 4) = Ok (st2, (101, 4))
    /\ ReservePool.currentBalance st2 = 0.
Proof.
  destruct (deposit_then_withdraw 500 4 101
              (ReservePool.mkState 100 {[500]} 0 0 0)
              (ReservePool.mkState 100 {[500]} 4 0 4))
    as (st2 & Hw & Hcb & _).
  - vm_compute. reflexivity.
  - discriminate.
  - vm_compute. discriminate.
  - exists st2. split; [exact Hw | exact Hcb].
Defined.

(** *** LendingCircle: what the operations do *)

(** Boolean tests as propositions. *)
Ltac prop_hyps :=
  repeat match goal with
  | H : bool_decide _ = true |- _ => apply bool_decide_eq_true in H
  | H : bool_decide _ = false |- _ => apply bool_decide_eq_false in H
  | H : negb _ = true |- _ => apply negb_true_iff in H
  | H : negb _ = false |- _ => apply negb_false_iff in H
  | H : _ && _ = true |- _ => apply andb_true_iff in H as [? ?]
  | H : (_ <? _) = true |- _ => apply N.ltb_lt in H
  | H : (_ <? _) = false |- _ => apply N.ltb_ge in H
  | H : (_ <=? _) = true |- _ => apply N.leb_le in H
  | H : (_ <=? _) = false |- _ => apply N.leb_gt in H
  | H : (_ =? _) = true |- _ => apply N.eqb_eq in H
  | H : (_ =? _) = false |- _ => apply N.eqb_neq in H
  end.

(** Reading a participant through the writes of other storage. *)
Ltac participantOf_norm :=
  repeat first
    [ rewrite participantOf_set_participant
    | progress change (Circle.participantOf (Circle.set_status ?v ?x) ?a)
        with (Circle.participantOf x a)
    | progress change (Circle.participantOf (Circle.set_currentMonth ?v ?x) ?a)
        with (Circle.participantOf x a)
    | progress change
        (Circle.participantOf (Circle.set_totalParticipants ?v ?x) ?a)
        with (Circle.participantOf x a)
    | progress change (Circle.participantOf (Circle.set_poolBalance ?v ?x) ?a)
        with (Circle.participantOf x a)
    | progress change
        (Circle.participantOf (Circle.set_totalReserveDeposited ?v ?x) ?a)
        with (Circle.participantOf x a)
    | progress change
        (Circle.participantOf (Circle.set_participantList ?v ?x) ?a)
        with (Circle.participantOf x a)
    | progress change (Circle.participantOf (Circle.set_proposal ?m ?v ?x) ?a)
        with (Circle.participantOf x a)
    | progress change (Circle.participantOf (Circle.set_locked ?v ?x) ?a)
        with (Circle.participantOf x a) ].

Section CircleOperations.
Import Circle LendingCircle.

Lemma list_find_first (a : address) l1 l2 :
  a ∉ l1 -> list_find (fun x => x = a) (l1 ++ a :: l2) = Some (length l1, a).
Proof.
  intros Hn. apply list_find_Some. split_and!.
  - by rewrite list_lookup_middle.
  - done.
  - intros j y Hj Hlt ->. apply Hn.
    rewrite lookup_app_l in Hj by done. by eapply list_elem_of_lookup_2.
Qed.

Lemma swapRemove_last (a : address) l1 :
  a ∉ l1 -> swapRemove a (l1 ++ [a]) = l1.
Proof.
  intros Hn. unfold swapRemove. rewrite list_find_first by done.
  rewrite last_snoc.
  rewrite insert_app_r_alt by lia. rewrite Nat.sub_diag. simpl.
  rewrite length_app. simpl.
  apply take_app_length'. lia.
Qed.

Lemma swapRemove_middle (a z : address) l1 l2 :
  a ∉ l1 -> swapRemove a (l1 ++ a :: l2 ++ [z]) = (l1 ++ z :: l2)%list.
Proof.
  intros Hn. unfold swapRemove. rewrite list_find_first by done.
  replace (l1 ++ a :: l2 ++ [z])%list with ((l1 ++ a :: l2) ++ [z])%list
    by (by rewrite <- app_assoc).
  rewrite last_snoc. rewrite <- app_assoc. simpl.
  rewrite insert_app_r_alt by lia. rewrite Nat.sub_diag. simpl.
  replace (l1 ++ z :: l2 ++ [z])%list with ((l1 ++ z :: l2) ++ [z])%list
    by (by rewrite <- app_assoc).
  apply take_app_length'.
  rewrite !length_app. simpl. rewrite length_app. simpl. lia.
Qed.

Lemma swapRemove_absent (a : address) l : a ∉ l -> swapRemove a l = l.
Proof.
  intros Hn. unfold swapRemove.
  destruct (list_find (fun x => x = a) l) as [[i x]|] eqn:Hf; [|done].
  apply list_find_Some in Hf as (Hi & -> & _).
  destruct Hn. by eapply list_elem_of_lookup_2.
Qed.

Lemma swapRemove_Permutation (a : address) l :
  a ∈ l -> a :: swapRemove a l ≡ₚ l.
Proof.
  intros Hin. apply list_elem_of_split_l in Hin as (l1 & l2 & -> & Hn).
  destruct (decide (l2 = [])) as [->|Hne].
  - rewrite swapRemove_last by done. by rewrite Permutation_cons_append.
  - destruct (exists_last Hne) as (l2' & z & ->).
    rewrite swapRemove_middle by done.
    rewrite <- (Permutation_middle l1 (l2' ++ [z])%list a).
    apply Permutation_cons; [done|].
    apply Permutation_app_head.
    by rewrite Permutation_cons_append.
Qed.

Section Membership.

Lemma requestToJoin_Ok sender w w' :
  requestToJoin sender w = Ok (tt, w') ->
  let c := circle w in
  status c = PENDING
  /\ totalParticipants c < maxParticipants c
  /\ isActive (participantOf c sender) = false
  /\ sender ≠ creator c
  /\ exists r,
       CreditRegistry.recordCircleJoin sender (registry w) = Ok r
       /\ w' = set_registry r
                 (set_circle
                    (set_totalParticipants (totalParticipants c + 1)
                       (set_participantList (participantList c ++ [sender])
                          (set_participant sender
                             (set_participant_addr sender (participantOf c sender))
                             c))) w).
Proof.
  unfold requestToJoin. intros H. inv_M. prop_hyps. cbv zeta.
  split_all; try done. eauto.
Qed.

Lemma approveParticipant_Ok sender p w w' :
  approveParticipant sender p w = Ok (tt, w') ->
  let c := circle w in
  let c1 := set_participant p (set_isActive true (participantOf c p)) c in
  sender = coordinator c
  /\ status c = PENDING
  /\ participant (participantOf c p) = p
  /\ isActive (participantOf c p) = false
  /\ w' = set_circle
            (if minParticipants c <=? totalParticipants c
             then set_status ACTIVE c1 else c1) w.
Proof.
  unfold approveParticipant, onlyCoordinator, _activateCircle.
  intros H. inv_M; prop_hyps; cbv zeta;
    cbn [circle set_circle minParticipants totalParticipants set_participant
         set_participants] in *;
    (split_all; try done).
  - match goal with
    | Hle : _ <= _ |- _ => by rewrite (proj2 (N.leb_le _ _) Hle)
    end.
  - match goal with
    | Hgt : _ < _ |- _ => by rewrite (proj2 (N.leb_gt _ _) Hgt)
    end.
Qed.

Lemma rejectParticipant_Ok sender p w w' :
  rejectParticipant sender p w = Ok (tt, w') ->
  let c := circle w in
  sender = coordinator c
  /\ status c = PENDING
  /\ participant (participantOf c p) = p
  /\ isActive (participantOf c p) = false
  /\ 1 <= totalParticipants c
  /\ w' = set_circle
            (set_participant p (deleted (participantOf c p))
               (set_totalParticipants (totalParticipants c - 1)
                  (set_participantList (swapRemove p (participantList c)) c))) w.
Proof.
  unfold rejectParticipant, onlyCoordinator. intros H. inv_M. prop_hyps.
  cbv zeta. done.
Qed.

Lemma rejectParticipant_succeeds p w :
  status (circle w) = PENDING ->
  participant (participantOf (circle w) p) = p ->
  isActive (participantOf (circle w) p) = false ->
  1 <= totalParticipants (circle w) ->
  rejectParticipant (coordinator (circle w)) p w
  = Ok (tt, set_circle
              (set_participant p (deleted (participantOf (circle w) p))
                 (set_totalParticipants (totalParticipants (circle w) - 1)
                    (set_participantList
                       (swapRemove p (participantList (circle w))) (circle w)))) w).
Proof.
  intros Hs Hp Ha Ht.
  unfold rejectParticipant, onlyCoordinator, bind, getCircle, gets, require,
    putCircle, modify, lift, sub256.
  rewrite bool_decide_true by done.
  rewrite bool_decide_true by done.
  rewrite Hp, N.eqb_refl, Ha. cbn [negb].
  by rewrite (proj2 (N.leb_le _ _) Ht).
Qed.

End Membership.

(** X6. The loop of [rejectParticipant] that takes an address out of the
    member list, [swapRemove], removes exactly one occurrence: when the
    address is listed, the result with the address put back is a
    permutation of the list; when it is not, the list is unchanged; and a
    list without repetition stays so and no longer holds the address. *)
Theorem swapRemove_removes_one_occurrence (a : address) (l : list address) :
  (a ∈ l -> a :: swapRemove a l ≡ₚ l)
  /\ (a ∉ l -> swapRemove a l = l)
  /\ (NoDup l -> NoDup (swapRemove a l) /\ a ∉ swapRemove a l).
Proof.
  split_all.
  - apply swapRemove_Permutation.
  - apply swapRemove_absent.
  - intros Hnd. destruct (decide (a ∈ l)) as [Hin|Hout].
    + rewrite <- (swapRemove_Permutation a l Hin) in Hnd.
      apply NoDup_cons in Hnd as [? ?]. done.
    + by rewrite swapRemove_absent.
Qed.

(** X7. A request to join by an address that is not listed yet, followed by
    its rejection by the coordinator: the rejection goes through and gives
    back the member list and [totalParticipants] of before the request, the
    record of the address is zeroed and the records of the others are
    untouched; the registry, however, keeps counting the join in
    [circlesJoined]. *)
Theorem rejected_request_is_undone (sender : address) (w w1 : World) :
  requestToJoin sender w = Ok (tt, w1) ->
  sender ∉ participantList (circle w) ->
  exists w2,
    rejectParticipant (coordinator (circle w)) sender w1 = Ok (tt, w2)
    /\ participantList (circle w2) = participantList (circle w)
    /\ totalParticipants (circle w2) = totalParticipants (circle w)
    /\ status (circle w2) = PENDING
    /\ participant (participantOf (circle w2) sender) = 0
    /\ isActive (participantOf (circle w2) sender) = false
    /\ (forall a, a ≠ sender ->
          participantOf (circle w2) a = participantOf (circle w) a)
    /\ CreditRegistry.circlesJoined
         (CreditRegistry.getCreditProfile (registry w2) sender)
       = CreditRegistry.circlesJoined
           (CreditRegistry.getCreditProfile (registry w) sender) + 1.
Proof.
  intros H Hnew. apply requestToJoin_Ok in H. cbv zeta in H.
  destruct H as (Hs & Hfull & Hact & Hcr & r & Hr & ->).
  match goal with
  | |- exists w2, rejectParticipant _ _ ?x = _ /\ _ =>
      change (coordinator (circle w)) with (coordinator (circle x))
  end.
  eexists. split.
  - apply (rejectParticipant_succeeds sender); cbn [circle set_registry set_circle].
    + done.
    + participantOf_norm. by rewrite decide_True.
    + participantOf_norm. by rewrite decide_True.
    + cbn. lia.
  - cbn [circle set_registry set_circle registry].
    split_all.
    + cbn. by apply swapRemove_last.
    + cbn. lia.
    + done.
    + rewrite participantOf_set_participant. by rewrite decide_True.
    + rewrite participantOf_set_participant. by rewrite decide_True.
    + intros a Ha. participantOf_norm. by rewrite !decide_False.
    + apply (call_counters (CreditRegistry.CircleJoin sender) _ _
               (CreditRegistry.CircleJoin sender)) in Hr.
      exact Hr.
Qed.

Lemma rejected_request_is_undone_witness :
  exists w2,
    rejectParticipant (coordinator (circle (Scenario.deployed 0))) Scenario.bob
      (commit (requestToJoin Scenario.bob) (Scenario.deployed 0)) = Ok (tt, w2)
    /\ participantList (circle w2) = participantList (circle (Scenario.deployed 0)).
Proof.
  assert (Hrun : requestToJoin Scenario.bob (Scenario.deployed 0)
                 = Ok (tt, commit (requestToJoin Scenario.bob) (Scenario.deployed 0)))
    by (vm_compute; reflexivity).
  assert (Hl : participantList (circle (Scenario.deployed 0)) = [Scenario.alice])
    by (vm_compute; reflexivity).
  assert (Hnew : Scenario.bob ∉ participantList (circle (Scenario.deployed 0))).
  { rewrite Hl. intros Hin. apply list_elem_of_singleton in Hin. discriminate. }
  destruct (rejected_request_is_undone _ _ _ Hrun Hnew) as (w2 & Hrej & Hlist & _).
  exists w2. split; [exact Hrej | exact Hlist].
Defined.

Section Contribution.

Lemma set_withdrawableBalance_same p :
  set_withdrawableBalance (withdrawableBalance p) p = p.
Proof. by destruct p. Qed.

Lemma makeContribution_Ok sender value month now w w' :
  makeContribution sender value month now w = Ok (tt, w') ->
  let c := circle w in
  let p := participantOf c sender in
  let ra := reserveShare c value in
  let w1 := set_circle (contributed sender value month now c)
              (moveValue sender (circleAddress w) value w) in
  value <= balanceOf w sender
  /\ eligible c sender = true
  /\ status c = ACTIVE
  /\ month = currentMonth c
  /\ (month ∉ monthlyPayments p)
  /\ value = amountDue c p
  /\ ra <= value
  /\ exists w2 r,
       (if 0 <? ra
        then (ra <= balanceOf w1 (circleAddress w)
              /\ receiveHook (circleAddress w) (reserveAddress w) ra
                   (moveValue (circleAddress w) (reserveAddress w) ra w1) = Ok w2)
        else w2 = w1)
       /\ CreditRegistry.recordOnTimePayment sender (registry w2) = Ok r
       /\ w' = set_registry r w2.
Proof.
  unfold makeContribution, onlyActiveParticipant, onlyActiveCircle, payable.
  intros H. cbv zeta.
  apply bind_Ok in H as (this & w0 & Hthis & H). apply gets_Ok in Hthis as [-> ->].
  apply bind_Ok in H as (u & w1 & Hpay & H).
  destruct (N.ltb_spec (balanceOf w sender) value) as [|Hfunds]; [discriminate|].
  injection Hpay as _ <-.
  set (w1 := moveValue sender (circleAddress w) value w) in *.
  assert (Hc1 : circle w1 = circle w) by done.
  unfold contributed, reserveShare, amountDue, balanceAfterDeduct, autoDeducts, eligible.
  inv_M; prop_hyps; rewrite ?Hc1 in *;
    repeat match goal with
    | H : _ && _ = false |- _ => rewrite H
    | H : excessDistributionMethod _ = AUTO_DEDUCT |- _ =>
        rewrite (bool_decide_true _ H)
    | H : _ ≠ AUTO_DEDUCT |- _ => rewrite (bool_decide_false _ H)
    | H : 0 < withdrawableBalance _ |- _ => rewrite (proj2 (N.ltb_lt _ _) H)
    | H : withdrawableBalance _ <= 0 |- _ => rewrite (proj2 (N.ltb_ge _ _) H)
    | H : monthlyContribution _ <= withdrawableBalance _ |- _ =>
        rewrite (proj2 (N.leb_le _ _) H)
    | H : withdrawableBalance _ < monthlyContribution _ |- _ =>
        rewrite (proj2 (N.leb_gt _ _) H)
    end; cbn [andb fst snd] in *; rewrite ?andb_false_r;
    rewrite ?set_withdrawableBalance_same.
  all: repeat match goal with
       | H : isActive _ = true |- _ => rewrite H
       | H : isInDefault _ = false |- _ => rewrite H
       end; cbn [negb andb].
  all: repeat match goal with
       | H : context [reserveAddress (set_circle ?c ?x)] |- _ =>
           change (reserveAddress (set_circle c x)) with (reserveAddress w) in H
       end.
  all: split_all; try done; try lia.
  all: do 2 eexists; (split; [|split; [eassumption|reflexivity]]).
  all: match goal with
       | H : 0 < _ * _ / 100 |- _ =>
           rewrite (proj2 (N.ltb_lt _ _) H); split; assumption
       | H : _ * _ / 100 <= 0 |- _ =>
           rewrite (proj2 (N.ltb_ge _ _) H); reflexivity
       end.
Qed.

Lemma receiveHook_pool from v w w' :
  reserveAddress w ≠ circleAddress w ->
  receiveHook from (reserveAddress w) v w = Ok w' ->
  from ∈ ReservePool.verifiedCircles (reserve w)
  /\ w' = set_reserve
            (ReservePool.mkState
               (ReservePool.factory (reserve w))
               (ReservePool.verifiedCircles (reserve w))
               (ReservePool.totalDeposited (reserve w) + v)
               (ReservePool.totalWithdrawn (reserve w))
               (ReservePool.currentBalance (reserve w) + v)) w.
Proof.
  intros Hne. unfold receiveHook, ReservePool.receive.
  rewrite bool_decide_false by done. rewrite bool_decide_true by done.
  intros H. inv_result. prop_hyps. done.
Qed.

Lemma amountDue_pays c p :
  amountDue c p + (withdrawableBalance p - balanceAfterDeduct c p)
  = monthlyContribution c.
Proof.
  unfold amountDue, balanceAfterDeduct.
  destruct (autoDeducts c p); [|lia].
  destruct (N.leb_spec (monthlyContribution c) (withdrawableBalance p)); lia.
Qed.

Lemma reverts_intro {A} (m : M A) w :
  (forall a w', m w = Ok (a, w') -> False) -> reverts m w.
Proof.
  intros H. destruct (m w) as [[a w']|msg] eqn:E; [|by exists msg].
  destruct (H a w' eq_refl).
Qed.

(** What [makeContribution] leaves behind, the pool being another contract
    than the circle. *)
Lemma makeContribution_effect sender value month now w w' :
  makeContribution sender value month now w = Ok (tt, w') ->
  reserveAddress w ≠ circleAddress w ->
  let c := circle w in
  let ra := reserveShare c value in
  circle w' = contributed sender value month now c
  /\ (exists r, CreditRegistry.recordOnTimePayment sender (registry w) = Ok r
                /\ registry w' = r)
  /\ reserve w'
     = (if 0 <? ra
        then ReservePool.mkState
               (ReservePool.factory (reserve w))
               (ReservePool.verifiedCircles (reserve w))
               (ReservePool.totalDeposited (reserve w) + ra)
               (ReservePool.totalWithdrawn (reserve w))
               (ReservePool.currentBalance (reserve w) + ra)
        else reserve w)
  /\ balances w'
     = balances
         (if 0 <? ra
          then moveValue (circleAddress w) (reserveAddress w) ra
                 (moveValue sender (circleAddress w) value w)
          else moveValue sender (circleAddress w) value w)
  /\ circleAddress w' = circleAddress w
  /\ reserveAddress w' = reserveAddress w.
Proof.
  intros H Hne. apply makeContribution_Ok in H. cbv zeta in *.
  destruct H as (_ & _ & _ & _ & _ & _ & _ & w2 & r & Hhook & Hr & ->).
  destruct (0 <? reserveShare (circle w) value).
  - destruct Hhook as [_ Hhook].
    match type of Hhook with
    | receiveHook ?f _ ?v ?x = _ =>
        apply (receiveHook_pool f v x) in Hhook as [_ ->]; [|done]
    end.
    split_all; try done. eauto.
  - subst w2. split_all; try done. eauto.
Qed.

End Contribution.

Section Voting.

Lemma proposePayout_Ok sender candidate month now w w' :
  proposePayout sender candidate month now w = Ok (tt, w') ->
  let c := circle w in
  eligible c sender = true
  /\ status c = ACTIVE
  /\ month = currentMonth c
  /\ isActive (participantOf c candidate) = true
  /\ hasReceivedPayout (participantOf c candidate) = false
  /\ isInDefault (participantOf c candidate) = false
  /\ now < endTime (opened now month c)
  /\ candidateIsActive (candidateOf (opened now month c) candidate) = false
  /\ w' = set_circle (proposed sender candidate month now c) w.
Proof.
  unfold proposePayout, onlyActiveParticipant, onlyActiveCircle.
  intros H. cbv zeta. unfold proposed, opened, eligible.
  inv_M; prop_hyps;
    repeat match goal with
    | H : endTime _ = 0 |- _ => rewrite H in *
    | H : endTime _ ≠ 0 |- _ => rewrite (proj2 (N.eqb_neq _ _) H) in *
    | H : isActive _ = true |- _ => rewrite H
    | H : isInDefault _ = false |- _ => rewrite H
    end; cbn [negb andb N.eqb] in *; done.
Qed.

Lemma vote_Ok sender month candidate now w w' :
  vote sender month candidate now w = Ok (tt, w') ->
  let c := circle w in
  let proposal := proposalOf c month in
  let weight := CreditRegistry.getCreditScore (registry w) sender in
  eligible c sender = true
  /\ status c = ACTIVE
  /\ 0 < endTime proposal
  /\ now < endTime proposal
  /\ hasVoted (voteOf proposal sender) = false
  /\ candidateIsActive (candidateOf proposal candidate) = true
  /\ 0 < weight
  /\ w' = set_circle (voted sender month candidate weight c) w.
Proof.
  unfold vote, onlyActiveParticipant, onlyActiveCircle.
  intros H. cbv zeta. unfold voted, eligible.
  inv_M; prop_hyps;
    repeat match goal with
    | H : isActive _ = true |- _ => rewrite H
    | H : isInDefault _ = false |- _ => rewrite H
    end; cbn [negb andb]; done.
Qed.

Lemma withdrawExcess_Ok sender w w' :
  withdrawExcess sender w = Ok (tt, w') ->
  let c := circle w in
  let amount := withdrawableBalance (participantOf c sender) in
  let w1 := set_circle
              (set_participant sender
                 (set_withdrawableBalance 0 (participantOf c sender)) c) w in
  eligible c sender = true
  /\ excessDistributionMethod c = WITHDRAWABLE
  /\ 0 < amount
  /\ amount <= balanceOf w (circleAddress w)
  /\ receiveHook (circleAddress w) sender amount
       (moveValue (circleAddress w) sender amount w1) = Ok w'.
Proof.
  unfold withdrawExcess, onlyActiveParticipant.
  intros H. cbv zeta. unfold eligible.
  inv_M; prop_hyps;
    repeat match goal with
    | H : isActive _ = true |- _ => rewrite H
    | H : isInDefault _ = false |- _ => rewrite H
    end; cbn [negb andb]; done.
Qed.

Lemma recordLatePayment_Ok sender p month w w' :
  recordLatePayment sender p month w = Ok (tt, w') ->
  let c := circle w in
  sender = coordinator c
  /\ status c = ACTIVE
  /\ isActive (participantOf c p) = true
  /\ (month ∉ monthlyPayments (participantOf c p))
  /\ exists r,
       CreditRegistry.recordLatePayment p (registry w) = Ok r
       /\ w' = set_registry r
                 (set_circle
                    (set_participant p (set_paid month (participantOf c p)) c) w).
Proof.
  unfold recordLatePayment, onlyCoordinator, onlyActiveCircle.
  intros H. cbv zeta. inv_M; prop_hyps. split_all; try done. eauto.
Qed.

Lemma recordDefault_Ok sender p month w w' :
  recordDefault sender p month w = Ok (tt, w') ->
  let c := circle w in
  sender = coordinator c
  /\ status c = ACTIVE
  /\ isActive (participantOf c p) = true
  /\ exists r,
       CreditRegistry.recordDefault p (registry w) = Ok r
       /\ w' = set_registry r
                 (set_circle
                    (set_participant p
                       (set_isInDefault true (participantOf c p)) c) w).
Proof.
  unfold recordDefault, onlyCoordinator, onlyActiveCircle.
  intros H. cbv zeta. inv_M; prop_hyps. split_all; try done. eauto.
Qed.

End Voting.

Section ProposalLookups.

Lemma proposalOf_set_proposal m p c m' :
  proposalOf (set_proposal m p c) m'
  = if decide (m' = m) then p else proposalOf c m'.
Proof.
  unfold proposalOf, set_proposal; simpl.
  destruct (decide (m' = m)) as [->|Hne];
    [apply lookup_total_insert_eq | by apply lookup_total_insert_ne].
Qed.

Lemma candidateOf_set_candidate a v p b :
  candidateOf (set_candidate a v p) b
  = if decide (b = a) then v else candidateOf p b.
Proof.
  unfold candidateOf, set_candidate; simpl.
  destruct (decide (b = a)) as [->|Hne];
    [apply lookup_total_insert_eq | by apply lookup_total_insert_ne].
Qed.

Lemma voteOf_set_vote a v p b :
  voteOf (set_vote a v p) b = if decide (b = a) then v else voteOf p b.
Proof.
  unfold voteOf, set_vote; simpl.
  destruct (decide (b = a)) as [->|Hne];
    [apply lookup_total_insert_eq | by apply lookup_total_insert_ne].
Qed.

Lemma endTime_opened now month c :
  endTime (opened now month c)
  = if endTime (proposalOf c month) =? 0
    then now + votingPeriod c else endTime (proposalOf c month).
Proof. unfold opened. by destruct (_ =? _). Qed.

Lemma candidateOf_opened now month c a :
  candidateOf (opened now month c) a = candidateOf (proposalOf c month) a.
Proof. unfold opened. by destruct (_ =? _). Qed.

Lemma candidateList_opened now month c :
  candidateList (opened now month c) = candidateList (proposalOf c month).
Proof. unfold opened. by destruct (_ =? _). Qed.

Lemma voteOf_opened now month c a :
  voteOf (opened now month c) a = voteOf (proposalOf c month) a.
Proof. unfold opened. by destruct (_ =? _). Qed.

End ProposalLookups.

(** X12. A proposal that goes through appends the candidate to the list of
    the month with no votes, leaves the votes of the other candidates and
    the proposals of the other months unchanged, and fixes the end of the
    voting period at [now + votingPeriod] only when it is the first of the
    month; the voting period is open at that time, the same candidate
    cannot be proposed again, and a later proposal for the month does not
    move the end of the voting period. *)
Theorem proposal_registers_candidate
    (sender candidate : address) (month now : N) (w w' : World) :
  proposePayout sender candidate month now w = Ok (tt, w') ->
  getCandidates month w' = (getCandidates month w ++ [candidate])%list
  /\ getCandidateVotes month candidate w' = 0
  /\ (forall c2, c2 ≠ candidate ->
        getCandidateVotes month c2 w' = getCandidateVotes month c2 w)
  /\ endTime (proposalOf (circle w') month)
     = (if endTime (proposalOf (circle w) month) =? 0
        then now + votingPeriod (circle w)
        else endTime (proposalOf (circle w) month))
  /\ now < endTime (proposalOf (circle w') month)
  /\ isVotingPeriodEnded month now w' = false
  /\ (forall m', m' ≠ month ->
        proposalOf (circle w') m' = proposalOf (circle w) m')
  /\ (forall s now2, reverts (proposePayout s candidate month now2) w')
  /\ (forall s c2 now2 w'',
        proposePayout s c2 month now2 w' = Ok (tt, w'') ->
        endTime (proposalOf (circle w'') month)
        = endTime (proposalOf (circle w') month)).
Proof.
  intros H. apply proposePayout_Ok in H. cbv zeta in H.
  destruct H as (_ & _ & _ & _ & _ & _ & Hopen & Hnew & ->).
  assert (Hp : proposalOf (circle (set_circle
                 (proposed sender candidate month now (circle w)) w)) month
               = push_candidate candidate
                   (set_candidate candidate (mkCandidate candidate sender 0 true)
                      (opened now month (circle w)))).
  { cbn [circle set_circle]. unfold proposed.
    rewrite proposalOf_set_proposal. by rewrite decide_True. }
  assert (Hend : endTime (proposalOf (circle (set_circle
                   (proposed sender candidate month now (circle w)) w)) month)
                 = endTime (opened now month (circle w))) by (by rewrite Hp).
  unfold getCandidates, getCandidateVotes, isVotingPeriodEnded.
  rewrite Hend, Hp. split_all.
  - cbn [candidateList push_candidate set_candidate].
    by rewrite candidateList_opened.
  - change (candidateOf (push_candidate ?a ?p) ?b) with (candidateOf p b).
    rewrite candidateOf_set_candidate. by rewrite decide_True.
  - intros c2 Hc2.
    change (candidateOf (push_candidate ?a ?p) ?b) with (candidateOf p b).
    rewrite candidateOf_set_candidate, decide_False by done.
    by rewrite candidateOf_opened.
  - apply endTime_opened.
  - exact Hopen.
  - apply andb_false_iff. left. apply N.leb_gt. exact Hopen.
  - intros m' Hm'. cbn [circle set_circle]. unfold proposed.
    rewrite proposalOf_set_proposal. by rewrite decide_False.
  - intros s now2. apply reverts_intro. intros [] w'' H2.
    apply proposePayout_Ok in H2. cbv zeta in H2.
    destruct H2 as (_ & _ & _ & _ & _ & _ & _ & Hnew2 & _).
    rewrite candidateOf_opened, Hp in Hnew2.
    change (candidateOf (push_candidate ?a ?p) ?b) with (candidateOf p b) in Hnew2.
    rewrite candidateOf_set_candidate, decide_True in Hnew2 by done.
    discriminate.
  - intros s c2 now2 w'' H2.
    apply proposePayout_Ok in H2. cbv zeta in H2.
    destruct H2 as (_ & _ & _ & _ & _ & _ & _ & _ & ->).
    cbn [circle set_circle]. unfold proposed at 1.
    rewrite proposalOf_set_proposal, decide_True by done.
    change (endTime (push_candidate ?a (set_candidate ?b ?v ?p))) with (endTime p).
    rewrite endTime_opened.
    fold (proposed sender candidate month now (circle w)).
    change (proposalOf (proposed sender candidate month now (circle w)) month)
      with (proposalOf (circle (set_circle
              (proposed sender candidate month now (circle w)) w)) month).
    rewrite Hend.
    destruct (N.eqb_spec (endTime (opened now month (circle w))) 0); [lia|done].
Qed.

Lemma proposal_registers_candidate_witness :
  getCandidates 0
    (commit (proposePayout Scenario.alice Scenario.carol 0 7) (after 9 0))
  = (getCandidates 0 (after 9 0) ++ [Scenario.carol])%list.
Proof.
  assert (Hrun : proposePayout Scenario.alice Scenario.carol 0 7 (after 9 0)
                 = Ok (tt, commit (proposePayout Scenario.alice Scenario.carol 0 7)
                             (after 9 0)))
    by (vm_compute; reflexivity).
  exact (proj1 (proposal_registers_candidate _ _ _ _ _ _ Hrun)).
Defined.

(** X13. A vote that goes through adds the current credit score of the
    voter, which is positive, to the votes of the chosen candidate, leaves
    the votes of the other candidates, the candidate list, the end of the
    voting period, the votes of the other voters and the other months
    unchanged, records the vote, and the voter cannot vote again for that
    month, for any candidate. *)
Theorem vote_adds_credit_score_once
    (sender : address) (month : N) (candidate : address) (now : N) (w w' : World) :
  vote sender month candidate now w = Ok (tt, w') ->
  let weight := CreditRegistry.getCreditScore (registry w) sender in
  0 < weight
  /\ getCandidateVotes month candidate w' = getCandidateVotes month candidate w + weight
  /\ (forall c2, c2 ≠ candidate ->
        getCandidateVotes month c2 w' = getCandidateVotes month c2 w)
  /\ getCandidates month w' = getCandidates month w
  /\ endTime (proposalOf (circle w') month) = endTime (proposalOf (circle w) month)
  /\ voteOf (proposalOf (circle w') month) sender
     = mkVote sender candidate weight true
  /\ (forall v, v ≠ sender ->
        voteOf (proposalOf (circle w') month) v
        = voteOf (proposalOf (circle w) month) v)
  /\ (forall m', m' ≠ month ->
        proposalOf (circle w') m' = proposalOf (circle w) m')
  /\ registry w' = registry w
  /\ (forall c2 now2, reverts (vote sender month c2 now2) w').
Proof.
  intros H weight. apply vote_Ok in H. cbv zeta in H.
  destruct H as (_ & _ & _ & _ & Hnot & Hcand & Hpos & ->).
  fold weight in Hpos |- *.
  assert (Hp : proposalOf (circle (set_circle
                 (voted sender month candidate weight (circle w)) w)) month
               = set_candidate candidate
                   (set_totalVotes
                      (totalVotes (candidateOf (proposalOf (circle w) month) candidate)
                       + weight)
                      (candidateOf (proposalOf (circle w) month) candidate))
                   (push_voter sender
                      (set_vote sender (mkVote sender candidate weight true)
                         (proposalOf (circle w) month)))).
  { cbn [circle set_circle]. unfold voted.
    rewrite proposalOf_set_proposal. by rewrite decide_True. }
  unfold getCandidates, getCandidateVotes. rewrite Hp. split_all.
  - exact Hpos.
  - rewrite candidateOf_set_candidate. by rewrite decide_True.
  - intros c2 Hc2. rewrite candidateOf_set_candidate. by rewrite decide_False.
  - done.
  - done.
  - change (voteOf (set_candidate ?a ?v (push_voter ?s ?p)) ?b) with (voteOf p b).
    rewrite voteOf_set_vote. by rewrite decide_True.
  - intros v Hv.
    change (voteOf (set_candidate ?a ?x (push_voter ?s ?p)) ?b) with (voteOf p b).
    rewrite voteOf_set_vote. by rewrite decide_False.
  - intros m' Hm'. cbn [circle set_circle]. unfold voted.
    rewrite proposalOf_set_proposal. by rewrite decide_False.
  - done.
  - intros c2 now2. apply reverts_intro. intros [] w'' H2.
    apply vote_Ok in H2. cbv zeta in H2.
    destruct H2 as (_ & _ & _ & _ & Hnot2 & _).
    rewrite Hp in Hnot2.
    change (voteOf (set_candidate ?a ?x (push_voter ?s ?p)) ?b)
      with (voteOf p b) in Hnot2.
    rewrite voteOf_set_vote, decide_True in Hnot2 by done. discriminate.
Qed.

Lemma vote_adds_credit_score_once_witness :
  getCandidateVotes 0 Scenario.bob
    (commit (vote Scenario.alice 0 Scenario.bob 8) (after 10 0)) = 310.
Proof.
  assert (Hrun : vote Scenario.alice 0 Scenario.bob 8 (after 10 0)
                 = Ok (tt, commit (vote Scenario.alice 0 Scenario.bob 8) (after 10 0)))
    by (vm_compute; reflexivity).
  pose proof (vote_adds_credit_score_once _ _ _ _ _ _ Hrun) as Hthm.
  cbv zeta in Hthm. destruct Hthm as (_ & Hvotes & _).
  etransitivity; [exact Hvotes|]. vm_compute. reflexivity.
Defined.

(** X14. A withdrawal of the excess that goes through, by an account that
    is neither of the two contracts: the withdrawable balance of the caller
    is positive and covered by the ether of the circle, the circle pays
    exactly that amount to the caller and nobody else's ether moves, the
    balance is zeroed, [poolBalance], the other records, the pool and the
    registry are unchanged, and a second withdrawal reverts. *)
Theorem withdrawal_pays_out_the_balance (sender : address) (w w' : World) :
  withdrawExcess sender w = Ok (tt, w') ->
  sender ≠ circleAddress w -> sender ≠ reserveAddress w ->
  let amount := withdrawableBalance (participantOf (circle w) sender) in
  0 < amount
  /\ amount <= balanceOf w (circleAddress w)
  /\ excessDistributionMethod (circle w) = WITHDRAWABLE
  /\ balanceOf w' sender = balanceOf w sender + amount
  /\ balanceOf w' (circleAddress w) = balanceOf w (circleAddress w) - amount
  /\ (forall a, a ≠ sender -> a ≠ circleAddress w -> balanceOf w' a = balanceOf w a)
  /\ withdrawableBalance (participantOf (circle w') sender) = 0
  /\ (forall a, a ≠ sender ->
        participantOf (circle w') a = participantOf (circle w) a)
  /\ poolBalance (circle w') = poolBalance (circle w)
  /\ reserve w' = reserve w
  /\ registry w' = registry w
  /\ reverts (withdrawExcess sender) w'.
Proof.
  intros H Hc Hr amount. apply withdrawExcess_Ok in H. cbv zeta in H.
  destruct H as (_ & Hm & Hpos & Hfunds & Hhook).
  fold amount in Hpos, Hfunds, Hhook.
  apply receiveHook_account in Hhook; [|done..]. subst w'.
  split_all; try done.
  - rewrite balanceOf_moveValue. rewrite decide_True by done.
    by rewrite decide_False by done.
  - rewrite balanceOf_moveValue. rewrite decide_False by done.
    by rewrite decide_True.
  - intros a Ha1 Ha2. rewrite balanceOf_moveValue. by rewrite !decide_False.
  - cbn [circle moveValue set_balances set_circle].
    rewrite participantOf_set_participant. by rewrite decide_True.
  - intros a Ha. cbn [circle moveValue set_balances set_circle].
    rewrite participantOf_set_participant. by rewrite decide_False.
  - apply reverts_intro. intros [] w'' H2.
    apply withdrawExcess_Ok in H2. cbv zeta in H2.
    destruct H2 as (_ & _ & Hpos2 & _).
    cbn [circle moveValue set_balances set_circle] in Hpos2.
    rewrite participantOf_set_participant, decide_True in Hpos2 by done.
    cbn in Hpos2. lia.
Qed.

Lemma withdrawal_pays_out_the_balance_witness :
  balanceOf (commit (withdrawExcess Scenario.alice) paidOut) Scenario.alice = 991.
Proof.
  assert (Hrun : withdrawExcess Scenario.alice paidOut
                 = Ok (tt, commit (withdrawExcess Scenario.alice) paidOut))
    by (vm_compute; reflexivity).
  assert (H1 : Scenario.alice ≠ circleAddress paidOut) by (vm_compute; discriminate).
  assert (H2 : Scenario.alice ≠ reserveAddress paidOut) by (vm_compute; discriminate).
  pose proof (withdrawal_pays_out_the_balance _ _ _ Hrun H1 H2) as Hthm.
  cbv zeta in Hthm. destruct Hthm as (_ & _ & _ & Hbal & _).
  etransitivity; [exact Hbal|]. vm_compute. reflexivity.
Defined.

Lemma getCreditScore_call op st st' :
  CreditRegistry.call op st = Ok st' ->
  Z.of_N (CreditRegistry.getCreditScore st' (subject op))
  = saturatingAdjustment op (Z.of_N (CreditRegistry.getCreditScore st (subject op))).
Proof.
  intros H. rewrite (getCreditScore_after _ _ _ H).
  by destruct (call_Ok _ _ _ H) as (_ & _ & -> & _).
Qed.

(** X9. A contribution that goes through, the pool being another contract
    than the circle: the value sent and the withdrawable balance consumed
    add up to [monthlyContribution]; of the value sent, the share
    [value * reservePercentage / 100] is booked in [totalReserveDeposited]
    and in the books of the reserve pool, and the rest in [poolBalance] (the
    balance consumed is booked nowhere); the month is marked paid, the
    other participants are untouched, the score of the sender moves to
    [min(score + 10, 1000)], and a second contribution for the month
    reverts. *)
Theorem contribution_is_split_between_pool_and_reserve
    (sender : address) (value month now : N) (w w' : World) :
  makeContribution sender value month now w = Ok (tt, w') ->
  reserveAddress w ≠ circleAddress w ->
  let c := circle w in
  let p := participantOf c sender in
  let ra := reserveShare c value in
  value + (withdrawableBalance p - balanceAfterDeduct c p) = monthlyContribution c
  /\ ra <= value
  /\ poolBalance (circle w') = poolBalance c + (value - ra)
  /\ totalReserveDeposited (circle w') = totalReserveDeposited c + ra
  /\ ReservePool.currentBalance (reserve w')
     = ReservePool.currentBalance (reserve w) + ra
  /\ ReservePool.totalDeposited (reserve w')
     = ReservePool.totalDeposited (reserve w) + ra
  /\ withdrawableBalance (participantOf (circle w') sender) = balanceAfterDeduct c p
  /\ hasPaidForMonth sender month w = false
  /\ hasPaidForMonth sender month w' = true
  /\ (forall a, a ≠ sender ->
        participantOf (circle w') a = participantOf c a)
  /\ Z.of_N (CreditRegistry.getCreditScore (registry w') sender)
     = Z.min (Z.of_N (CreditRegistry.getCreditScore (registry w) sender) + 10) 1000
  /\ (forall v2 now2, reverts (makeContribution sender v2 month now2) w').
Proof.
  intros H Hne c p ra.
  pose proof (makeContribution_Ok _ _ _ _ _ _ H) as Hok. cbv zeta in Hok.
  destruct Hok as (_ & _ & _ & _ & Hunpaid & Hdue & Hra & _).
  pose proof (makeContribution_effect _ _ _ _ _ _ H Hne) as Heff.
  cbv zeta in Heff.
  destruct Heff as (Hc & (r & Hr & Hreg) & Hres & _ & _ & _).
  fold c in Hc, Hres, Hunpaid, Hdue, Hra. fold ra in Hres, Hra. fold p in Hunpaid, Hdue.
  assert (Hsender : participantOf (circle w') sender
                    = set_paymentTimestamp month now
                        (set_paid month
                           (set_withdrawableBalance (balanceAfterDeduct c p) p))).
  { rewrite Hc. unfold contributed. participantOf_norm. by rewrite decide_True. }
  split_all.
  - rewrite Hdue. apply amountDue_pays.
  - exact Hra.
  - by rewrite Hc.
  - by rewrite Hc.
  - rewrite Hres. destruct (N.ltb_spec 0 ra); simpl; lia.
  - rewrite Hres. destruct (N.ltb_spec 0 ra); simpl; lia.
  - by rewrite Hsender.
  - unfold hasPaidForMonth. by apply bool_decide_eq_false.
  - unfold hasPaidForMonth. rewrite Hsender. apply bool_decide_eq_true.
    cbn. set_solver.
  - intros a Ha. rewrite Hc. unfold contributed. participantOf_norm.
    by rewrite decide_False.
  - rewrite Hreg.
    change (CreditRegistry.recordOnTimePayment sender (registry w))
      with (CreditRegistry.call (CreditRegistry.OnTimePayment sender) (registry w))
      in Hr.
    apply (getCreditScore_call (CreditRegistry.OnTimePayment sender) _ _ Hr).
  - intros v2 now2. apply reverts_intro. intros [] w'' H2.
    apply makeContribution_Ok in H2. cbv zeta in H2.
    destruct H2 as (_ & _ & _ & _ & Hunpaid2 & _).
    rewrite Hsender in Hunpaid2. apply Hunpaid2. cbn. set_solver.
Qed.

Lemma contribution_is_split_between_pool_and_reserve_witness :
  poolBalance (circle (commit (makeContribution Scenario.alice 10 0 5) (after 4 10)))
  = 9
  /\ ReservePool.currentBalance
       (reserve (commit (makeContribution Scenario.alice 10 0 5) (after 4 10)))
     = 1.
Proof.
  assert (Hrun : makeContribution Scenario.alice 10 0 5 (after 4 10)
                 = Ok (tt, commit (makeContribution Scenario.alice 10 0 5) (after 4 10)))
    by (vm_compute; reflexivity).
  assert (Hne : reserveAddress (after 4 10) ≠ circleAddress (after 4 10))
    by (vm_compute; discriminate).
  pose proof (contribution_is_split_between_pool_and_reserve _ _ _ _ _ _ Hrun Hne)
    as Hthm.
  cbv zeta in Hthm. destruct Hthm as (_ & _ & Hpool & _ & Hres & _).
  split.
  - etransitivity; [exact Hpool|]. vm_compute. reflexivity.
  - etransitivity; [exact Hres|]. vm_compute. reflexivity.
Defined.

(** X10. [recordLatePayment] goes through only for the coordinator on an
    ACTIVE circle, for a month that the participant has not paid: it marks
    the month paid without collecting anything ([poolBalance], the pool and
    all balances are unchanged), moves the score of the participant to
    [max(score - 20, 0)] and counts one more late payment; afterwards
    neither a contribution of the participant for that month nor a second
    record goes through. *)
Theorem late_payment_closes_the_month
    (sender p : address) (month : N) (w w' : World) :
  recordLatePayment sender p month w = Ok (tt, w') ->
  sender = coordinator (circle w)
  /\ status (circle w) = ACTIVE
  /\ hasPaidForMonth p month w = false
  /\ hasPaidForMonth p month w' = true
  /\ poolBalance (circle w') = poolBalance (circle w)
  /\ balances w' = balances w
  /\ reserve w' = reserve w
  /\ Z.of_N (CreditRegistry.getCreditScore (registry w') p)
     = Z.max (Z.of_N (CreditRegistry.getCreditScore (registry w) p) - 20) 0
  /\ CreditRegistry.latePayments (CreditRegistry.getCreditProfile (registry w') p)
     = CreditRegistry.latePayments (CreditRegistry.getCreditProfile (registry w) p) + 1
  /\ (forall value now, reverts (makeContribution p value month now) w')
  /\ (forall s, reverts (recordLatePayment s p month) w').
Proof.
  intros H. apply recordLatePayment_Ok in H. cbv zeta in H.
  destruct H as (Hs & Hact & _ & Hunpaid & r & Hr & ->).
  assert (Hp : participantOf
                 (circle (set_registry r
                    (set_circle
                       (set_participant p
                          (set_paid month (participantOf (circle w) p)) (circle w)) w))) p
               = set_paid month (participantOf (circle w) p)).
  { cbn [circle set_registry set_circle]. participantOf_norm. by rewrite decide_True. }
  change (CreditRegistry.recordLatePayment p (registry w))
    with (CreditRegistry.call (CreditRegistry.LatePayment p) (registry w)) in Hr.
  split_all; try done.
  - unfold hasPaidForMonth. by apply bool_decide_eq_false.
  - unfold hasPaidForMonth. rewrite Hp. apply bool_decide_eq_true. cbn. set_solver.
  - cbn [registry set_registry].
    apply (getCreditScore_call (CreditRegistry.LatePayment p) _ _ Hr).
  - cbn [registry set_registry].
    apply (call_counters _ _ _ (CreditRegistry.LatePayment p) Hr).
  - intros value now. apply reverts_intro. intros [] w'' H2.
    apply makeContribution_Ok in H2. cbv zeta in H2.
    destruct H2 as (_ & _ & _ & _ & Hunpaid2 & _).
    rewrite Hp in Hunpaid2. apply Hunpaid2. cbn. set_solver.
  - intros s. apply reverts_intro. intros [] w'' H2.
    apply recordLatePayment_Ok in H2. cbv zeta in H2.
    destruct H2 as (_ & _ & _ & Hunpaid2 & _).
    rewrite Hp in Hunpaid2. apply Hunpaid2. cbn. set_solver.
Qed.

Lemma late_payment_closes_the_month_witness :
  hasPaidForMonth Scenario.carol 0
    (commit (recordLatePayment Scenario.alice Scenario.carol 0) (after 6 0)) = true.
Proof.
  assert (Hrun : recordLatePayment Scenario.alice Scenario.carol 0 (after 6 0)
                 = Ok (tt, commit (recordLatePayment Scenario.alice Scenario.carol 0)
                             (after 6 0)))
    by (vm_compute; reflexivity).
  exact (proj1 (proj2 (proj2 (proj2
           (late_payment_closes_the_month _ _ _ _ _ Hrun))))).
Defined.

(** X8. [approveParticipant] goes through only for the coordinator, on a
    PENDING circle, for a participant that is not active yet; it makes that
    participant active, leaves every other record, the member list, the
    count, the registry, the pool and all balances unchanged, and the
    participant can from then on neither be approved again nor rejected. *)
Theorem approval_activates_the_participant (sender p : address) (w w' : World) :
  approveParticipant sender p w = Ok (tt, w') ->
  sender = coordinator (circle w)
  /\ status (circle w) = PENDING
  /\ isActive (participantOf (circle w) p) = false
  /\ isActive (participantOf (circle w') p) = true
  /\ participant (participantOf (circle w') p) = p
  /\ (forall a, a ≠ p -> participantOf (circle w') a = participantOf (circle w) a)
  /\ participantList (circle w') = participantList (circle w)
  /\ totalParticipants (circle w') = totalParticipants (circle w)
  /\ registry w' = registry w
  /\ reserve w' = reserve w
  /\ balances w' = balances w
  /\ (forall s, reverts (approveParticipant s p) w')
  /\ (forall s, reverts (rejectParticipant s p) w').
Proof.
  intros H. apply approveParticipant_Ok in H. cbv zeta in H.
  destruct H as (Hs & Hpend & Haddr & Hinactive & ->).
  assert (Hp : forall a,
    participantOf (circle (set_circle
      (if minParticipants (circle w) <=? totalParticipants (circle w)
       then set_status ACTIVE
              (set_participant p (set_isActive true (participantOf (circle w) p))
                 (circle w))
       else set_participant p (set_isActive true (participantOf (circle w) p))
              (circle w)) w)) a
    = if decide (a = p) then set_isActive true (participantOf (circle w) p)
      else participantOf (circle w) a).
  { intros a. cbn [circle set_circle].
    destruct (_ <=? _); participantOf_norm; done. }
  split_all; try done.
  - rewrite Hp. by rewrite decide_True.
  - rewrite Hp. by rewrite decide_True.
  - intros a Ha. rewrite Hp. by rewrite decide_False.
  - cbn [circle set_circle]. by destruct (_ <=? _).
  - cbn [circle set_circle]. by destruct (_ <=? _).
  - intros s. apply reverts_intro. intros [] w'' H2.
    apply approveParticipant_Ok in H2. cbv zeta in H2.
    destruct H2 as (_ & _ & _ & Hinactive2 & _).
    rewrite Hp, decide_True in Hinactive2 by done. discriminate.
  - intros s. apply reverts_intro. intros [] w'' H2.
    apply rejectParticipant_Ok in H2. cbv zeta in H2.
    destruct H2 as (_ & _ & _ & Hinactive2 & _).
    rewrite Hp, decide_True in Hinactive2 by done. discriminate.
Qed.

Lemma approval_activates_the_participant_witness :
  isActive (participantOf
              (circle (commit (approveParticipant Scenario.alice Scenario.bob) bobPending))
              Scenario.bob) = true.
Proof.
  assert (Hrun : approveParticipant Scenario.alice Scenario.bob bobPending
                 = Ok (tt, commit (approveParticipant Scenario.alice Scenario.bob)
                             bobPending))
    by (vm_compute; reflexivity).
  exact (proj1 (proj2 (proj2 (proj2
           (approval_activates_the_participant _ _ _ _ Hrun))))).
Defined.

Section DefaultLockout.

Lemma onlyActiveParticipant_inDefault p w :
  inDefault p w -> eligible (circle w) p = false.
Proof. unfold inDefault, eligible. intros ->. apply andb_false_r. Qed.

End DefaultLockout.

(** X11. [recordDefault] goes through only for the coordinator on an ACTIVE
    circle, for an active participant: it sets [isInDefault], keeps the
    withdrawable balance and the other records, moves the score to
    [max(score - 100, 0)] and counts one more default.  In any state in
    which a participant is in default it can neither propose a candidate,
    nor be proposed, nor vote. *)
Theorem default_locks_the_participant_out
    (sender p : address) (month : N) (w w' : World) :
  recordDefault sender p month w = Ok (tt, w') ->
  sender = coordinator (circle w)
  /\ status (circle w) = ACTIVE
  /\ isActive (participantOf (circle w) p) = true
  /\ inDefault p w'
  /\ withdrawableBalance (participantOf (circle w') p)
     = withdrawableBalance (participantOf (circle w) p)
  /\ (forall a, a ≠ p -> participantOf (circle w') a = participantOf (circle w) a)
  /\ Z.of_N (CreditRegistry.getCreditScore (registry w') p)
     = Z.max (Z.of_N (CreditRegistry.getCreditScore (registry w) p) - 100) 0
  /\ CreditRegistry.defaults (CreditRegistry.getCreditProfile (registry w') p)
     = CreditRegistry.defaults (CreditRegistry.getCreditProfile (registry w) p) + 1
  /\ (forall ws, inDefault p ws ->
        (forall c m now, reverts (proposePayout p c m now) ws)
        /\ (forall s m now, reverts (proposePayout s p m now) ws)
        /\ (forall m c now, reverts (vote p m c now) ws)).
Proof.
  intros H. apply recordDefault_Ok in H. cbv zeta in H.
  destruct H as (Hs & Hact & Hactive & r & Hr & ->).
  change (CreditRegistry.recordDefault p (registry w))
    with (CreditRegistry.call (CreditRegistry.Default p) (registry w)) in Hr.
  split_all; try done.
  - unfold inDefault. cbn [circle set_registry set_circle].
    participantOf_norm. by rewrite decide_True.
  - cbn [circle set_registry set_circle]. participantOf_norm.
    by rewrite decide_True.
  - intros a Ha. cbn [circle set_registry set_circle]. participantOf_norm.
    by rewrite decide_False.
  - cbn [registry set_registry].
    apply (getCreditScore_call (CreditRegistry.Default p) _ _ Hr).
  - cbn [registry set_registry].
    apply (call_counters _ _ _ (CreditRegistry.Default p) Hr).
  - intros ws Hws. pose proof (onlyActiveParticipant_inDefault p ws Hws) as Hel.
    split_all.
    + intros c m now. apply reverts_intro. intros [] w'' H2.
      apply proposePayout_Ok in H2. cbv zeta in H2.
      destruct H2 as (Hel2 & _). congruence.
    + intros s m now. apply reverts_intro. intros [] w'' H2.
      apply proposePayout_Ok in H2. cbv zeta in H2.
      destruct H2 as (_ & _ & _ & _ & _ & Hnd & _).
      unfold inDefault in Hws. congruence.
    + intros m c now. apply reverts_intro. intros [] w'' H2.
      apply vote_Ok in H2. cbv zeta in H2.
      destruct H2 as (Hel2 & _). congruence.
Qed.

Lemma default_locks_the_participant_out_witness :
  inDefault Scenario.bob
    (commit (recordDefault Scenario.alice Scenario.bob 0) withExcess).
Proof.
  assert (Hrun : recordDefault Scenario.alice Scenario.bob 0 withExcess
                 = Ok (tt, commit (recordDefault Scenario.alice Scenario.bob 0)
                             withExcess))
    by (vm_compute; reflexivity).
  exact (proj1 (proj2 (proj2 (proj2
           (default_locks_the_participant_out _ _ _ _ _ Hrun))))).
Defined.

Section Construction.

Lemma constructor_Ok a w0 w1 :
  constructor a w0 = Ok (tt, w1) ->
  let score := CreditRegistry.getCreditScore (registry w0) (_creator a) in
  (_creator a ≠ 0
   /\ 0 < _monthlyContribution a
   /\ 0 < _durationInMonths a
   /\ 2 <= _minParticipants a
   /\ _minParticipants a <= _maxParticipants a
   /\ _reservePercentage a <= 100
   /\ _creditRegistry a ≠ 0
   /\ _reservePool a ≠ 0
   /\ _monthlyContribution a <= score * MAX_CONTRIBUTION_PER_CREDIT
   /\ _maxParticipants a <= score * MAX_PARTICIPANTS_PER_CREDIT
   /\ _monthlyContribution a * _maxParticipants a * _durationInMonths a
      <= score * MAX_EXPOSURE_PER_CREDIT)
  /\ exists r,
       CreditRegistry.recordCircleJoin (_creator a) (registry w0) = Ok r
       /\ w1 = set_registry r
                 (set_circle
                    (mkState (_creator a) (_creator a) (_monthlyContribution a)
                       (_durationInMonths a) (_minParticipants a)
                       (_maxParticipants a) (_reservePercentage a)
                       (_excessDistributionMethod a) PENDING 0 1 0 0
                       {[ _creator a :=
                            mkParticipant (_creator a) true false false 0 ∅ ∅ ]}
                       [_creator a] ∅ (7 * days) false) w0).
Proof.
  unfold constructor. intros H. cbv zeta. inv_M. prop_hyps.
  split; [split_all; done|]. eauto.
Qed.

End Construction.

(** X15. A deployment that goes through has valid parameters (a creator,
    a positive contribution and duration, at least two participants and a
    maximum not below the minimum, a reserve share of at most 100) within
    the limits of the creator's credit score [s]: a contribution of at most
    [s] ether, at most [s] participants, a total exposure of at most [10 s]
    ether, so a score of at least 2.  The circle starts PENDING in month 0
    with the creator as coordinator and only, active, member, an empty
    pool and no proposal; the registry counts the join and keeps the
    score. *)
Theorem deployment_enforces_credit_limits (a : Params) (w0 w1 : World) :
  constructor a w0 = Ok (tt, w1) ->
  let score := CreditRegistry.getCreditScore (registry w0) (_creator a) in
  (_creator a ≠ 0
   /\ 0 < _monthlyContribution a
   /\ 0 < _durationInMonths a
   /\ 2 <= _minParticipants a
   /\ _minParticipants a <= _maxParticipants a
   /\ _reservePercentage a <= 100
   /\ _creditRegistry a ≠ 0
   /\ _reservePool a ≠ 0)
  /\ (_monthlyContribution a <= score * (1 * 10 ^ 18)
      /\ _maxParticipants a <= score
      /\ _monthlyContribution a * _maxParticipants a * _durationInMonths a
         <= score * (10 * 10 ^ 18)
      /\ 2 <= score)
  /\ (status (circle w1) = PENDING
      /\ currentMonth (circle w1) = 0
      /\ creator (circle w1) = _creator a
      /\ coordinator (circle w1) = _creator a
      /\ participantList (circle w1) = [_creator a]
      /\ totalParticipants (circle w1) = 1
      /\ poolBalance (circle w1) = 0
      /\ _locked (circle w1) = false
      /\ votingPeriod (circle w1) = 604800
      /\ participantOf (circle w1) (_creator a)
         = mkParticipant (_creator a) true false false 0 ∅ ∅
      /\ (forall b, b ≠ _creator a ->
            isActive (participantOf (circle w1) b) = false)
      /\ (forall m, getCandidates m w1 = []))
  /\ CreditRegistry.circlesJoined
       (CreditRegistry.getCreditProfile (registry w1) (_creator a))
     = CreditRegistry.circlesJoined
         (CreditRegistry.getCreditProfile (registry w0) (_creator a)) + 1
  /\ CreditRegistry.getCreditScore (registry w1) (_creator a) = score
  /\ reserve w1 = reserve w0
  /\ balances w1 = balances w0.
Proof.
  intros H score. apply constructor_Ok in H. cbv zeta in H. fold score in H.
  destruct H as ((H1 & H2 & H3 & H4 & H5 & H6 & H7 & H8 & H9 & H10 & H11)
                 & r & Hr & ->).
  unfold MAX_CONTRIBUTION_PER_CREDIT, MAX_PARTICIPANTS_PER_CREDIT,
    MAX_EXPOSURE_PER_CREDIT, ether in *.
  change (CreditRegistry.recordCircleJoin (_creator a) (registry w0))
    with (CreditRegistry.call (CreditRegistry.CircleJoin (_creator a)) (registry w0))
    in Hr.
  split; [split_all; done|]. split; [split_all; try done; lia|].
  split; [|split_all; try done].
  - cbn [circle set_registry set_circle]. split_all; try done.
    + unfold participantOf. cbn [participants].
      apply lookup_total_singleton_eq.
    + intros b Hb. unfold participantOf. cbn [participants].
      by rewrite lookup_total_singleton_ne.
  - cbn [registry set_registry].
    apply (call_counters _ _ _ (CreditRegistry.CircleJoin (_creator a)) Hr).
  - cbn [registry set_registry].
    pose proof (getCreditScore_call _ _ _ Hr) as Hs. cbn in Hs. lia.
Qed.

Lemma deployment_enforces_credit_limits_witness :
  status (circle (Scenario.deployed 0)) = PENDING
  /\ participantList (circle (Scenario.deployed 0)) = [_creator (Scenario.params 0)].
Proof.
  assert (Hrun : constructor (Scenario.params 0) Scenario.genesis
                 = Ok (tt, Scenario.deployed 0)) by (vm_compute; reflexivity).
  pose proof (deployment_enforces_credit_limits _ _ _ Hrun) as Hthm.
  cbv zeta in Hthm. destruct Hthm as (_ & _ & (Hs & _ & _ & _ & Hl & _) & _).
  split; [exact Hs | exact Hl].
Defined.

End CircleOperations.

(** *** LendingCircle: the life cycle over histories *)

(** Projections of the storage through its writes. *)
Ltac circle_fields :=
  cbn [Circle.creator Circle.coordinator Circle.monthlyContribution
       Circle.durationInMonths Circle.minParticipants Circle.maxParticipants
       Circle.reservePercentage Circle.excessDistributionMethod Circle.status
       Circle.currentMonth Circle.totalParticipants Circle.poolBalance
       Circle.totalReserveDeposited Circle.participants Circle.participantList
       Circle.payoutProposals Circle.votingPeriod Circle._locked
       Circle.set_status Circle.set_currentMonth Circle.set_totalParticipants
       Circle.set_poolBalance Circle.set_totalReserveDeposited
       Circle.set_participants Circle.set_participantList
       Circle.set_payoutProposals Circle.set_locked Circle.set_participant
       Circle.set_proposal skeleton config] in *.

(** Rewriting with the equalities of the fields of two states. *)
Ltac same_fields :=
  unfold skeleton, config in *; circle_fields; simplify_eq;
  repeat match goal with
  | H : ?f ?x = ?f ?y |- _ => progress rewrite H
  end.

Section Machine.
Import Circle LendingCircle.

Lemma sameButFunds_refl c : sameButFunds c c.
Proof. by split. Qed.

Lemma sameButFunds_trans c1 c2 c3 :
  sameButFunds c1 c2 -> sameButFunds c2 c3 -> sameButFunds c1 c3.
Proof.
  intros [Hs1 Hm1] [Hs2 Hm2]. split; [congruence|].
  intros a. by rewrite Hm2, Hm1.
Qed.

Lemma sameButFunds_sym c1 c2 : sameButFunds c1 c2 -> sameButFunds c2 c1.
Proof. intros [Hs Hm]. split; [done|]. intros a. by rewrite Hm. Qed.

(** Writes to the funds. *)
Ltac funds :=
  split;
  [ reflexivity
  | let a := fresh "a" in
    intros a; participantOf_norm;
    try match goal with
        | |- context [decide (a = ?b)] => destruct (decide (a = b)) as [->|?]
        end;
    reflexivity ].

Lemma sameButFunds_poolBalance v c : sameButFunds c (set_poolBalance v c).
Proof. funds. Qed.

Lemma sameButFunds_withdrawable a v c :
  sameButFunds c
    (set_participant a (set_withdrawableBalance v (participantOf c a)) c).
Proof. funds. Qed.

Lemma sameButFunds_creditEntry per c a : sameButFunds c (creditEntry per c a).
Proof.
  unfold creditEntry. destruct (eligible c a); [|apply sameButFunds_refl].
  apply sameButFunds_withdrawable.
Qed.

Lemma sameButFunds_creditAll per l c : sameButFunds c (creditAll per l c).
Proof.
  unfold creditAll. revert c. induction l as [|a l IH]; intros c; simpl.
  - apply sameButFunds_refl.
  - eapply sameButFunds_trans; [apply sameButFunds_creditEntry | apply IH].
Qed.

Lemma receiveHook_sameButFunds from to v w w' :
  receiveHook from to v w = Ok w' -> sameButFunds (circle w) (circle w').
Proof.
  intros H. apply receiveHook_cases in H
    as [[_ ->]|[(_ & _ & r' & ->)|(_ & _ & ->)]].
  - apply sameButFunds_poolBalance.
  - apply sameButFunds_refl.
  - apply sameButFunds_refl.
Qed.

Lemma circleMove_funds c c' : sameButFunds c c' -> circleMove c c'.
Proof. intros H. exists c. split; [constructor | exact H]. Qed.

Lemma circleMove_step c c' : circleStep c c' -> circleMove c c'.
Proof. intros H. exists c'. split; [exact H | apply sameButFunds_refl]. Qed.

Lemma send_Ok s to v w w' :
  send s to v w = Ok (tt, w') ->
  v <= balanceOf w s /\ receiveHook s to v (moveValue s to v w) = Ok w'.
Proof. unfold send. intros H. inv_M. done. Qed.

Lemma withdrawFromReserve_circle s amount recipient w w' :
  withdrawFromReserve s amount recipient w = Ok (tt, w') ->
  sameButFunds (circle w) (circle w').
Proof.
  unfold withdrawFromReserve. intros H. inv_M.
  match goal with
  | Hh : receiveHook _ _ _ _ = Ok _ |- _ => apply receiveHook_sameButFunds in Hh
  end.
  done.
Qed.

Lemma depositToReserve_circle s v w w' :
  depositToReserve s v w = Ok (tt, w') -> circle w' = circle w.
Proof.
  unfold depositToReserve, payable. intros H. inv_M.
  match goal with
  | Hp : (if ?b then _ else _) = Ok _ |- _ => destruct b; [discriminate|]
  end.
  match goal with Hp : Ok _ = Ok _ |- _ => injection Hp as <- end.
  done.
Qed.


Lemma sameButLock_of c c' : sameButFunds c c' -> sameButLock c c'.
Proof.
  intros [Hs Hm]. split; [|exact Hm].
  same_fields. reflexivity.
Qed.

Lemma sameButLock_trans c1 c2 c3 :
  sameButLock c1 c2 -> sameButLock c2 c3 -> sameButLock c1 c3.
Proof. apply sameButFunds_trans. Qed.

Lemma sameButLock_locked b c : sameButLock c (set_locked b c).
Proof. split; [reflexivity|]. intros a. reflexivity. Qed.

Lemma sameButLock_proposalOf c c' m :
  sameButLock c c' -> proposalOf c' m = proposalOf c m.
Proof.
  intros [Hs _]. unfold proposalOf. same_fields. reflexivity.
Qed.

Lemma markPaid_sameButLock r a a' m c c' :
  sameButLock c c' -> sameButLock (markPaid r a m c) (markPaid r a' m c').
Proof.
  intros H. pose proof (sameButLock_proposalOf _ _ m H) as Hp.
  destruct H as [Hs Hm]. split.
  - unfold markPaid. rewrite Hp. clear Hp. same_fields. reflexivity.
  - intros b. specialize (Hm b). unfold markPaid.
    participantOf_norm.
    change (participantOf (set_locked false ?x) b) with (participantOf x b) in Hm.
    destruct (decide (b = r)) as [->|?]; [|exact Hm].
    unfold memberFlags in *. cbn. simplify_eq. congruence.
Qed.

Lemma advanceMonth_sameButLock c c' :
  sameButLock c c' -> sameButFunds (advanceMonth c) (advanceMonth c').
Proof.
  intros [Hs Hm]. split.
  - unfold advanceMonth. same_fields.
    destruct (_ <=? _); same_fields; reflexivity.
  - intros b. specialize (Hm b).
    change (participantOf (set_locked false ?x) b) with (participantOf x b) in Hm.
    unfold advanceMonth.
    destruct (_ <=? _), (_ <=? _); exact Hm.
Qed.

Lemma distributeExcess_sameButFunds month w w' :
  _distributeExcess month w = Ok (tt, w') -> sameButFunds (circle w) (circle w').
Proof.
  intros H. apply distributeExcess_Ok in H. cbv zeta in H.
  destruct (_ || _); subst w'; [apply sameButFunds_refl|].
  cbn [circle set_circle].
  eapply sameButFunds_trans;
    [apply sameButFunds_creditAll | apply sameButFunds_poolBalance].
Qed.

(** The state left by a payout: the winner is marked paid and the month
    advances; everything else that changes is funds. *)
Lemma executePayout_shape month now w w' :
  executePayout month now w = Ok (tt, w') ->
  circleStep (circle w)
    (advanceMonth (markPaid (_selectWinner month w) (expectedPool w) month
                     (circle w)))
  /\ sameButFunds
       (advanceMonth (markPaid (_selectWinner month w) (expectedPool w) month
                        (circle w)))
       (circle w').
Proof.
  intros H. apply executePayout_Ok in H. cbv zeta in H.
  destruct H as ((Hact & Hlock & [Hend _] & Hex & Hm & _ & Hactive & Hpaid & Hnd & _)
                 & w2 & w3 & reg & w5 & reg' & Hborrow & _ & _ & Hhook & _ & Hde & ->).
  split; [by constructor|].
  cbn [circle set_registry set_circle].
  apply advanceMonth_sameButLock.
  assert (H2 : sameButLock (circle w) (circle w2)).
  { destruct (_ <? _).
    - destruct Hborrow as (_ & _ & _ & ->). unfold afterBorrow.
      cbn [circle set_circle moveValue set_balances set_reserve].
      eapply sameButLock_trans; [apply (sameButLock_locked true)|].
      apply sameButLock_of, sameButFunds_poolBalance.
    - subst w2. apply sameButLock_locked. }
  apply receiveHook_sameButFunds in Hhook.
  apply distributeExcess_sameButFunds in Hde.
  cbn [circle set_registry set_circle moveValue set_balances] in Hhook, Hde.
  eapply sameButLock_trans; [apply markPaid_sameButLock; exact H2|].
  apply sameButLock_of.
  eapply sameButFunds_trans; [exact Hhook | exact Hde].
Qed.

Lemma executePayout_circleMove month now w w' :
  executePayout month now w = Ok (tt, w') -> circleMove (circle w) (circle w').
Proof. intros [Hstep Hsame]%executePayout_shape. eexists. eauto. Qed.


(** Every transaction that goes through is a move of the machine. *)
Lemma exec_circleMove now tx w w' :
  exec now tx w = Ok (tt, w') -> circleMove (circle w) (circle w').
Proof.
  destruct tx; cbn [exec]; intros H.
  - apply requestToJoin_Ok in H. cbv zeta in H.
    destruct H as (? & _ & ? & _ & r & _ & ->).
    apply circleMove_step. by apply StepJoin.
  - apply approveParticipant_Ok in H. cbv zeta in H.
    destruct H as (_ & ? & _ & ? & ->).
    apply circleMove_step. by apply StepApprove.
  - apply rejectParticipant_Ok in H. cbv zeta in H.
    destruct H as (_ & ? & _ & ? & _ & ->).
    apply circleMove_step. by apply StepReject.
  - apply makeContribution_Ok in H. cbv zeta in H.
    destruct H as (_ & Hel & Hact & _ & _ & _ & _ & w2 & r & Hhook & _ & ->).
    apply andb_true_iff in Hel as [Hactive _].
    exists (set_participant sender
              (set_paid month (participantOf (circle w) sender)) (circle w)).
    split; [by apply StepPaid|].
    cbn [circle set_registry].
    assert (H1 : sameButFunds
                   (set_participant sender
                      (set_paid month (participantOf (circle w) sender)) (circle w))
                   (contributed sender value month now (circle w))).
    { unfold contributed. split; [reflexivity|].
      intros a. participantOf_norm.
      destruct (decide (a = sender)) as [->|?]; reflexivity. }
    destruct (0 <? _).
    + destruct Hhook as [_ Hhook]. apply receiveHook_sameButFunds in Hhook.
      eapply sameButFunds_trans; [exact H1 | exact Hhook].
    + by subst w2.
  - apply proposePayout_Ok in H. cbv zeta in H.
    destruct H as (_ & ? & ? & _ & _ & _ & _ & ? & ->).
    apply circleMove_step. by apply StepPropose.
  - apply vote_Ok in H. cbv zeta in H.
    destruct H as (_ & ? & _ & _ & ? & ? & _ & ->).
    apply circleMove_step. by apply StepVote.
  - by eapply executePayout_circleMove.
  - apply recordLatePayment_Ok in H. cbv zeta in H.
    destruct H as (_ & ? & ? & _ & r & _ & ->).
    apply circleMove_step. by apply StepPaid.
  - apply recordDefault_Ok in H. cbv zeta in H.
    destruct H as (_ & ? & ? & r & _ & ->).
    apply circleMove_step. by apply StepDefault.
  - apply withdrawExcess_Ok in H. cbv zeta in H.
    destruct H as (_ & _ & _ & _ & Hhook).
    apply receiveHook_sameButFunds in Hhook.
    apply circleMove_funds.
    eapply sameButFunds_trans; [|exact Hhook].
    apply sameButFunds_withdrawable.
  - inv_M. apply send_Ok in H as [_ H].
    apply receiveHook_sameButFunds in H. by apply circleMove_funds.
  - inv_M. apply circleMove_funds, sameButFunds_refl.
  - unfold liftReserve in H. inv_M. apply circleMove_funds, sameButFunds_refl.
  - unfold liftReserve in H. inv_M. apply circleMove_funds, sameButFunds_refl.
  - apply depositToReserve_circle in H. rewrite H.
    apply circleMove_funds, sameButFunds_refl.
  - apply withdrawFromReserve_circle in H. by apply circleMove_funds.
  - inv_M. apply send_Ok in H as [_ H].
    apply receiveHook_sameButFunds in H. by apply circleMove_funds.
Qed.

End Machine.

Section MachineInvariants.
Import Circle LendingCircle.

Lemma sameButFunds_fields c c' :
  sameButFunds c c' ->
  config c' = config c
  /\ status c' = status c
  /\ currentMonth c' = currentMonth c
  /\ durationInMonths c' = durationInMonths c
  /\ totalParticipants c' = totalParticipants c
  /\ participantList c' = participantList c
  /\ payoutProposals c' = payoutProposals c
  /\ _locked c' = _locked c.
Proof.
  intros [Hs _]. same_fields. done.
Qed.

Lemma sameButFunds_flags c c' a :
  sameButFunds c c' ->
  participant (participantOf c' a) = participant (participantOf c a)
  /\ isActive (participantOf c' a) = isActive (participantOf c a)
  /\ hasReceivedPayout (participantOf c' a) = hasReceivedPayout (participantOf c a)
  /\ isInDefault (participantOf c' a) = isInDefault (participantOf c a)
  /\ monthlyPayments (participantOf c' a) = monthlyPayments (participantOf c a).
Proof.
  intros [_ Hm]. specialize (Hm a). unfold memberFlags in Hm. by simplify_eq.
Qed.

Lemma sameButFunds_proposalOf c c' m :
  sameButFunds c c' -> proposalOf c' m = proposalOf c m.
Proof.
  intros (_ & _ & _ & _ & _ & _ & Hp & _)%sameButFunds_fields.
  unfold proposalOf. by rewrite Hp.
Qed.

(** The skeleton of the state written by a step. *)
Lemma circleStep_fields c c1 :
  circleStep c c1 ->
  config c1 = config c
  /\ durationInMonths c1 = durationInMonths c
  /\ ((status c1 = status c /\ currentMonth c1 = currentMonth c
       /\ _locked c1 = _locked c)
      \/ (status c = PENDING /\ status c1 = ACTIVE
          /\ currentMonth c1 = currentMonth c /\ _locked c1 = _locked c)
      \/ (status c = ACTIVE /\ _locked c = false /\ _locked c1 = false
          /\ currentMonth c1 = currentMonth c + 1
          /\ status c1 = (if durationInMonths c <=? currentMonth c + 1
                          then COMPLETED else ACTIVE))).
Proof.
  intros H. destruct H;
    try (split; [reflexivity|]; split; [reflexivity|]; left; done).
  - unfold approved. destruct (_ <=? _).
    + split; [reflexivity|]. split; [reflexivity|]. right. left. done.
    + split; [reflexivity|]. split; [reflexivity|]. left. done.
  - unfold advanceMonth, markPaid.
    cbn [durationInMonths currentMonth set_proposal set_payoutProposals
         set_poolBalance set_participant set_participants].
    destruct (_ <=? _);
      (split; [reflexivity|]; split; [reflexivity|]; right; right; done).
Qed.

Lemma circleMove_fields c c' :
  circleMove c c' ->
  config c' = config c
  /\ durationInMonths c' = durationInMonths c
  /\ ((status c' = status c /\ currentMonth c' = currentMonth c
       /\ _locked c' = _locked c)
      \/ (status c = PENDING /\ status c' = ACTIVE
          /\ currentMonth c' = currentMonth c /\ _locked c' = _locked c)
      \/ (status c = ACTIVE /\ _locked c = false /\ _locked c' = false
          /\ currentMonth c' = currentMonth c + 1
          /\ status c' = (if durationInMonths c <=? currentMonth c + 1
                          then COMPLETED else ACTIVE))).
Proof.
  intros (c1 & Hstep & Hsame).
  apply circleStep_fields in Hstep as (Hc & Hd & Hcases).
  apply sameButFunds_fields in Hsame
    as (Hc' & Hs' & Hm' & Hd' & _ & _ & _ & Hl').
  rewrite Hc', Hs', Hm', Hd', Hl'. done.
Qed.

Lemma circleMove_lifecycle c c' :
  circleMove c c' -> lifecycleOK c ->
  lifecycleOK c'
  /\ rank (status c) <= rank (status c')
  /\ currentMonth c <= currentMonth c'.
Proof.
  intros Hmove (Hnc & Hl & Hd & Hp & Ha & Hcomp).
  apply circleMove_fields in Hmove as (_ & Hd' & Hcases).
  unfold lifecycleOK. rewrite Hd'.
  destruct Hcases as [(-> & -> & ->)|[(Hs & -> & -> & ->)|(Hs & _ & -> & -> & ->)]].
  - split_all; try done; lia.
  - rewrite Hs. specialize (Hp Hs). cbn. split_all; try done; try lia.
  - rewrite Hs. specialize (Ha Hs).
    destruct (N.leb_spec (durationInMonths c) (currentMonth c + 1));
      cbn; split_all; try done; try lia.
Qed.

Lemma runTrace_moves tr w : rtc circleMove (circle w) (circle (runTrace tr w)).
Proof.
  revert w. induction tr as [|[now tx] tr IH]; intros w; simpl; [done|].
  eapply rtc_trans; [|apply IH].
  unfold transact, commit. cbn [fst snd].
  destruct (exec now tx w) as [[[] w']|] eqn:H; [|done].
  apply rtc_once. by eapply exec_circleMove.
Qed.

Lemma rtc_lifecycle c c' :
  rtc circleMove c c' -> lifecycleOK c ->
  lifecycleOK c'
  /\ rank (status c) <= rank (status c')
  /\ currentMonth c <= currentMonth c'.
Proof.
  induction 1 as [c|c c1 c2 Hmove _ IH]; intros HJ.
  - split_all; [done|lia|lia].
  - destruct (circleMove_lifecycle _ _ Hmove HJ) as (HJ1 & Hr1 & Hm1).
    destruct (IH HJ1) as (HJ2 & Hr2 & Hm2). split_all; [done|lia|lia].
Qed.

Lemma rtc_config c c' : rtc circleMove c c' -> config c' = config c.
Proof.
  induction 1 as [c|c c1 c2 Hmove _ IH]; [done|].
  apply circleMove_fields in Hmove as (Hc & _). congruence.
Qed.

Lemma constructor_lifecycle a w0 w1 :
  constructor a w0 = Ok (tt, w1) -> lifecycleOK (circle w1).
Proof.
  intros H. apply constructor_Ok in H. cbv zeta in H.
  destruct H as ((_ & _ & Hd & _) & r & _ & ->).
  cbn [circle set_registry set_circle]. unfold lifecycleOK. cbn.
  split_all; try done.
Qed.

End MachineInvariants.

Section MachineMembers.
Import Circle LendingCircle.

(** Reading a participant of the state written by a payout. *)
Lemma participantOf_payout r amount month c a :
  participantOf (advanceMonth (markPaid r amount month c)) a
  = if decide (a = r) then set_hasReceivedPayout true (participantOf c r)
    else participantOf c a.
Proof.
  rewrite advanceMonth_participantOf. unfold markPaid. by participantOf_norm.
Qed.

Lemma circleStep_members c c1 :
  circleStep c c1 -> status c ≠ PENDING -> membersKept c c1.
Proof.
  intros H Hs. destruct H; try congruence.
  - unfold membersKept. split_all; done.
  - split; [exact Hs|]. split; [reflexivity|]. split; [reflexivity|].
    intros a. participantOf_norm.
    destruct (decide (a = p)) as [->|?]; done.
  - split; [exact Hs|]. split; [reflexivity|]. split; [reflexivity|].
    intros a. participantOf_norm.
    destruct (decide (a = p)) as [->|?]; done.
  - split; [exact Hs|]. split; [reflexivity|]. split; [reflexivity|]. done.
  - split; [exact Hs|]. split; [reflexivity|]. split; [reflexivity|]. done.
  - split.
    { unfold advanceMonth, markPaid.
      destruct (_ <=? _); circle_fields; congruence. }
    split; [unfold advanceMonth, markPaid; by destruct (_ <=? _)|].
    split; [unfold advanceMonth, markPaid; by destruct (_ <=? _)|].
    intros a. rewrite participantOf_payout.
    destruct (decide (a = r)) as [->|?]; done.
Qed.

Lemma sameButFunds_members c c' :
  sameButFunds c c' -> status c ≠ PENDING -> membersKept c c'.
Proof.
  intros H Hs.
  pose proof (sameButFunds_fields _ _ H) as (_ & Hs' & _ & _ & Ht & Hl & _).
  unfold membersKept. split_all; try congruence.
  intros a. destruct (sameButFunds_flags _ _ a H) as (-> & -> & -> & -> & _).
  done.
Qed.

Lemma membersKept_trans c1 c2 c3 :
  membersKept c1 c2 -> membersKept c2 c3 -> membersKept c1 c3.
Proof.
  intros (_ & Hl1 & Ht1 & Hf1) (Hs2 & Hl2 & Ht2 & Hf2).
  unfold membersKept. split_all; try congruence.
  intros a. destruct (Hf1 a) as (Hp1 & Ha1 & Hr1 & Hd1).
  destruct (Hf2 a) as (Hp2 & Ha2 & Hr2 & Hd2).
  split_all; try congruence; auto.
Qed.

Lemma circleMove_members c c' :
  circleMove c c' -> status c ≠ PENDING -> membersKept c c'.
Proof.
  intros (c1 & Hstep & Hsame) Hs.
  pose proof (circleStep_members _ _ Hstep Hs) as H1.
  eapply membersKept_trans; [exact H1|].
  apply sameButFunds_members; [exact Hsame|]. by destruct H1.
Qed.

Lemma rtc_members c c' :
  rtc circleMove c c' -> status c ≠ PENDING -> membersKept c c'.
Proof.
  induction 1 as [c|c c1 c2 Hmove _ IH]; intros Hs.
  - unfold membersKept. split_all; done.
  - pose proof (circleMove_members _ _ Hmove Hs) as H1.
    eapply membersKept_trans; [exact H1|]. apply IH. by destruct H1.
Qed.

Lemma filter_length_mono (P Q : address -> Prop)
    `{!forall a, Decision (P a)} `{!forall a, Decision (Q a)} (l : list address) :
  (forall a, P a -> Q a) -> (length (filter P l) <= length (filter Q l))%nat.
Proof.
  intros HPQ. induction l as [|a l IH]; [done|].
  rewrite !filter_cons.
  destruct (decide (P a)) as [HP|HP].
  - rewrite decide_True by auto. simpl. lia.
  - destruct (decide (Q a)); simpl; lia.
Qed.

Lemma membersKept_eligible c c' a :
  membersKept c c' -> eligible c' a = true -> eligible c a = true.
Proof.
  intros (_ & _ & _ & Hf) He. destruct (Hf a) as (_ & Ha & _ & Hd).
  unfold eligible in *. apply andb_true_iff in He as [He1 He2].
  apply negb_true_iff in He2. rewrite <- Ha, He1. cbn [andb].
  destruct (isInDefault (participantOf c a)); [|done].
  rewrite Hd in He2 by done. discriminate.
Qed.

Lemma membersKept_count w w' :
  membersKept (circle w) (circle w') ->
  _getActiveParticipantCount w' <= _getActiveParticipantCount w.
Proof.
  intros H. rewrite !activeCount_filter.
  destruct H as (Hs & Hl & Ht & Hf). rewrite Hl.
  pose proof (filter_length_mono
                (fun a => eligible (circle w') a = true)
                (fun a => eligible (circle w) a = true)
                (participantList (circle w))
                (fun a => membersKept_eligible _ _ a
                            (conj Hs (conj Hl (conj Ht Hf))))).
  lia.
Qed.

End MachineMembers.

Section MachineProposals.
Import Circle LendingCircle.

Lemma advanceMonth_proposalOf c m : proposalOf (advanceMonth c) m = proposalOf c m.
Proof. unfold advanceMonth. by destruct (_ <=? _). Qed.

Lemma advanceMonth_currentMonth c : currentMonth (advanceMonth c) = currentMonth c + 1.
Proof. unfold advanceMonth. by destruct (_ <=? _). Qed.

Lemma proposalOf_markPaid r amount month c m :
  proposalOf (markPaid r amount month c) m
  = if decide (m = month)
    then set_winner r (set_executed true (proposalOf c month))
    else proposalOf c m.
Proof. unfold markPaid. by rewrite proposalOf_set_proposal. Qed.

Lemma approved_proposalOf p c m : proposalOf (approved p c) m = proposalOf c m.
Proof. unfold approved. by destruct (_ <=? _). Qed.

Lemma approved_currentMonth p c : currentMonth (approved p c) = currentMonth c.
Proof. unfold approved. by destruct (_ <=? _). Qed.

(** What a step leaves of the proposal of a month. *)
Lemma circleStep_proposal c c1 m :
  circleStep c c1 ->
  currentMonth c <= currentMonth c1
  /\ (m < currentMonth c ->
      executed (proposalOf c1 m) = executed (proposalOf c m)
      /\ winner (proposalOf c1 m) = winner (proposalOf c m))
  /\ (forall s, hasVoted (voteOf (proposalOf c m) s) = true ->
                voteOf (proposalOf c1 m) s = voteOf (proposalOf c m) s).
Proof.
  intros H. destruct H.
  - split_all; [lia|done|done].
  - split_all; [cbn; lia|done|done].
  - rewrite approved_currentMonth. split; [lia|].
    split; intros; by rewrite approved_proposalOf.
  - split_all; [cbn; lia|done|done].
  - split_all; [cbn; lia|done|done].
  - split_all; [cbn; lia|done|done].
  - split; [cbn; lia|]. unfold proposed. split.
    + intros Hlt. rewrite proposalOf_set_proposal.
      by rewrite decide_False by lia.
    + intros s Hv. rewrite proposalOf_set_proposal.
      destruct (decide (m = month)) as [->|?]; [|done].
      change (voteOf (push_candidate ?a (set_candidate ?b ?x ?p)) s)
        with (voteOf p s).
      apply voteOf_opened.
  - split; [cbn; lia|]. unfold voted. split.
    + intros Hlt. rewrite proposalOf_set_proposal.
      destruct (decide (m = month)) as [->|?]; done.
    + intros s Hv. rewrite proposalOf_set_proposal.
      destruct (decide (m = month)) as [->|?]; [|done].
      change (voteOf (set_candidate ?a ?x (push_voter ?b ?p)) s) with (voteOf p s).
      rewrite voteOf_set_vote.
      destruct (decide (s = sender)) as [->|?]; [congruence|done].
  - rewrite advanceMonth_currentMonth. split; [cbn; lia|].
    rewrite advanceMonth_proposalOf, proposalOf_markPaid. split.
    + intros Hlt. by rewrite decide_False by lia.
    + intros s Hv. destruct (decide (m = month)) as [->|?]; done.
Qed.

Lemma circleMove_proposal c c' m :
  circleMove c c' ->
  currentMonth c <= currentMonth c'
  /\ (m < currentMonth c ->
      executed (proposalOf c' m) = executed (proposalOf c m)
      /\ winner (proposalOf c' m) = winner (proposalOf c m))
  /\ (forall s, hasVoted (voteOf (proposalOf c m) s) = true ->
                voteOf (proposalOf c' m) s = voteOf (proposalOf c m) s).
Proof.
  intros (c1 & Hstep & Hsame).
  rewrite (sameButFunds_proposalOf _ _ m Hsame).
  destruct (sameButFunds_fields _ _ Hsame) as (_ & _ & -> & _).
  by apply circleStep_proposal.
Qed.

Lemma rtc_payoutDone c c' m r :
  rtc circleMove c c' -> payoutDone m r c -> payoutDone m r c'.
Proof.
  induction 1 as [c|c c1 c2 Hmove _ IH]; [done|].
  intros (He & Hw & Hlt). apply IH.
  destruct (circleMove_proposal _ _ m Hmove) as (Hm & Hkeep & _).
  destruct (Hkeep Hlt) as [He1 Hw1].
  unfold payoutDone. split_all; [congruence|congruence|lia].
Qed.

Lemma rtc_voteKept c c' m s :
  rtc circleMove c c' ->
  hasVoted (voteOf (proposalOf c m) s) = true ->
  voteOf (proposalOf c' m) s = voteOf (proposalOf c m) s.
Proof.
  induction 1 as [c|c c1 c2 Hmove _ IH]; [done|].
  intros Hv.
  destruct (circleMove_proposal _ _ m Hmove) as (_ & _ & Hkeep).
  specialize (Hkeep s Hv). rewrite <- Hkeep. apply IH. by rewrite Hkeep.
Qed.

End MachineProposals.

Section MachinePayout.
Import Circle LendingCircle.

Lemma executePayout_after month now w w' :
  executePayout month now w = Ok (tt, w') ->
  payoutDone month (_selectWinner month w) (circle w')
  /\ status (circle w') ≠ PENDING
  /\ hasReceivedPayout (participantOf (circle w') (_selectWinner month w)) = true
  /\ currentMonth (circle w') = month + 1.
Proof.
  intros H. pose proof (executePayout_winner _ _ _ _ H) as [Hw He].
  pose proof (executePayout_Ok _ _ _ _ H) as Hok. cbv zeta in Hok.
  destruct Hok as ((Hact & _ & _ & _ & Hm & _) & _).
  apply executePayout_shape in H as [Hstep Hsame].
  destruct (sameButFunds_fields _ _ Hsame) as (_ & Hs & Hcm & _).
  destruct (sameButFunds_flags _ _ (_selectWinner month w) Hsame)
    as (_ & _ & Hr & _).
  rewrite advanceMonth_currentMonth in Hcm. cbn in Hcm.
  assert (Hst : status (circle w') ≠ PENDING).
  { rewrite Hs. unfold advanceMonth, markPaid.
    destruct (_ <=? _); circle_fields; congruence. }
  split_all; try done.
  - unfold payoutDone. unfold getWinner in Hw. split_all; [done|done|lia].
  - rewrite Hr, participantOf_payout. by rewrite decide_True.
  - lia.
Qed.

Lemma vote_recorded sender month candidate now w w' :
  vote sender month candidate now w = Ok (tt, w') ->
  voteOf (proposalOf (circle w') month) sender
  = mkVote sender candidate (CreditRegistry.getCreditScore (registry w) sender) true.
Proof.
  intros H. apply vote_Ok in H. cbv zeta in H.
  destruct H as (_ & _ & _ & _ & _ & _ & _ & ->).
  cbn [circle set_circle]. unfold voted.
  rewrite proposalOf_set_proposal, decide_True by done.
  change (voteOf (set_candidate ?a ?x (push_voter ?b ?p)) ?s) with (voteOf p s).
  rewrite voteOf_set_vote. by rewrite decide_True.
Qed.

End MachinePayout.

Section MachineHistories.
Import Circle LendingCircle.

(** X16. Along every history of a deployed circle the status is never
    CANCELLED, the reentrancy lock is free between transactions, a PENDING
    circle is in month 0, an ACTIVE circle in a month below its duration
    and a COMPLETED circle exactly at its duration, so that the month never
    exceeds the duration; and over any further history the status never
    goes back (PENDING, then ACTIVE, then COMPLETED) and the month never
    decreases. *)
Theorem life_cycle_is_one_way
    (a : Params) (w0 w1 : World) (before later : list (N * Tx)) :
  constructor a w0 = Ok (tt, w1) ->
  let c := circle (runTrace before w1) in
  let c' := circle (runTrace later (runTrace before w1)) in
  status c ≠ CANCELLED
  /\ _locked c = false
  /\ (status c = PENDING -> currentMonth c = 0)
  /\ (status c = ACTIVE -> currentMonth c < durationInMonths c)
  /\ (status c = COMPLETED -> currentMonth c = durationInMonths c)
  /\ currentMonth c <= _durationInMonths a
  /\ rank (status c) <= rank (status c')
  /\ currentMonth c <= currentMonth c'.
Proof.
  intros H c c'.
  pose proof (constructor_lifecycle _ _ _ H) as HJ1.
  destruct (rtc_lifecycle _ _ (runTrace_moves before w1) HJ1) as (HJ & _ & _).
  destruct (rtc_lifecycle _ _ (runTrace_moves later (runTrace before w1)) HJ)
    as (_ & Hr & Hm).
  fold c in HJ, Hr, Hm. fold c' in Hr, Hm.
  assert (Hd : durationInMonths c = _durationInMonths a).
  { pose proof (rtc_config _ _ (runTrace_moves before w1)) as Hc.
    fold c in Hc. unfold config in Hc. simplify_eq.
    apply constructor_Ok in H. cbv zeta in H.
    destruct H as (_ & r & _ & ->).
    match goal with Hx : durationInMonths c = _ |- _ => rewrite Hx end.
    reflexivity. }
  destruct HJ as (Hnc & Hl & Hpos & Hp & Ha & Hcomp).
  split_all; try done.
  rewrite <- Hd. destruct (status c); [rewrite Hp by done; lia | | | done].
  - specialize (Ha eq_refl). lia.
  - rewrite Hcomp by done. lia.
Qed.

Lemma life_cycle_is_one_way_witness :
  currentMonth (circle (runTrace excessHistory (Scenario.deployed 0)))
  <= currentMonth
       (circle (runTrace [(afterVoting, ExecutePayout Scenario.deployer 0)]
                  (runTrace excessHistory (Scenario.deployed 0)))).
Proof.
  assert (Hrun : constructor (Scenario.params 0) Scenario.genesis
                 = Ok (tt, Scenario.deployed 0)) by (vm_compute; reflexivity).
  pose proof (life_cycle_is_one_way _ _ _ excessHistory
                [(afterVoting, ExecutePayout Scenario.deployer 0)] Hrun) as Hthm.
  cbv zeta in Hthm.
  exact (proj2 (proj2 (proj2 (proj2 (proj2 (proj2 (proj2 Hthm))))))).
Defined.


(** X17. Along every history of a deployed circle the parameters fixed by
    the constructor never change: creator, coordinator (the creator, for
    good), contribution, duration, bounds on the participants, reserve
    share, distribution method and voting period of 7 days; so that
    nobody but the creator ever gets [approveParticipant],
    [rejectParticipant], [recordLatePayment] or [recordDefault] through. *)
Theorem configuration_never_changes
    (a : Params) (w0 w1 : World) (tr : list (N * Tx)) :
  constructor a w0 = Ok (tt, w1) ->
  let w := runTrace tr w1 in
  (creator (circle w) = _creator a
   /\ coordinator (circle w) = _creator a
   /\ monthlyContribution (circle w) = _monthlyContribution a
   /\ durationInMonths (circle w) = _durationInMonths a
   /\ minParticipants (circle w) = _minParticipants a
   /\ maxParticipants (circle w) = _maxParticipants a
   /\ reservePercentage (circle w) = _reservePercentage a
   /\ excessDistributionMethod (circle w) = _excessDistributionMethod a
   /\ votingPeriod (circle w) = 7 * days)
  /\ (forall s p m,
        s ≠ _creator a ->
        reverts (approveParticipant s p) w
        /\ reverts (rejectParticipant s p) w
        /\ reverts (recordLatePayment s p m) w
        /\ reverts (recordDefault s p m) w).
Proof.
  intros H w.
  pose proof (rtc_config _ _ (runTrace_moves tr w1)) as Hc. fold w in Hc.
  apply constructor_Ok in H. cbv zeta in H.
  destruct H as (_ & r & _ & ->).
  unfold config in Hc. cbn [circle set_registry set_circle] in Hc.
  circle_fields. simplify_eq.
  assert (Hco : coordinator (circle w) = _creator a) by done.
  split; [split_all; done|].
  intros s p m Hs. split_all; apply reverts_intro; intros [] w' Hrun2.
  - apply approveParticipant_Ok in Hrun2 as (Hx & _). congruence.
  - apply rejectParticipant_Ok in Hrun2 as (Hx & _). congruence.
  - apply recordLatePayment_Ok in Hrun2 as (Hx & _). congruence.
  - apply recordDefault_Ok in Hrun2 as (Hx & _). congruence.
Qed.

Lemma configuration_never_changes_witness :
  coordinator (circle (runTrace excessHistory (Scenario.deployed 0)))
  = _creator (Scenario.params 0).
Proof.
  assert (Hrun : constructor (Scenario.params 0) Scenario.genesis
                 = Ok (tt, Scenario.deployed 0)) by (vm_compute; reflexivity).
  pose proof (configuration_never_changes _ _ _ excessHistory Hrun) as Hthm.
  cbv zeta in Hthm.
  exact (proj1 (proj2 (proj1 Hthm))).
Defined.

(** X18. Once a circle has left PENDING, no history of transactions changes
    who its members are: the status stays out of PENDING, the member list,
    [totalParticipants], the address and the [isActive] flag of every
    record stay as they are; a participant that is eligible later was
    eligible before, so that the count of active participants can only go
    down; and joining, approving and rejecting all revert. *)
Theorem membership_is_frozen_once_active (w : World) (tr : list (N * Tx)) :
  status (circle w) ≠ PENDING ->
  let w' := runTrace tr w in
  status (circle w') ≠ PENDING
  /\ participantList (circle w') = participantList (circle w)
  /\ totalParticipants (circle w') = totalParticipants (circle w)
  /\ (forall a,
        participant (participantOf (circle w') a)
        = participant (participantOf (circle w) a)
        /\ isActive (participantOf (circle w') a)
           = isActive (participantOf (circle w) a)
        /\ (eligible (circle w') a = true -> eligible (circle w) a = true))
  /\ _getActiveParticipantCount w' <= _getActiveParticipantCount w
  /\ (forall s p,
        reverts (requestToJoin s) w'
        /\ reverts (approveParticipant s p) w'
        /\ reverts (rejectParticipant s p) w').
Proof.
  intros Hs w'.
  pose proof (rtc_members _ _ (runTrace_moves tr w) Hs) as Hk. fold w' in Hk.
  pose proof (membersKept_count _ _ Hk) as Hcount.
  pose proof (fun a => membersKept_eligible _ _ a Hk) as Hel.
  destruct Hk as (Hs' & Hl & Ht & Hf).
  split_all; try done.
  - intros a. destruct (Hf a) as (? & ? & _). split_all; try done. apply Hel.
  - intros s p. split_all; apply reverts_intro; intros [] w2 Hrun2.
    + apply requestToJoin_Ok in Hrun2 as (Hx & _). congruence.
    + apply approveParticipant_Ok in Hrun2 as (_ & Hx & _). congruence.
    + apply rejectParticipant_Ok in Hrun2 as (_ & Hx & _). congruence.
Qed.

Lemma membership_is_frozen_once_active_witness :
  participantList (circle (runTrace defaultAfterPayout withExcess))
  = participantList (circle withExcess).
Proof.
  assert (Hs : status (circle withExcess) ≠ PENDING) by (vm_compute; discriminate).
  pose proof (membership_is_frozen_once_active withExcess defaultAfterPayout Hs)
    as Hthm.
  cbv zeta in Hthm.
  exact (proj1 (proj2 Hthm)).
Defined.

(** X19. The winner of an executed payout keeps the flag
    [hasReceivedPayout] along every later history: no later payout that
    goes through selects or records that participant again, and it cannot
    be proposed as a candidate any more. *)
Theorem nobody_is_paid_twice
    (month now : N) (w w1 : World) (tr : list (N * Tx)) :
  executePayout month now w = Ok (tt, w1) ->
  let r := _selectWinner month w in
  let w' := runTrace tr w1 in
  hasReceivedPayout (participantOf (circle w') r) = true
  /\ (forall m2 now2 w2,
        executePayout m2 now2 w' = Ok (tt, w2) ->
        _selectWinner m2 w' ≠ r /\ getWinner m2 w2 ≠ r)
  /\ (forall s m2 now2, reverts (proposePayout s r m2 now2) w').
Proof.
  intros H r w'.
  destruct (executePayout_after _ _ _ _ H) as (_ & Hs & Hr & _). fold r in Hr.
  pose proof (rtc_members _ _ (runTrace_moves tr w1) Hs) as Hk. fold w' in Hk.
  destruct Hk as (_ & _ & _ & Hf). destruct (Hf r) as (_ & _ & Hpaid & _).
  specialize (Hpaid Hr).
  split_all; try done.
  - intros m2 now2 w2 Hrun2.
    pose proof (executePayout_winner _ _ _ _ Hrun2) as [Hw _].
    apply executePayout_Ok in Hrun2. cbv zeta in Hrun2.
    destruct Hrun2 as ((_ & _ & _ & _ & _ & _ & _ & Hnot & _) & _).
    assert (Hne : _selectWinner m2 w' ≠ r) by (intros Heq; congruence).
    split; [done|]. by rewrite Hw.
  - intros s m2 now2. apply reverts_intro. intros [] w2 Hrun2.
    apply proposePayout_Ok in Hrun2. cbv zeta in Hrun2.
    destruct Hrun2 as (_ & _ & _ & _ & Hnot & _). congruence.
Qed.

Lemma nobody_is_paid_twice_witness :
  hasReceivedPayout
    (participantOf
       (circle
          (runTrace
             [(afterVoting + 1, MakeContribution Scenario.alice 10 1);
              (afterVoting + 2, ProposePayout Scenario.alice Scenario.bob 1)]
             paidOut))
       (_selectWinner 0 withExcess))
  = true.
Proof.
  assert (Hrun : executePayout 0 afterVoting withExcess = Ok (tt, paidOut))
    by (vm_compute; reflexivity).
  pose proof (nobody_is_paid_twice _ _ _ _
                [(afterVoting + 1, MakeContribution Scenario.alice 10 1);
                 (afterVoting + 2, ProposePayout Scenario.alice Scenario.bob 1)]
                Hrun) as Hthm.
  cbv zeta in Hthm.
  exact (proj1 Hthm).
Defined.

(** X20. Once the payout of a month has been executed, along every later
    history the proposal of that month keeps its winner and its [executed]
    flag, the current month stays beyond it, and neither a second payout
    nor a new proposal for that month goes through. *)
Theorem executed_payout_is_final
    (month now : N) (w w1 : World) (tr : list (N * Tx)) :
  executePayout month now w = Ok (tt, w1) ->
  let w' := runTrace tr w1 in
  getWinner month w' = _selectWinner month w
  /\ executed (proposalOf (circle w') month) = true
  /\ month < currentMonth (circle w')
  /\ (forall now2, reverts (executePayout month now2) w')
  /\ (forall s c now2, reverts (proposePayout s c month now2) w').
Proof.
  intros H w'.
  destruct (executePayout_after _ _ _ _ H) as (Hdone & _).
  pose proof (rtc_payoutDone _ _ _ _ (runTrace_moves tr w1) Hdone) as Hd.
  fold w' in Hd. destruct Hd as (He & Hw & Hlt).
  split_all; try done.
  - intros now2. apply reverts_intro. intros [] w2 Hrun2.
    apply executePayout_Ok in Hrun2. cbv zeta in Hrun2.
    destruct Hrun2 as ((_ & _ & _ & _ & Hm & _) & _). lia.
  - intros s c now2. apply reverts_intro. intros [] w2 Hrun2.
    apply proposePayout_Ok in Hrun2. cbv zeta in Hrun2.
    destruct Hrun2 as (_ & _ & Hm & _). lia.
Qed.

Lemma executed_payout_is_final_witness :
  getWinner 0
    (runTrace
       [(afterVoting + 1, MakeContribution Scenario.alice 10 1);
        (afterVoting + 2, ProposePayout Scenario.alice Scenario.carol 1);
        (afterVoting + 3, ExecutePayout Scenario.deployer 0)]
       paidOut)
  = _selectWinner 0 withExcess.
Proof.
  assert (Hrun : executePayout 0 afterVoting withExcess = Ok (tt, paidOut))
    by (vm_compute; reflexivity).
  pose proof (executed_payout_is_final _ _ _ _
                [(afterVoting + 1, MakeContribution Scenario.alice 10 1);
                 (afterVoting + 2, ProposePayout Scenario.alice Scenario.carol 1);
                 (afterVoting + 3, ExecutePayout Scenario.deployer 0)]
                Hrun) as Hthm.
  cbv zeta in Hthm.
  exact (proj1 Hthm).
Defined.

(** X21. A vote that has been cast stays recorded as it was (voter,
    candidate, weight) along every later history, and the voter can never
    vote again for that month. *)
Theorem vote_is_cast_once_and_for_all
    (sender : address) (month : N) (candidate : address) (now : N)
    (w w1 : World) (tr : list (N * Tx)) :
  vote sender month candidate now w = Ok (tt, w1) ->
  let w' := runTrace tr w1 in
  voteOf (proposalOf (circle w') month) sender
  = mkVote sender candidate (CreditRegistry.getCreditScore (registry w) sender) true
  /\ (forall c2 now2, reverts (vote sender month c2 now2) w').
Proof.
  intros H w'.
  pose proof (vote_recorded _ _ _ _ _ _ H) as Hv.
  assert (Hk : voteOf (proposalOf (circle w') month) sender
               = voteOf (proposalOf (circle w1) month) sender).
  { apply (rtc_voteKept _ _ _ _ (runTrace_moves tr w1)). by rewrite Hv. }
  rewrite Hk, Hv. split; [done|].
  intros c2 now2. apply reverts_intro. intros [] w2 Hrun2.
  apply vote_Ok in Hrun2. cbv zeta in Hrun2.
  destruct Hrun2 as (_ & _ & _ & _ & Hnot & _).
  rewrite Hk, Hv in Hnot. discriminate.
Qed.

Lemma vote_is_cast_once_and_for_all_witness :
  voteOf
    (proposalOf
       (circle (runTrace [(9, CastVote Scenario.bob 0 Scenario.bob)]
                  (commit (vote Scenario.alice 0 Scenario.bob 8) (after 10 0))))
       0) Scenario.alice
  = mkVote Scenario.alice Scenario.bob
      (CreditRegistry.getCreditScore (registry (after 10 0)) Scenario.alice) true.
Proof.
  assert (Hrun : vote Scenario.alice 0 Scenario.bob 8 (after 10 0)
                 = Ok (tt, commit (vote Scenario.alice 0 Scenario.bob 8) (after 10 0)))
    by (vm_compute; reflexivity).
  pose proof (vote_is_cast_once_and_for_all _ _ _ _ _ _
                [(9, CastVote Scenario.bob 0 Scenario.bob)] Hrun) as Hthm.
  cbv zeta in Hthm.
  exact (proj1 Hthm).
Defined.

End MachineHistories.

(** *** ReservePool: the ether behind the books *)

Section PoolEther.
Import Circle LendingCircle.
Variables (pool this : address) (k : N).
Hypothesis Hne : this ≠ pool.

Let P := poolHolds pool this k.

Lemma balanceOf_pool_in from to v w :
  from ≠ pool ->
  balanceOf (moveValue from to v w) pool
  = if decide (to = pool) then balanceOf w pool + v else balanceOf w pool.
Proof.
  intros Hf. rewrite balanceOf_moveValue. repeat case_decide; congruence.
Qed.

Lemma balanceOf_pool_out to v w :
  v <= balanceOf w pool ->
  balanceOf (moveValue pool to v w) pool
  = if decide (to = pool) then balanceOf w pool else balanceOf w pool - v.
Proof.
  intros Hv. rewrite balanceOf_moveValue. repeat case_decide; try congruence. lia.
Qed.

Ltac use_balance Hbal :=
  etransitivity; [exact Hbal|]; simpl; repeat case_decide; try congruence; try lia.

Lemma receiveHook_poolHolds from to v w w' :
  from ≠ pool ->
  P w -> receiveHook from to v (moveValue from to v w) = Ok w' -> P w'.
Proof.
  intros Hf (Hp & Ht & Hb) H.
  pose proof (balanceOf_pool_in from to v w Hf) as Hbal.
  unfold receiveHook in H.
  change (circleAddress (moveValue from to v w)) with (circleAddress w) in H.
  change (reserveAddress (moveValue from to v w)) with (reserveAddress w) in H.
  change (refusing (moveValue from to v w)) with (refusing w) in H.
  rewrite Hp, Ht in H.
  repeat case_bool_decide; inv_result; (split; [|split]); try done.
  - use_balance Hbal.
  - unfold ReservePool.receive in *. inv_result. use_balance Hbal.
  - use_balance Hbal.
Qed.

Lemma call_value_poolHolds from to v :
  from ≠ pool -> preserves P (call_value from to v).
Proof.
  intros Hf w HP. unfold wp, call_value.
  destruct (N.ltb_spec (balanceOf w from) v); [exact HP|].
  destruct (receiveHook _ _ _ _) eqn:Hhook; [|exact HP].
  eapply receiveHook_poolHolds; eauto.
Qed.

Lemma payable_poolHolds s to v :
  s ≠ pool -> to ≠ pool -> preserves P (payable s to v).
Proof.
  intros Hs Ht w (Hp & Hc & Hb). unfold wp, payable.
  pose proof (balanceOf_pool_in s to v w Hs) as Hbal.
  destruct (balanceOf w s <? v); [done|].
  (split; [|split]); try done. use_balance Hbal.
Qed.

Lemma send_poolHolds s to v : s ≠ pool -> preserves P (send s to v).
Proof.
  intros Hs w HP. unfold send. apply wp_bind.
  eapply preserves_use; [by apply call_value_poolHolds | exact HP |].
  intros a w' HP'. by apply wp_require.
Qed.

Lemma depositToReserve_poolHolds s v :
  s ≠ pool -> preserves P (depositToReserve s v).
Proof.
  intros Hs w (Hp & Hc & Hb). apply wp_intro. intros [] w' H.
  pose proof (balanceOf_pool_in s pool v w Hs) as Hbal.
  unfold depositToReserve, payable in H. inv_M.
  match goal with
  | Hx : (if ?b then _ else _) = Ok _ |- _ => destruct b; simplify_eq
  end.
  match goal with Hd : ReservePool.deposit _ _ _ = Ok _ |- _ =>
    apply deposit_Ok in Hd as (_ & _ & ->) end.
  (split; [|split]); try done. simpl in *. use_balance Hbal.
Qed.

Lemma withdrawFromReserve_poolHolds s amount recipient :
  preserves P (withdrawFromReserve s amount recipient).
Proof.
  intros w (Hp & Hc & Hb). apply wp_intro. intros [] w' H.
  unfold withdrawFromReserve in H. inv_M.
  match goal with
  | Hd : ReservePool.withdraw _ _ _ _ = Ok ?a |- _ =>
      destruct a as [st' t]; apply withdraw_Ok in Hd as (_ & _ & _ & Hle & -> & ->)
  end.
  simpl in *.
  assert (Hv : amount <= balanceOf w pool) by lia.
  pose proof (balanceOf_pool_out recipient amount w Hv) as Hbal.
  match goal with Hh : receiveHook _ _ _ _ = Ok _ |- _ => rename Hh into Hhook end.
  unfold receiveHook in Hhook. simpl in Hhook. rewrite ?Hp, ?Hc in *.
  repeat case_bool_decide; inv_result; (split; [|split]); try done.
  - use_balance Hbal.
  - unfold ReservePool.receive in *. simpl in *. inv_result. use_balance Hbal.
  - use_balance Hbal.
Qed.

Ltac other_account :=
  solve [ assumption
        | match goal with
          | HP : P ?w |- circleAddress ?w ≠ pool =>
              destruct HP as (_ & -> & _); exact Hne
          end ].

Ltac holds_leaf := match goal with HP : P _ |- P _ => exact HP end.

Ltac holds_call :=
  lazymatch goal with
  | |- wp (call_value ?f ?t ?v) _ _ =>
      apply (preserves_use P (call_value f t v));
      [ apply call_value_poolHolds; other_account | | intros ? ? ? ]
  | |- wp (payable ?s ?t ?v) _ _ =>
      apply (preserves_use P (payable s t v));
      [ apply payable_poolHolds; other_account | | intros ? ? ? ]
  | |- wp (send ?s ?t ?v) _ _ =>
      apply (preserves_use P (send s t v));
      [ apply send_poolHolds; other_account | | intros ? ? ? ]
  | |- wp (depositToReserve ?s ?v) _ _ =>
      apply (preserves_use P (depositToReserve s v));
      [ apply depositToReserve_poolHolds; other_account | | intros ? ? ? ]
  | |- wp (withdrawFromReserve ?s ?a ?r) _ _ =>
      apply (preserves_use P (withdrawFromReserve s a r));
      [ apply withdrawFromReserve_poolHolds | | intros ? ? ? ]
  end; cbv beta.

Ltac holds_go := repeat (first [holds_call | pres_step P]; try solve [holds_leaf]).

Lemma activateCircle_poolHolds : preserves P _activateCircle.
Proof. intros w HP. unfold _activateCircle. holds_go. Qed.

Lemma completeCircle_poolHolds : preserves P _completeCircle.
Proof. intros w HP. unfold _completeCircle. holds_go. Qed.

Lemma distributeExcess_poolHolds month : preserves P (_distributeExcess month).
Proof. intros w HP. unfold _distributeExcess. holds_go. Qed.

Hint Resolve activateCircle_poolHolds completeCircle_poolHolds
  distributeExcess_poolHolds : pres.

Lemma exec_poolHolds now tx : txSender tx ≠ pool -> preserves P (exec now tx).
Proof.
  intros Hs w HP.
  destruct tx; simpl in Hs; simpl;
    unfold requestToJoin, approveParticipant, rejectParticipant, makeContribution,
      proposePayout, vote, executePayout, recordLatePayment, recordDefault,
      withdrawExcess, liftReserve, nonReentrant, onlyCoordinator,
      onlyActiveParticipant, onlyActiveCircle;
    holds_go;
    unfold ReservePool.verifyCircle, ReservePool.revokeCircle,
      ReservePool.onlyFactory in *;
    inv_result; exact HP.
Qed.

Lemma runTrace_poolHolds tr w :
  sentByOthers pool tr -> P w -> P (runTrace tr w).
Proof.
  intros Htr. revert w.
  induction Htr as [|[now tx] tr Hs _ IH]; intros w HP; simpl; [done|].
  apply IH. apply (preserves_commit P (exec now tx) w); [|exact HP].
  by apply exec_poolHolds.
Qed.

Lemma withdrawFromReserve_paid s amount recipient w st' t :
  P w ->
  ReservePool.withdraw s amount recipient (reserve w) = Ok (st', t) ->
  recipient ≠ pool ->
  (recipient = this -> poolBalance (circle w) + amount <= MAX_UINT256) ->
  (recipient ≠ this -> recipient ∉ refusing w) ->
  exists w',
    withdrawFromReserve s amount recipient w = Ok (tt, w')
    /\ reserve w' = st'
    /\ balanceOf w' recipient = balanceOf w recipient + amount
    /\ balanceOf w' pool = balanceOf w pool - amount.
Proof.
  intros (Hp & Hc & Hb) Hw Hr1 Hr2 Hr3.
  unfold withdrawFromReserve, bind, gets, lift, modify, require. rewrite Hw. simpl.
  apply withdraw_Ok in Hw as (_ & _ & _ & Hle & -> & _). simpl.
  unfold call_value. rewrite Hp.
  change (balanceOf (set_reserve st' w) pool) with (balanceOf w pool).
  destruct (N.ltb_spec (balanceOf w pool) amount); [lia|].
  assert (Hin : balanceOf (moveValue pool recipient amount (set_reserve st' w))
                  recipient = balanceOf w recipient + amount).
  { rewrite balanceOf_moveValue. unfold balanceOf; simpl.
    repeat case_decide; congruence. }
  assert (Hout : balanceOf (moveValue pool recipient amount (set_reserve st' w))
                   pool = balanceOf w pool - amount).
  { rewrite balanceOf_moveValue. unfold balanceOf; simpl.
    repeat case_decide; congruence. }
  unfold receiveHook. simpl. rewrite Hp, Hc.
  case_bool_decide as Hthis.
  - unfold receive, add256.
    destruct (N.leb_spec (poolBalance (circle w) + amount) MAX_UINT256) as [_|Hgt];
      [|specialize (Hr2 Hthis); lia].
    simpl. eexists. split; [reflexivity|]. done.
  - rewrite !bool_decide_false by auto.
    eexists. split; [reflexivity|]. done.
Qed.

End PoolEther.

(** X22. The ether held by the pool and its books move together: along
    every history whose senders are other accounts than the pool, in a world
    where the circle and the pool are at different addresses,
    [currentBalance] stays covered by the ether of the pool and the
    difference between the two never changes; so a withdrawal that passes
    the checks of [withdraw] is always paid, to the circle (whose
    [poolBalance] can take it) or to an account that accepts ether: the
    recipient receives the amount and the pool holds that much less. *)
Theorem pool_books_are_backed_by_ether (w : World) (tr : list (N * Tx)) :
  circleAddress w ≠ reserveAddress w ->
  sentByOthers (reserveAddress w) tr ->
  ReservePool.currentBalance (reserve w) <= balanceOf w (reserveAddress w) ->
  let w' := runTrace tr w in
  let pool := reserveAddress w in
  reserveAddress w' = pool
  /\ ReservePool.currentBalance (reserve w') <= balanceOf w' pool
  /\ balanceOf w' pool - ReservePool.currentBalance (reserve w')
     = balanceOf w pool - ReservePool.currentBalance (reserve w)
  /\ (forall s amount recipient st' t,
        ReservePool.withdraw s amount recipient (reserve w') = Ok (st', t) ->
        recipient ≠ pool ->
        (recipient = circleAddress w' ->
         Circle.poolBalance (circle w') + amount <= MAX_UINT256) ->
        (recipient ≠ circleAddress w' -> recipient ∉ refusing w') ->
        exists w'',
          withdrawFromReserve s amount recipient w' = Ok (tt, w'')
          /\ reserve w'' = st'
          /\ balanceOf w'' recipient = balanceOf w' recipient + amount
          /\ balanceOf w'' pool = balanceOf w' pool - amount).
Proof.
  intros Hne Hs Hle w' pool.
  set (k := balanceOf w pool - ReservePool.currentBalance (reserve w)).
  assert (HP : poolHolds pool (circleAddress w) k w).
  { unfold poolHolds, k, pool. split_all; try done. lia. }
  apply (runTrace_poolHolds pool (circleAddress w) k Hne tr w Hs) in HP.
  fold w' in HP. pose proof HP as (Hp & Hc & Hb).
  split_all; try done; try lia.
  intros s amount recipient st' t Hw Hr1 Hr2 Hr3. rewrite Hc in Hr2, Hr3.
  eapply withdrawFromReserve_paid with (k := k) (this := circleAddress w); eauto.
Qed.

Lemma pool_books_are_backed_by_ether_witness :
  ReservePool.currentBalance (reserve (runTrace reserveHistory (Scenario.deployed 10)))
  <= balanceOf (runTrace reserveHistory (Scenario.deployed 10))
       (reserveAddress (Scenario.deployed 10)).
Proof.
  assert (H1 : circleAddress (Scenario.deployed 10)
               ≠ reserveAddress (Scenario.deployed 10))
    by (vm_compute; discriminate).
  assert (H2 : sentByOthers (reserveAddress (Scenario.deployed 10)) reserveHistory)
    by (repeat constructor; vm_compute; discriminate).
  assert (H3 : ReservePool.currentBalance (reserve (Scenario.deployed 10))
               <= balanceOf (Scenario.deployed 10)
                    (reserveAddress (Scenario.deployed 10)))
    by (vm_compute; discriminate).
  pose proof (pool_books_are_backed_by_ether (Scenario.deployed 10) reserveHistory
                H1 H2 H3) as Hthm.
  cbv zeta in Hthm. exact (proj1 (proj2 Hthm)).
Defined.

(** *** LendingCircle: after completion *)

Section Completion.
Import Circle LendingCircle.

Lemma fundsKept_refl c : fundsKept c c.
Proof. unfold fundsKept. split_all; try done. Qed.

Lemma fundsKept_trans c1 c2 c3 : fundsKept c1 c2 -> fundsKept c2 c3 -> fundsKept c1 c3.
Proof.
  intros (H1 & H2 & H3) (H4 & H5 & H6). unfold fundsKept.
  split_all; [lia|congruence|]. intros a. specialize (H3 a). specialize (H6 a). lia.
Qed.

Lemma receiveHook_fundsKept from to v w w' :
  receiveHook from to v w = Ok w' -> fundsKept (circle w) (circle w').
Proof.
  intros [(_ & ->)|[(_ & _ & r' & ->)|(_ & _ & ->)]]%receiveHook_cases;
    try apply fundsKept_refl.
  unfold fundsKept. simpl. split_all; try done. lia.
Qed.

Lemma circleMove_closed c c' :
  status c = COMPLETED -> circleMove c c' -> sameButFunds c c'.
Proof.
  intros Hs (c1 & Hstep & Hsame).
  destruct Hstep; congruence.
Qed.

Ltac status_clash H :=
  cbv zeta in H;
  repeat match type of H with _ /\ _ => destruct H as [? H] end;
  congruence.

(** A transaction on a completed circle pays nothing out of its pool. *)
Lemma exec_fundsKept now tx w w' :
  status (circle w) = COMPLETED ->
  exec now tx w = Ok (tt, w') -> fundsKept (circle w) (circle w').
Proof.
  intros Hs H. destruct tx; simpl in H.
  - apply requestToJoin_Ok in H. status_clash H.
  - apply approveParticipant_Ok in H. status_clash H.
  - apply rejectParticipant_Ok in H. status_clash H.
  - apply makeContribution_Ok in H. status_clash H.
  - apply proposePayout_Ok in H. status_clash H.
  - apply vote_Ok in H. status_clash H.
  - apply executePayout_Ok in H. cbv zeta in H. destruct H as ((? & _) & _).
    congruence.
  - apply recordLatePayment_Ok in H. status_clash H.
  - apply recordDefault_Ok in H. status_clash H.
  - apply withdrawExcess_Ok in H. cbv zeta in H.
    destruct H as (_ & _ & _ & _ & H). apply receiveHook_fundsKept in H.
    eapply fundsKept_trans; [|exact H].
    unfold fundsKept. simpl. split_all; try done.
    intros a. rewrite participantOf_set_participant.
    case_decide; [subst; simpl; lia|done].
  - inv_M. apply send_Ok in H as [_ H]. by apply receiveHook_fundsKept in H.
  - inv_M. apply fundsKept_refl.
  - unfold liftReserve in H. inv_M. apply fundsKept_refl.
  - unfold liftReserve in H. inv_M. apply fundsKept_refl.
  - apply depositToReserve_circle in H. rewrite H. apply fundsKept_refl.
  - unfold withdrawFromReserve in H. inv_M.
    match goal with
    | Hh : receiveHook _ _ _ _ = Ok _ |- _ => by apply receiveHook_fundsKept in Hh
    end.
  - inv_M. apply send_Ok in H as [_ H]. by apply receiveHook_fundsKept in H.
Qed.

Lemma runTrace_closed tr w :
  status (circle w) = COMPLETED ->
  sameButFunds (circle w) (circle (runTrace tr w))
  /\ fundsKept (circle w) (circle (runTrace tr w)).
Proof.
  revert w. induction tr as [|[now tx] tr IH]; intros w Hs; simpl.
  - split; [apply sameButFunds_refl|apply fundsKept_refl].
  - assert (Hstep : sameButFunds (circle w) (circle (transact now tx w))
                    /\ fundsKept (circle w) (circle (transact now tx w))).
    { unfold transact, commit. destruct (exec now tx w) as [[[] w']|] eqn:H.
      - split; [|by eapply exec_fundsKept].
        apply circleMove_closed; [done|]. by eapply exec_circleMove.
      - split; [apply sameButFunds_refl|apply fundsKept_refl]. }
    destruct Hstep as [H1 H2].
    assert (Hs' : status (circle (transact now tx w)) = COMPLETED).
    { destruct H1 as [Hsk _]. unfold skeleton in Hsk. simplify_eq. congruence. }
    destruct (IH _ Hs') as [H3 H4].
    split; [by eapply sameButFunds_trans|by eapply fundsKept_trans].
Qed.

End Completion.

Section CompletedCircle.
Import Circle LendingCircle.

(** X23. A circle that is COMPLETED stays as it is, along every history of
    transactions: status, month, members and their number, proposals, and
    for every participant the flags and the months paid; the funds only
    move in: [poolBalance] never goes down (what is left in it is paid to
    nobody), no withdrawable balance goes up, [totalReserveDeposited] is
    kept; what is still accepted is [withdrawExcess] and transfers, every
    other function of the circle reverts. *)
Theorem completed_circle_is_closed (w : World) (tr : list (N * Tx)) :
  status (circle w) = COMPLETED ->
  let c := circle w in
  let w' := runTrace tr w in
  let c' := circle w' in
  (status c' = COMPLETED
   /\ currentMonth c' = currentMonth c
   /\ participantList c' = participantList c
   /\ totalParticipants c' = totalParticipants c
   /\ payoutProposals c' = payoutProposals c)
  /\ (forall a,
        isActive (participantOf c' a) = isActive (participantOf c a)
        /\ hasReceivedPayout (participantOf c' a)
           = hasReceivedPayout (participantOf c a)
        /\ isInDefault (participantOf c' a) = isInDefault (participantOf c a)
        /\ monthlyPayments (participantOf c' a)
           = monthlyPayments (participantOf c a)
        /\ withdrawableBalance (participantOf c' a)
           <= withdrawableBalance (participantOf c a))
  /\ poolBalance c <= poolBalance c'
  /\ totalReserveDeposited c' = totalReserveDeposited c
  /\ (forall s p m v now,
        reverts (requestToJoin s) w'
        /\ reverts (approveParticipant s p) w'
        /\ reverts (rejectParticipant s p) w'
        /\ reverts (makeContribution s v m now) w'
        /\ reverts (proposePayout s p m now) w'
        /\ reverts (vote s m p now) w'
        /\ reverts (executePayout m now) w'
        /\ reverts (recordLatePayment s p m) w'
        /\ reverts (recordDefault s p m) w').
Proof.
  intros Hs c w' c'. subst c c' w'.
  destruct (runTrace_closed tr w Hs) as [[Hsk Hfl] (Hpb & Htrd & Hwb)].
  unfold skeleton in Hsk. simplify_eq.
  assert (Hs' : status (circle (runTrace tr w)) = COMPLETED) by congruence.
  split; [split_all; congruence|]. split; [|split; [done|split; [done|]]].
  - intros a. specialize (Hfl a). specialize (Hwb a). unfold memberFlags in Hfl.
    simplify_eq. split_all; congruence || done.
  - intros s p m v now.
    split_all; apply reverts_intro; intros [] w2 Hrun.
    + apply requestToJoin_Ok in Hrun. cbv zeta in Hrun.
      destruct Hrun as (? & _). congruence.
    + apply approveParticipant_Ok in Hrun. cbv zeta in Hrun.
      destruct Hrun as (_ & ? & _). congruence.
    + apply rejectParticipant_Ok in Hrun. cbv zeta in Hrun.
      destruct Hrun as (_ & ? & _). congruence.
    + apply makeContribution_Ok in Hrun. cbv zeta in Hrun.
      destruct Hrun as (_ & _ & ? & _). congruence.
    + apply proposePayout_Ok in Hrun. cbv zeta in Hrun.
      destruct Hrun as (_ & ? & _). congruence.
    + apply vote_Ok in Hrun. cbv zeta in Hrun.
      destruct Hrun as (_ & ? & _). congruence.
    + apply executePayout_Ok in Hrun. cbv zeta in Hrun.
      destruct Hrun as ((? & _) & _). congruence.
    + apply recordLatePayment_Ok in Hrun. cbv zeta in Hrun.
      destruct Hrun as (_ & ? & _). congruence.
    + apply recordDefault_Ok in Hrun. cbv zeta in Hrun.
      destruct Hrun as (_ & ? & _). congruence.
Qed.

Lemma completed_circle_is_closed_witness :
  poolBalance (circle completedCircle)
  <= poolBalance (circle (runTrace afterCompletion completedCircle))
  /\ poolBalance (circle completedCircle) = 7
  /\ poolBalance (circle (runTrace afterCompletion completedCircle)) = 11
  /\ balanceOf (runTrace afterCompletion completedCircle) Scenario.thisCircle = 11.
Proof.
  assert (Hs : status (circle completedCircle) = COMPLETED)
    by (vm_compute; reflexivity).
  pose proof (completed_circle_is_closed completedCircle afterCompletion Hs) as Hthm.
  cbv zeta in Hthm.
  split; [exact (proj1 (proj2 (proj2 Hthm)))|].
  split_all; vm_compute; reflexivity.
Defined.

End CompletedCircle.

(** *** LendingCircleFactory *)

Section FactoryPages.
Import LendingCircleFactory.

Lemma take_plus {A} (n m : nat) (l : list A) :
  take (n + m)%nat l = (take n l ++ take m (drop n l))%list.
Proof.
  revert l. induction n as [|n IH]; intros [|x l]; simpl; try done.
  - by rewrite take_nil.
  - by rewrite IH.
Qed.

(** The loop copies [todo] circles from index [offset + i] on into the
    slots of the array from [i] on, and goes out of no bound. *)
Lemma copyCircles_spec cs offset todo i out :
  (N.to_nat offset + N.to_nat i + todo <= length cs)%nat ->
  (N.to_nat i + todo <= length out)%nat ->
  offset + i + N.of_nat todo <= MAX_UINT256 ->
  copyCircles cs offset todo i out
  = Ok (take (N.to_nat i) out
        ++ take todo (drop (N.to_nat offset + N.to_nat i)%nat cs)
        ++ drop (N.to_nat i + todo)%nat out)%list.
Proof.
  revert i out. induction todo as [|todo IH]; intros i out Hcs Hout Hmax; simpl.
  - rewrite Nat.add_0_r, take_drop. done.
  - unfold add256 at 1.
    destruct (N.leb_spec (offset + i) MAX_UINT256) as [_|?]; [|lia]. simpl.
    replace (N.to_nat (offset + i)) with (N.to_nat offset + N.to_nat i)%nat by lia.
    destruct (lookup_lt_is_Some_2 cs (N.to_nat offset + N.to_nat i)%nat)
      as [c Hc]; [lia|].
    rewrite Hc.
    destruct (Nat.ltb_spec (N.to_nat i) (length out)) as [Hlt|?]; [|lia].
    unfold add256.
    destruct (N.leb_spec (i + 1) MAX_UINT256) as [_|?]; [|lia]. simpl.
    rewrite IH by (rewrite ?length_insert; lia).
    f_equal.
    replace (N.to_nat (i + 1)) with (S (N.to_nat i)) by lia.
    rewrite (take_S_r _ _ c) by (by rewrite list_lookup_insert_eq).
    rewrite take_insert_ge by lia.
    rewrite drop_insert_lt by lia.
    rewrite <- (assoc_L (++)). f_equal. simpl.
    rewrite (drop_S _ _ _ Hc). simpl.
    replace (N.to_nat offset + S (N.to_nat i))%nat
      with (S (N.to_nat offset + N.to_nat i)) by lia.
    replace (N.to_nat i + S todo)%nat with (S (N.to_nat i + todo)) by lia.
    done.
Qed.

Lemma getCircles_page offset limit st :
  offset < getCircleCount st -> offset + limit <= MAX_UINT256 ->
  getCircles offset limit st
  = Ok (take (N.to_nat limit) (drop (N.to_nat offset) (circles st))).
Proof.
  unfold getCircles, getCircleCount. intros Ho Hmax.
  set (len := N.of_nat (length (circles st))) in *.
  destruct (N.leb_spec len offset) as [?|_]; [lia|].
  unfold add256. destruct (N.leb_spec (offset + limit) MAX_UINT256) as [_|?]; [|lia].
  simpl.
  set (end_ := if len <? offset + limit then len else offset + limit).
  assert (Hend : end_ = N.min len (offset + limit)).
  { unfold end_. destruct (N.ltb_spec len (offset + limit)); lia. }
  unfold sub256. destruct (N.leb_spec offset end_) as [_|?]; [|lia]. simpl.
  rewrite copyCircles_spec; rewrite ?length_replicate; try lia.
  simpl. rewrite drop_replicate, Nat.sub_diag, Nat.add_0_r. simpl.
  rewrite app_nil_r. f_equal.
  destruct (N.le_ge_cases (offset + limit) len).
  - f_equal. lia.
  - rewrite !take_ge; [done|rewrite length_drop; lia..].
Qed.

Lemma getCircles_empty offset limit st :
  getCircleCount st <= offset -> getCircles offset limit st = Ok [].
Proof.
  unfold getCircles, getCircleCount. intros Ho.
  by destruct (N.leb_spec (N.of_nat (length (circles st))) offset); [|lia].
Qed.

Lemma getCircles_overflow offset limit st :
  offset < getCircleCount st -> MAX_UINT256 < offset + limit ->
  getCircles offset limit st = Revert PANIC_ARITH.
Proof.
  unfold getCircles, getCircleCount. intros Ho Hmax.
  destruct (N.leb_spec (N.of_nat (length (circles st))) offset); [lia|].
  unfold add256. by destruct (N.leb_spec (offset + limit) MAX_UINT256); [lia|].
Qed.

Lemma getCircles_Ok offset limit st page :
  getCircles offset limit st = Ok page ->
  page = take (N.to_nat limit) (drop (N.to_nat offset) (circles st)).
Proof.
  intros H.
  destruct (N.le_gt_cases (getCircleCount st) offset) as [Ho|Ho].
  - rewrite getCircles_empty in H by done. injection H as <-.
    rewrite drop_ge; [by rewrite take_nil|]. unfold getCircleCount in Ho. lia.
  - destruct (N.le_gt_cases (offset + limit) MAX_UINT256) as [Hm|Hm].
    + rewrite getCircles_page in H by done. by injection H as <-.
    + by rewrite getCircles_overflow in H.
Qed.

End FactoryPages.

(** X24. [getCircles] returns the page asked for, circles [offset],
    [offset + 1], ... in the order of creation, at most [limit] of them and
    as many as there are: nothing from [offset = getCircleCount] on, and a
    revert with an arithmetic panic, although circles are there to return,
    when [offset + limit] exceeds [2^256 - 1]; the loop reads and writes
    within the bounds of its arrays.  The page from 0 with the count as limit
    is the whole list, and two consecutive pages make up the page of
    both. *)
Theorem getCircles_returns_the_requested_page
    (st : LendingCircleFactory.State) (offset limit : N) :
  let count := LendingCircleFactory.getCircleCount st in
  let circles := LendingCircleFactory.circles st in
  (count <= offset -> LendingCircleFactory.getCircles offset limit st = Ok [])
  /\ (offset < count -> offset + limit <= MAX_UINT256 ->
        LendingCircleFactory.getCircles offset limit st
        = Ok (take (N.to_nat limit) (drop (N.to_nat offset) circles)))
  /\ (offset < count -> MAX_UINT256 < offset + limit ->
        LendingCircleFactory.getCircles offset limit st = Revert PANIC_ARITH)
  /\ (forall page,
        LendingCircleFactory.getCircles offset limit st = Ok page ->
        N.of_nat (length page) = N.min limit (count - offset)
        /\ (forall i c,
              page !! i = Some c
              <-> (i < N.to_nat limit)%nat
                  /\ circles !! (N.to_nat offset + i)%nat = Some c))
  /\ (count <= MAX_UINT256 ->
        LendingCircleFactory.getCircles 0 count st = Ok circles)
  /\ (forall limit2 page1 page2,
        offset + limit + limit2 <= MAX_UINT256 ->
        LendingCircleFactory.getCircles offset limit st = Ok page1 ->
        LendingCircleFactory.getCircles (offset + limit) limit2 st = Ok page2 ->
        LendingCircleFactory.getCircles offset (limit + limit2) st
        = Ok (page1 ++ page2)%list).
Proof.
  intros count circles. subst count circles.
  split; [apply getCircles_empty|]. split; [apply getCircles_page|].
  split; [apply getCircles_overflow|].
  unfold LendingCircleFactory.getCircleCount.
  set (cs := LendingCircleFactory.circles st).
  split; [|split].
  - intros page H. apply getCircles_Ok in H. subst page. fold cs. split.
    + rewrite length_take, length_drop. lia.
    + intros i c. rewrite lookup_take_Some, lookup_drop. tauto.
  - intros Hmax. destruct (decide (length cs = 0%nat)) as [Hz|Hz].
    + rewrite getCircles_empty
        by (unfold LendingCircleFactory.getCircleCount; fold cs; lia).
      by destruct cs.
    + rewrite getCircles_page
        by (unfold LendingCircleFactory.getCircleCount; fold cs; lia).
      fold cs. simpl. f_equal. apply take_ge. lia.
  - intros limit2 page1 page2 Hmax H1 H2.
    apply getCircles_Ok in H1, H2. subst page1 page2. fold cs.
    destruct (N.le_gt_cases (N.of_nat (length cs)) offset) as [Ho|Ho].
    + rewrite getCircles_empty
        by (unfold LendingCircleFactory.getCircleCount; fold cs; lia).
      rewrite !drop_ge, !take_nil; [done|lia..].
    + rewrite getCircles_page
        by (unfold LendingCircleFactory.getCircleCount; fold cs; lia).
      f_equal. fold cs.
      replace (N.to_nat (limit + limit2))
        with (N.to_nat limit + N.to_nat limit2)%nat by lia.
      rewrite take_plus, drop_drop. do 3 f_equal. lia.
Qed.

Section FactoryCreation.
Import Circle LendingCircleFactory.

(** The chain after a successful [createCircle]. *)
Lemma createCircle_Ok s mc d minP maxP rp edm new ch c ch' :
  createCircle s mc d minP maxP rp edm new ch = Ok (c, ch') ->
  let st := factory ch in
  (300 <= CreditRegistry.getCreditScore (ledger ch) s
   /\ (new ∉ dom (created ch))
   /\ new ≠ 0
   /\ factoryAddress ch = ReservePool.factory (pool ch))
  /\ (s ≠ 0 /\ 0 < mc /\ 0 < d /\ 2 <= minP /\ minP <= maxP /\ rp <= 100
      /\ creditRegistry st ≠ 0 /\ reservePool st ≠ 0
      /\ mc <= CreditRegistry.getCreditScore (ledger ch) s * MAX_CONTRIBUTION_PER_CREDIT
      /\ maxP <= CreditRegistry.getCreditScore (ledger ch) s * MAX_PARTICIPANTS_PER_CREDIT
      /\ mc * maxP * d
         <= CreditRegistry.getCreditScore (ledger ch) s * MAX_EXPOSURE_PER_CREDIT)
  /\ exists r,
       CreditRegistry.recordCircleJoin s (ledger ch) = Ok r
       /\ c = new
       /\ ch' = mkChain
                  (mkState (creditRegistry st) (reservePool st)
                     (circles st ++ [new]) ({[new]} ∪ isCircle st)
                     (<[s := (getUserCircles s st ++ [new])%list]>
                        (userCircles st)))
                  (factoryAddress ch) r
                  (ReservePool.mkState (ReservePool.factory (pool ch))
                     ({[new]} ∪ ReservePool.verifiedCircles (pool ch))
                     (ReservePool.totalDeposited (pool ch))
                     (ReservePool.totalWithdrawn (pool ch))
                     (ReservePool.currentBalance (pool ch)))
                  (<[new := Circle.mkState s s mc d minP maxP rp edm PENDING 0 1 0 0
                              {[ s := mkParticipant s true false false 0 ∅ ∅ ]}
                              [s] ∅ (7 * days) false]> (created ch)).
Proof.
  unfold createCircle, newLendingCircle. intros H. cbv zeta. inv_result.
  destruct (LendingCircle.constructor _ _) as [[[] w1]|] eqn:Hc; [|discriminate].
  inv_result. prop_hyps.
  unfold ReservePool.verifyCircle, ReservePool.onlyFactory in *. inv_result.
  prop_hyps.
  split; [split_all; done|].
  apply constructor_Ok in Hc. cbv zeta in Hc.
  destruct Hc as (Hvalid & r & Hr & ->). simpl in *.
  split; [exact Hvalid|].
  exists r. split_all; done.
Qed.

(** [createCircle] succeeds when nothing in its way fails. *)
Lemma createCircle_succeeds s mc d minP maxP rp edm new ch w1 :
  300 <= CreditRegistry.getCreditScore (ledger ch) s ->
  new ∉ dom (created ch) -> new ≠ 0 ->
  factoryAddress ch = ReservePool.factory (pool ch) ->
  LendingCircle.constructor
    (LendingCircle.mkParams s mc d minP maxP rp edm
       (creditRegistry (factory ch)) (reservePool (factory ch)))
    (mkWorld (ledger ch) (pool ch) zeroed (reservePool (factory ch)) new ∅ ∅)
  = Ok (tt, w1) ->
  exists ch', createCircle s mc d minP maxP rp edm new ch = Ok (new, ch').
Proof.
  intros Hs Hn Hz Hf Hc. unfold createCircle, newLendingCircle.
  rewrite (proj2 (N.leb_le _ _) Hs). simpl.
  rewrite bool_decide_true by done. simpl. rewrite Hc. simpl.
  rewrite Hf, verifyCircle_factory by done. simpl. eauto.
Qed.

End FactoryCreation.

Section FactoryOperations.
Import Circle.

(** X25. A [createCircle] that succeeds was sent by an account with a credit
    score of at least 300, to a factory that is the [factory] of the pool,
    with arguments that the constructor of the circle accepts (within the
    credit limits of the sender); it returns the address of the new circle,
    which is not [address(0)] and held no circle before, appends it to
    [circles] and to the circles of the sender and of nobody else, marks it
    in [isCircle], and has it verified by the pool, whose books and other
    verifications do not change; the new circle is PENDING with the sender
    as creator, coordinator and only member and the parameters asked for;
    the circles created before are untouched; the registry counts one more
    circle joined for the sender, whose score stays as it is. *)
Theorem createCircle_registers_a_verified_circle
    (sender : address)
    (monthlyContribution durationInMonths minParticipants maxParticipants
       reservePercentage : N)
    (excessDistributionMethod : ExcessDistributionMethod)
    (newCircle : address) (ch : LendingCircleFactory.Chain)
    (c : address) (ch' : LendingCircleFactory.Chain) :
  LendingCircleFactory.createCircle sender monthlyContribution durationInMonths
    minParticipants maxParticipants reservePercentage excessDistributionMethod
    newCircle ch = Ok (c, ch') ->
  let st := LendingCircleFactory.factory ch in
  let st' := LendingCircleFactory.factory ch' in
  let score := CreditRegistry.getCreditScore (LendingCircleFactory.ledger ch) sender in
  (300 <= score
   /\ LendingCircleFactory.factoryAddress ch
      = ReservePool.factory (LendingCircleFactory.pool ch)
   /\ 0 < monthlyContribution <= score * 10 ^ 18
   /\ 0 < durationInMonths
   /\ 2 <= minParticipants <= maxParticipants
   /\ maxParticipants <= score
   /\ monthlyContribution * maxParticipants * durationInMonths
      <= score * (10 * 10 ^ 18)
   /\ reservePercentage <= 100)
  /\ (c = newCircle
      /\ c ≠ 0
      /\ LendingCircleFactory.created ch !! c = None)
  /\ (LendingCircleFactory.circles st' = (LendingCircleFactory.circles st ++ [c])%list
      /\ LendingCircleFactory.getCircleCount st'
         = LendingCircleFactory.getCircleCount st + 1
      /\ LendingCircleFactory.isCircle st' = {[c]} ∪ LendingCircleFactory.isCircle st
      /\ LendingCircleFactory.getUserCircles sender st'
         = (LendingCircleFactory.getUserCircles sender st ++ [c])%list
      /\ (forall u, u ≠ sender ->
            LendingCircleFactory.getUserCircles u st'
            = LendingCircleFactory.getUserCircles u st))
  /\ (ReservePool.verifiedCircles (LendingCircleFactory.pool ch')
      = {[c]} ∪ ReservePool.verifiedCircles (LendingCircleFactory.pool ch)
      /\ ReservePool.factory (LendingCircleFactory.pool ch')
         = ReservePool.factory (LendingCircleFactory.pool ch)
      /\ ReservePool.currentBalance (LendingCircleFactory.pool ch')
         = ReservePool.currentBalance (LendingCircleFactory.pool ch)
      /\ ReservePool.totalDeposited (LendingCircleFactory.pool ch')
         = ReservePool.totalDeposited (LendingCircleFactory.pool ch)
      /\ ReservePool.totalWithdrawn (LendingCircleFactory.pool ch')
         = ReservePool.totalWithdrawn (LendingCircleFactory.pool ch))
  /\ (exists circle,
        LendingCircleFactory.created ch' !! c = Some circle
        /\ creator circle = sender
        /\ coordinator circle = sender
        /\ status circle = PENDING
        /\ participantList circle = [sender]
        /\ Circle.monthlyContribution circle = monthlyContribution
        /\ Circle.durationInMonths circle = durationInMonths
        /\ Circle.minParticipants circle = minParticipants
        /\ Circle.maxParticipants circle = maxParticipants
        /\ Circle.reservePercentage circle = reservePercentage
        /\ Circle.excessDistributionMethod circle = excessDistributionMethod)
  /\ (forall c', c' ≠ c ->
        LendingCircleFactory.created ch' !! c'
        = LendingCircleFactory.created ch !! c')
  /\ CreditRegistry.getCreditScore (LendingCircleFactory.ledger ch') sender = score
  /\ CreditRegistry.circlesJoined
       (CreditRegistry.getCreditProfile (LendingCircleFactory.ledger ch') sender)
     = CreditRegistry.circlesJoined
         (CreditRegistry.getCreditProfile (LendingCircleFactory.ledger ch) sender)
       + 1.
Proof.
  intros H st st' score. subst st'.
  apply createCircle_Ok in H. cbv zeta in H. fold st score in H.
  destruct H as ((Hs & Hnew & Hz & Hf)
                 & (_ & H1 & H2 & H3 & H4 & H5 & _ & _ & H6 & H7 & H8)
                 & r & Hr & -> & ->).
  unfold MAX_CONTRIBUTION_PER_CREDIT, MAX_PARTICIPANTS_PER_CREDIT,
    MAX_EXPOSURE_PER_CREDIT, ether in *.
  change (CreditRegistry.recordCircleJoin sender (LendingCircleFactory.ledger ch))
    with (CreditRegistry.call (CreditRegistry.CircleJoin sender)
            (LendingCircleFactory.ledger ch)) in Hr.
  split; [split_all; try done; lia|].
  split; [split_all; try done; by apply not_elem_of_dom|].
  split; [|split; [done|]; split; [|split; [|split]]].
  - simpl. split_all; try done.
    + unfold LendingCircleFactory.getCircleCount. simpl.
      rewrite length_app. simpl. lia.
    + unfold LendingCircleFactory.getUserCircles at 1. simpl.
      by rewrite lookup_insert_eq.
    + intros u Hu. unfold LendingCircleFactory.getUserCircles. simpl.
      by rewrite lookup_insert_ne.
  - simpl. eexists. split; [apply lookup_insert_eq|]. done.
  - intros c' Hc'. simpl. by rewrite lookup_insert_ne.
  - simpl. pose proof (getCreditScore_call _ _ _ Hr) as Hq. cbn in Hq.
    fold score in Hq. lia.
  - simpl.
    apply (call_counters _ _ _ (CreditRegistry.CircleJoin sender) Hr).
Qed.

Lemma createCircle_registers_a_verified_circle_witness :
  LendingCircleFactory.circles
    (LendingCircleFactory.factory
       (LendingCircleFactory.act
          (LendingCircleFactory.Create Scenario.alice 10 6 3 6 10 WITHDRAWABLE 501)
          factoryDeployed))
  = (LendingCircleFactory.circles (LendingCircleFactory.factory factoryDeployed)
     ++ [501])%list.
Proof.
  assert (Hrun : LendingCircleFactory.createCircle Scenario.alice 10 6 3 6 10
                   WITHDRAWABLE 501 factoryDeployed
                 = Ok (501,
                       LendingCircleFactory.act
                         (LendingCircleFactory.Create Scenario.alice 10 6 3 6 10
                            WITHDRAWABLE 501)
                         factoryDeployed))
    by (vm_compute; reflexivity).
  pose proof (createCircle_registers_a_verified_circle _ _ _ _ _ _ _ _ _ _ _ Hrun)
    as Hthm.
  cbv zeta in Hthm. exact (proj1 (proj1 (proj2 (proj2 Hthm)))).
Defined.

End FactoryOperations.

Section FactoryHistories.
Import Circle LendingCircleFactory.
Variables this f : address.

Lemma createdBy_insert ch u c c' st :
  c' ≠ c ->
  createdBy (mkChain (factory ch) (factoryAddress ch) (ledger ch) (pool ch)
               (<[c := st]> (created ch))) u c'
  = createdBy ch u c'.
Proof. intros Hc. unfold createdBy. simpl. by rewrite lookup_insert_ne. Qed.

Lemma act_create_consistent s mc d minP maxP rp edm new ch :
  factoryConsistent this f ch ->
  factoryConsistent this f (act (Create s mc d minP maxP rp edm new) ch).
Proof.
  intros HI. simpl.
  destruct (createCircle _ _ _ _ _ _ _ _ _) as [[c ch']|] eqn:H; [|exact HI].
  apply createCircle_Ok in H. cbv zeta in H.
  destruct H as ((_ & Hnew & Hz & Hf) & _ & r & _ & -> & ->).
  destruct HI as (Ht & Hpf & Hnd & His & Hcr & Hu & Hv).
  assert (Hfresh : new ∉ circles (factory ch)).
  { intros Hin. apply Hcr in Hin. by apply elem_of_dom in Hin. }
  unfold factoryConsistent. simpl. split_all; try done.
  - apply NoDup_app. split_all; [done| |apply NoDup_singleton].
    intros x Hx ->%list_elem_of_singleton. done.
  - intros c. rewrite elem_of_union, elem_of_singleton, elem_of_app,
      list_elem_of_singleton, His. tauto.
  - intros c. rewrite elem_of_app, list_elem_of_singleton, Hcr.
    destruct (decide (c = new)) as [->|Hc].
    + rewrite lookup_insert_eq. split; [eauto|]. by right.
    + rewrite lookup_insert_ne by done. split; [intros [?|?]; done|by left].
  - intros u. rewrite List.filter_app. simpl.
    unfold createdBy at 2. simpl. rewrite lookup_insert_eq. simpl.
    assert (Hold : List.filter
                     (createdBy
                        (mkChain
                           (mkState (creditRegistry (factory ch))
                              (reservePool (factory ch))
                              (circles (factory ch) ++ [new])
                              ({[new]} ∪ isCircle (factory ch))
                              (<[s := (getUserCircles s (factory ch) ++ [new])%list]>
                                 (userCircles (factory ch))))
                           (factoryAddress ch) r
                           (ReservePool.mkState (ReservePool.factory (pool ch))
                              ({[new]} ∪ ReservePool.verifiedCircles (pool ch))
                              (ReservePool.totalDeposited (pool ch))
                              (ReservePool.totalWithdrawn (pool ch))
                              (ReservePool.currentBalance (pool ch)))
                           (<[new := Circle.mkState s s mc d minP maxP rp edm PENDING
                                       0 1 0 0
                                       {[ s := mkParticipant s true false false 0 ∅ ∅ ]}
                                       [s] ∅ (7 * days) false]> (created ch))) u)
                     (circles (factory ch))
                   = List.filter (createdBy ch u) (circles (factory ch))).
    { apply List.filter_ext_in. intros c Hc. unfold createdBy. simpl.
      rewrite lookup_insert_ne; [done|].
      intros ->. apply Hfresh. by apply list_elem_of_In. }
    rewrite Hold, <- Hu. unfold getUserCircles at 1. simpl.
    case_bool_decide as Hsu.
    + subst u. by rewrite lookup_insert_eq.
    + rewrite lookup_insert_ne by done. by rewrite app_nil_r.
  - intros c [Hc| ->%list_elem_of_singleton]%elem_of_app.
    + destruct (Hv c Hc) as (? & ? & ?). split_all; try done. set_solver.
    + split_all; try done; [congruence|set_solver].
Qed.

Lemma act_consistent a ch :
  match a with Verify s _ | Revoke s _ => s ≠ this | _ => True end ->
  factoryConsistent this f ch -> factoryConsistent this f (act a ch).
Proof.
  intros Ha HI. destruct a as [s mc d minP maxP rp edm new|op|s c|s c].
  - by apply act_create_consistent.
  - exact HI.
  - simpl. destruct (ReservePool.verifyCircle _ _ _) as [p|] eqn:H; [|exact HI].
    unfold ReservePool.verifyCircle, ReservePool.onlyFactory in H. inv_result.
    destruct HI as (Ht & Hpf & Hnd & His & Hcr & Hu & Hv).
    unfold factoryConsistent. simpl. split_all; try done.
    intros c' Hc'. destruct (Hv c' Hc') as (? & ? & ?).
    split_all; try done. set_solver.
  - simpl. destruct (ReservePool.revokeCircle _ _ _) as [p|] eqn:H; [|exact HI].
    unfold ReservePool.revokeCircle, ReservePool.onlyFactory in H. inv_result.
    prop_hyps.
    destruct HI as (Ht & Hpf & Hnd & His & Hcr & Hu & Hv).
    unfold factoryConsistent. simpl. split_all; try done.
    intros c' Hc'. destruct (Hv c' Hc') as (? & ? & ?). congruence.
Qed.

Lemma run_consistent h ch :
  poolCallsByOthers this h ->
  factoryConsistent this f ch -> factoryConsistent this f (run h ch).
Proof.
  intros Hh. revert ch. induction Hh as [|a h Ha _ IH]; intros ch HI; [done|].
  simpl. apply IH. by apply act_consistent.
Qed.

Lemma deploy_consistent reg poolAddr registry0 pool0 ch0 :
  deploy this reg poolAddr registry0 pool0 = Ok ch0 ->
  ReservePool.factory pool0 = f ->
  factoryConsistent this f ch0
  /\ reg ≠ 0 /\ poolAddr ≠ 0
  /\ ch0 = mkChain (mkState reg poolAddr [] ∅ ∅) this registry0 pool0 ∅.
Proof.
  unfold deploy, constructor. intros H Hf. inv_result. prop_hyps.
  split; [|done].
  unfold factoryConsistent. simpl. split_all; try done.
  - apply NoDup_nil_2.
  - intros c. set_solver.
  - intros c. rewrite lookup_empty. split; [by intros ?%elem_of_nil|by intros [? ?]].
  - by intros c ?%elem_of_nil.
Qed.

Lemma act_addresses a ch :
  creditRegistry (factory (act a ch)) = creditRegistry (factory ch)
  /\ reservePool (factory (act a ch)) = reservePool (factory ch).
Proof.
  destruct a as [s mc d minP maxP rp edm new|op|s c|s c]; simpl; try done.
  - destruct (createCircle _ _ _ _ _ _ _ _ _) as [[c ch']|] eqn:H; [|done].
    apply createCircle_Ok in H. cbv zeta in H.
    by destruct H as (_ & _ & r & _ & -> & ->).
  - by destruct (ReservePool.verifyCircle _ _ _).
  - by destruct (ReservePool.revokeCircle _ _ _).
Qed.

Lemma run_addresses h ch :
  creditRegistry (factory (run h ch)) = creditRegistry (factory ch)
  /\ reservePool (factory (run h ch)) = reservePool (factory ch).
Proof.
  revert ch. induction h as [|a h IH]; intros ch; simpl; [done|].
  destruct (IH (act a ch)) as [-> ->]. apply act_addresses.
Qed.

End FactoryHistories.

Section FactoryInvariants.
Import Circle.

(** X26. Along every history of a deployed factory (creations, operations
    on the registry, and calls of the pool sent by other accounts than the
    factory, which itself sends nothing but the [verifyCircle] of a
    creation) its books match what it created: the registry and the pool it
    was deployed with stay, neither is [address(0)]; [circles] lists every
    circle once, [isCircle] holds exactly for the members of the list, which
    are the addresses where a circle was created; [getUserCircles] of a
    user is the list of the circles whose creator this user is, in the order
    of creation; every circle of the list is not [address(0)] and is
    verified by the pool, for good.  For a pool whose [factory] is another
    address than the factory, no circle is ever created: the list is empty
    and [createCircle] reverts. *)
Theorem factory_books_match_the_circles_created
    (this reg poolAddr : address) (registry0 : CreditRegistry.State)
    (pool0 : ReservePool.State) (ch0 : LendingCircleFactory.Chain)
    (h : list LendingCircleFactory.Action) :
  LendingCircleFactory.deploy this reg poolAddr registry0 pool0 = Ok ch0 ->
  poolCallsByOthers this h ->
  let ch := LendingCircleFactory.run h ch0 in
  let st := LendingCircleFactory.factory ch in
  (LendingCircleFactory.creditRegistry st = reg
   /\ LendingCircleFactory.reservePool st = poolAddr
   /\ reg ≠ 0 /\ poolAddr ≠ 0)
  /\ NoDup (LendingCircleFactory.circles st)
  /\ (forall c, c ∈ LendingCircleFactory.isCircle st
                <-> c ∈ LendingCircleFactory.circles st)
  /\ (forall c, c ∈ LendingCircleFactory.circles st
                <-> is_Some (LendingCircleFactory.created ch !! c))
  /\ (forall u, LendingCircleFactory.getUserCircles u st
                = List.filter (createdBy ch u) (LendingCircleFactory.circles st))
  /\ (forall c, c ∈ LendingCircleFactory.circles st ->
                c ≠ 0
                /\ c ∈ ReservePool.verifiedCircles (LendingCircleFactory.pool ch))
  /\ (ReservePool.factory pool0 ≠ this ->
        LendingCircleFactory.circles st = []
        /\ forall s mc d minP maxP rp edm new,
             exists msg,
               LendingCircleFactory.createCircle s mc d minP maxP rp edm new ch
               = Revert msg).
Proof.
  intros Hd Hh ch st.
  destruct (deploy_consistent this (ReservePool.factory pool0) _ _ _ _ _ Hd eq_refl)
    as (HI & Hr & Hp & Hch0).
  apply (run_consistent this _ h ch0 Hh) in HI. fold ch in HI.
  destruct HI as (Ht & Hpf & Hnd & His & Hcr & Hu & Hv). fold st in Hnd, His, Hcr, Hu, Hv.
  destruct (run_addresses h ch0) as [Ha1 Ha2]. fold ch in Ha1, Ha2. fold st in Ha1, Ha2.
  rewrite Hch0 in Ha1, Ha2. simpl in Ha1, Ha2.
  split; [done|]. split_all; try done.
  - intros c Hc. by destruct (Hv c Hc) as (? & _ & ?).
  - intros Hne. split.
    + destruct (LendingCircleFactory.circles st) as [|c l] eqn:Hl; [done|].
      destruct (Hv c) as (_ & ? & _); [by left|done].
    + intros s mc d minP maxP rp edm new.
      destruct (LendingCircleFactory.createCircle _ _ _ _ _ _ _ _ _)
        as [[c ch']|msg] eqn:Hc; [|eauto].
      apply createCircle_Ok in Hc. cbv zeta in Hc.
      destruct Hc as ((_ & _ & _ & Hf) & _). congruence.
Qed.

Lemma factory_books_match_the_circles_created_witness :
  NoDup
    (LendingCircleFactory.circles
       (LendingCircleFactory.factory
          (LendingCircleFactory.run factoryHistory factoryDeployed)))
  /\ LendingCircleFactory.circles
       (LendingCircleFactory.factory
          (LendingCircleFactory.run factoryHistory factoryDeployed))
     = [501; 502; 503]
  /\ LendingCircleFactory.getUserCircles Scenario.alice
       (LendingCircleFactory.factory
          (LendingCircleFactory.run factoryHistory factoryDeployed))
     = [501; 503].
Proof.
  assert (Hd : LendingCircleFactory.deploy theFactory Scenario.theRegistry
                 Scenario.thePool CreditRegistry.initial
                 (ReservePool.constructor theFactory) = Ok factoryDeployed)
    by reflexivity.
  assert (Hh : poolCallsByOthers theFactory factoryHistory)
    by (repeat constructor; vm_compute; discriminate).
  pose proof (factory_books_match_the_circles_created _ _ _ _ _ _ factoryHistory
                Hd Hh) as Hthm.
  cbv zeta in Hthm.
  split; [exact (proj1 (proj2 Hthm))|]. split; vm_compute; reflexivity.
Defined.

End FactoryInvariants.

(** *** LendingCircle: votes and tallies *)

Section Ballots.
Import Circle LendingCircle.

Lemma ballotOK_ext p p' : ballot p' = ballot p -> ballotOK p -> ballotOK p'.
Proof.
  destruct p, p'. unfold ballot. simpl. intros [= -> -> -> ->]. done.
Qed.

Lemma votesFor_none p c :
  (forall v, v ∈ voters p -> voteCandidate (voteOf p v) ≠ c) -> votesFor p c = 0.
Proof.
  unfold votesFor. generalize (voters p) as l.
  induction l as [|v l IH]; intros H; simpl; [done|].
  rewrite bool_decide_false by (apply H; left).
  apply IH. intros v' Hv'. apply H. by right.
Qed.

Lemma foldr_votes_ext (f g : address -> Vote) c l :
  (forall v, v ∈ l -> f v = g v) ->
  foldr (fun v acc =>
           if bool_decide (voteCandidate (f v) = c) then weight (f v) + acc else acc)
    0 l
  = foldr (fun v acc =>
             if bool_decide (voteCandidate (g v) = c) then weight (g v) + acc else acc)
      0 l.
Proof.
  induction l as [|v l IH]; intros H; simpl; [done|].
  rewrite (H v) by left. rewrite IH; [done|]. intros v' Hv'. apply H. by right.
Qed.

Lemma foldr_votes_snoc (f : address -> Vote) c l s :
  foldr (fun v acc =>
           if bool_decide (voteCandidate (f v) = c) then weight (f v) + acc else acc)
    0 (l ++ [s])
  = foldr (fun v acc =>
             if bool_decide (voteCandidate (f v) = c) then weight (f v) + acc else acc)
      0 l
    + (if bool_decide (voteCandidate (f s) = c) then weight (f s) else 0).
Proof.
  induction l as [|v l IH]; simpl.
  - case_bool_decide; lia.
  - rewrite IH. repeat case_bool_decide; lia.
Qed.

Lemma ballotOK_proposed sender cand (p : PayoutProposal) :
  candidateIsActive (candidateOf p cand) = false ->
  ballotOK p ->
  ballotOK (push_candidate cand
              (set_candidate cand (mkCandidate cand sender 0 true) p)).
Proof.
  intros Hnew (Hv1 & Hv2 & Hc1 & Hc2 & Hv3 & Ht).
  assert (Hfresh : cand ∉ candidateList p).
  { intros Hin. apply Hc2 in Hin. congruence. }
  unfold ballotOK. simpl. split_all; try done.
  - apply NoDup_app. split_all; [done| |apply NoDup_singleton].
    intros x Hx ->%list_elem_of_singleton. done.
  - intros c. rewrite elem_of_app, list_elem_of_singleton.
    change (candidateOf (push_candidate cand ?q) c) with (candidateOf q c).
    rewrite candidateOf_set_candidate. destruct (decide (c = cand)) as [->|Hc].
    + simpl. split; [done|by right].
    + rewrite <- Hc2. split; [intros [?|?]; done|by left].
  - intros v Hv. destruct (Hv3 v Hv) as [? ?]. split; [done|].
    apply elem_of_app. by left.
  - intros c.
    change (candidateOf (push_candidate cand ?q) c) with (candidateOf q c).
    rewrite candidateOf_set_candidate.
    change (votesFor (push_candidate cand (set_candidate cand ?x p)) c)
      with (votesFor p c).
    destruct (decide (c = cand)) as [->|Hc]; [|apply Ht].
    simpl. symmetry. apply votesFor_none.
    intros v Hv Heq. destruct (Hv3 v Hv) as [_ Hin]. congruence.
Qed.

Lemma ballotOK_voted sender cand w (p : PayoutProposal) :
  hasVoted (voteOf p sender) = false ->
  candidateIsActive (candidateOf p cand) = true ->
  ballotOK p ->
  ballotOK (set_candidate cand
              (set_totalVotes (totalVotes (candidateOf p cand) + w)
                 (candidateOf p cand))
              (push_voter sender (set_vote sender (mkVote sender cand w true) p))).
Proof.
  intros Hnew Hact (Hv1 & Hv2 & Hc1 & Hc2 & Hv3 & Ht).
  assert (Hfresh : sender ∉ voters p).
  { intros Hin. apply Hv2 in Hin. congruence. }
  assert (Hvote : forall v,
            voteOf (set_candidate cand
                      (set_totalVotes (totalVotes (candidateOf p cand) + w)
                         (candidateOf p cand))
                      (push_voter sender
                         (set_vote sender (mkVote sender cand w true) p))) v
            = if decide (v = sender) then mkVote sender cand w true else voteOf p v).
  { intros v. apply voteOf_set_vote. }
  unfold ballotOK. simpl. split_all.
  - apply NoDup_app. split_all; [done| |apply NoDup_singleton].
    intros x Hx ->%list_elem_of_singleton. done.
  - intros v. rewrite elem_of_app, list_elem_of_singleton, Hvote.
    destruct (decide (v = sender)) as [->|Hne].
    + simpl. split; [done|by right].
    + rewrite <- Hv2. split; [intros [?|?]; done|by left].
  - done.
  - intros c. rewrite candidateOf_set_candidate.
    destruct (decide (c = cand)) as [->|Hc]; [|apply Hc2].
    simpl. rewrite Hact. split; [done|]. intros _. by apply Hc2.
  - intros v Hv. rewrite Hvote.
    destruct (decide (v = sender)) as [->|Hne].
    + simpl. split; [done|]. by apply Hc2.
    + apply Hv3. apply elem_of_app in Hv as [?|?%list_elem_of_singleton]; done.
  - intros c. rewrite candidateOf_set_candidate.
    unfold votesFor. simpl. rewrite foldr_votes_snoc.
    rewrite (foldr_votes_ext _ (voteOf p) c (voters p)).
    2:{ intros v Hv. rewrite Hvote. rewrite decide_False; [done|].
        intros ->. done. }
    fold (votesFor p c). rewrite <- Ht. rewrite Hvote.
    destruct (decide (sender = sender)); [|done]. simpl.
    destruct (decide (c = cand)) as [->|Hc].
    + simpl. rewrite bool_decide_true by done. done.
    + rewrite bool_decide_false by done.
      change (candidateOf (push_voter sender (set_vote sender ?x p)) c)
        with (candidateOf p c).
      lia.
Qed.

Lemma ballotsOK_same c c' :
  (forall m, proposalOf c' m = proposalOf c m) -> ballotsOK c -> ballotsOK c'.
Proof. intros H HI m. rewrite H. apply HI. Qed.

Lemma circleStep_ballots c c1 : circleStep c c1 -> ballotsOK c -> ballotsOK c1.
Proof.
  intros H HI. destruct H; try exact HI.
  - eapply ballotsOK_same; [|exact HI]. intros m. apply approved_proposalOf.
  - intros m. unfold proposed. rewrite proposalOf_set_proposal.
    destruct (decide (m = month)) as [->|?]; [|apply HI].
    apply ballotOK_proposed.
    + by rewrite candidateOf_opened in *.
    + eapply ballotOK_ext; [|apply (HI month)].
      unfold opened. by destruct (_ =? _).
  - intros m. unfold voted. rewrite proposalOf_set_proposal.
    destruct (decide (m = month)) as [->|?]; [|apply HI].
    by apply ballotOK_voted.
  - intros m. rewrite advanceMonth_proposalOf, proposalOf_markPaid.
    destruct (decide (m = month)) as [->|?]; [|apply HI].
    eapply ballotOK_ext; [|apply (HI month)]. done.
Qed.

Lemma circleMove_ballots c c' : circleMove c c' -> ballotsOK c -> ballotsOK c'.
Proof.
  intros (c1 & Hstep & Hsame) HI.
  eapply ballotsOK_same; [intros m; by apply sameButFunds_proposalOf|].
  by eapply circleStep_ballots.
Qed.

Lemma rtc_ballots c c' : rtc circleMove c c' -> ballotsOK c -> ballotsOK c'.
Proof. induction 1; eauto using circleMove_ballots. Qed.

Lemma constructor_ballots a w0 w1 :
  constructor a w0 = Ok (tt, w1) -> ballotsOK (circle w1).
Proof.
  intros H. apply constructor_Ok in H. cbv zeta in H.
  destruct H as (_ & r & _ & ->). intros m.
  unfold proposalOf. simpl. rewrite lookup_total_empty.
  unfold ballotOK. simpl. split_all; try done; try apply NoDup_nil_2.
  - intros v. rewrite elem_of_nil. unfold voteOf. simpl.
    rewrite lookup_total_empty. done.
  - intros c. rewrite elem_of_nil. unfold candidateOf. simpl.
    rewrite lookup_total_empty. done.
  - by intros v ?%elem_of_nil.
Qed.

End Ballots.

Section BallotInvariant.
Import Circle LendingCircle.

(** X27. Along every history of a deployed circle, for every month the
    ballots and the tallies agree: [voters] lists every account that has
    voted, once; the list of candidates holds every proposed candidate,
    once; every recorded vote carries its voter and goes to a listed
    candidate; and the votes of a candidate are exactly the sum of the
    weights of the votes recorded for it, 0 for an address that was not
    proposed. *)
Theorem votes_tally_with_the_ballots
    (a : Params) (w0 w1 : World) (tr : list (N * Tx)) (month : N) :
  constructor a w0 = Ok (tt, w1) ->
  let w := runTrace tr w1 in
  let p := proposalOf (circle w) month in
  NoDup (voters p)
  /\ (forall v, v ∈ voters p <-> hasVoted (voteOf p v) = true)
  /\ NoDup (getCandidates month w)
  /\ (forall c, c ∈ getCandidates month w
                <-> candidateIsActive (candidateOf p c) = true)
  /\ (forall v, v ∈ voters p ->
        voter (voteOf p v) = v
        /\ voteCandidate (voteOf p v) ∈ getCandidates month w)
  /\ (forall c, getCandidateVotes month c w = votesFor p c)
  /\ (forall c, c ∉ getCandidates month w -> getCandidateVotes month c w = 0).
Proof.
  intros H w p.
  pose proof (rtc_ballots _ _ (runTrace_moves tr w1) (constructor_ballots _ _ _ H)
                month) as HI.
  fold w in HI. fold p in HI.
  destruct HI as (Hv1 & Hv2 & Hc1 & Hc2 & Hv3 & Ht).
  unfold getCandidates, getCandidateVotes. fold p.
  split_all; try done.
  intros c Hc. rewrite Ht. apply votesFor_none.
  intros v Hv Heq. destruct (Hv3 v Hv) as [_ Hin]. congruence.
Qed.

Lemma votes_tally_with_the_ballots_witness :
  (forall c,
     getCandidateVotes 0 c (runTrace ballotHistory (Scenario.deployed 0))
     = votesFor
         (proposalOf (circle (runTrace ballotHistory (Scenario.deployed 0))) 0) c)
  /\ getCandidateVotes 0 Scenario.bob
       (runTrace ballotHistory (Scenario.deployed 0)) = 620
  /\ getCandidateVotes 0 Scenario.carol
       (runTrace ballotHistory (Scenario.deployed 0)) = 310.
Proof.
  assert (Hrun : constructor (Scenario.params 0) Scenario.genesis
                 = Ok (tt, Scenario.deployed 0)) by (vm_compute; reflexivity).
  pose proof (votes_tally_with_the_ballots _ _ _ ballotHistory 0 Hrun) as Hthm.
  cbv zeta in Hthm.
  split; [exact (proj1 (proj2 (proj2 (proj2 (proj2 (proj2 Hthm))))))|].
  split; vm_compute; reflexivity.
Defined.

End BallotInvariant.
